(** * degenter-api: price, routing and candle engine

    A shallow embedding of the numeric core of the analytics API
    (TokensService, SwapService, TradesService) and the properties its
    design document states about it.

    Numbers.  Amounts, prices and reserves read from the tables are
    exact rationals [Q].  Where the code computes with values a caller
    chooses, or tests a result with [Number.isFinite], numbers are the
    type [Flt.t]: [NaN], the two infinities, or a rational; a result whose
    magnitude reaches 2^1024 - 2^970 becomes an infinity, a product or
    quotient whose magnitude is at most 2^-1075 becomes zero, a division
    by zero gives an infinity or [NaN].  The rounding of a result to 53
    bits is left out, so an equality of results is a rational equality
    [==], and the two zeros are not told apart.

    Nullable values ([number|null], [string|null], a missing row) are
    [option]s.  Strings are [string]s of 8-bit characters; [toLowerCase]
    and SQL [lower] act on the letters A-Z. *)

From Stdlib Require Import ZArith QArith Qabs Qround Lqa Lia Bool List.
From Stdlib Require Import Ascii String DecimalString Sorted.
From stdpp Require Import base option list gmap sorting.

Import ListNotations.

#[local] Open Scope Z_scope.

(** ** JavaScript numbers as rationals *)

Module Num.

#[local] Open Scope Q_scope.

(** [a > b] on numbers. *)
Definition gtb (a b : Q) : bool := negb (Qle_bool a b).

(** [a < b] on numbers. *)
Definition ltb (a b : Q) : bool := negb (Qle_bool b a).

(** [a <= b] on numbers. *)
Definition leb (a b : Q) : bool := Qle_bool a b.

(** [Math.max] and [Math.min]. *)
Definition max (a b : Q) : Q := if Qle_bool a b then b else a.
Definition min (a b : Q) : Q := if Qle_bool a b then a else b.

(** [!x] for a number: true for zero. *)
Definition falsy (a : Q) : bool := Qeq_bool a 0.

(** [Number.isFinite] of a number read from a table: such a number is
    finite (a null is the [None] of an [option]). *)
Definition isFinite (_ : Q) : bool := true.

(** The literal [1e-18]. *)
Definition tiny : Q := 1e-18.

End Num.

(** ** JavaScript numbers with their infinities *)

Module Flt.

#[local] Open Scope Q_scope.

Inductive t : Type :=
| NaN
| PInf
| NInf
| Fin (q : Q).

(** The least magnitude that rounds to an infinity, 2^1024 - 2^970, and
    the greatest that rounds to zero, 2^-1075. *)
Definition huge : Q := inject_Z (2 ^ 1024 - 2 ^ 970).
Definition small : Q := 1 # (2 ^ 1075).

(** The result of an exact sum or difference: it overflows, or it is
    kept. *)
Definition overflow (q : Q) : t :=
  if Qle_bool huge q then PInf
  else if Qle_bool q (- huge) then NInf
  else Fin q.

(** The result of an exact product or quotient, and of reading a decimal:
    it underflows to zero, overflows, or is kept. *)
Definition round (q : Q) : t :=
  if Qle_bool (Qabs q) small then Fin 0 else overflow q.

(** [Number(x)] of a decimal text or a stored numeric. *)
Definition num (q : Q) : t := round q.

(** The exact value [q] is kept as it is: its magnitude is above 2^-1075
    and below 2^1024 - 2^970. *)
Definition fits (q : Q) : bool :=
  negb (Qle_bool (Qabs q) small) && negb (Qle_bool huge (Qabs q)).

Definition neg (x : t) : t :=
  match x with
  | NaN => NaN
  | PInf => NInf
  | NInf => PInf
  | Fin q => Fin (- q)
  end.

Definition add (x y : t) : t :=
  match x, y with
  | NaN, _ | _, NaN => NaN
  | PInf, NInf | NInf, PInf => NaN
  | PInf, _ | _, PInf => PInf
  | NInf, _ | _, NInf => NInf
  | Fin a, Fin b => overflow (a + b)
  end.

Definition sub (x y : t) : t :=
  match x, y with
  | NaN, _ | _, NaN => NaN
  | PInf, PInf | NInf, NInf => NaN
  | PInf, _ | _, NInf => PInf
  | NInf, _ | _, PInf => NInf
  | Fin a, Fin b => overflow (a - b)
  end.

(** An infinity times or over a finite value [a]. *)
Definition scaled_inf (positive : bool) (a : Q) : t :=
  if Qeq_bool a 0 then NaN
  else if Qle_bool 0 a then (if positive then PInf else NInf)
  else (if positive then NInf else PInf).

Definition mul (x y : t) : t :=
  match x, y with
  | NaN, _ | _, NaN => NaN
  | PInf, PInf | NInf, NInf => PInf
  | PInf, NInf | NInf, PInf => NInf
  | PInf, Fin a | Fin a, PInf => scaled_inf true a
  | NInf, Fin a | Fin a, NInf => scaled_inf false a
  | Fin a, Fin b => round (a * b)
  end.

(** [x / y].  A zero divisor is the zero of a sum that cancelled, which is
    positive: the quotient has the sign of the dividend. *)
Definition div (x y : t) : t :=
  match x, y with
  | NaN, _ | _, NaN => NaN
  | PInf, PInf | PInf, NInf | NInf, PInf | NInf, NInf => NaN
  | PInf, Fin b => if Qle_bool 0 b then PInf else NInf
  | NInf, Fin b => if Qle_bool 0 b then NInf else PInf
  | Fin _, PInf | Fin _, NInf => Fin 0
  | Fin a, Fin b =>
      if Qeq_bool b 0 then
        (if Qeq_bool a 0 then NaN else if Qle_bool 0 a then PInf else NInf)
      else round (a / b)
  end.

(** [1 / x] for a number [x] of a table.  It is an infinity when [x] is
    zero or so small that the reciprocal overflows; it is never flushed to
    zero, as the magnitude of a number is below 2^1024. *)
Definition recip (x : Q) : t :=
  if Qeq_bool x 0 then PInf else overflow (1 / x).

(** [Math.max] *)
Definition max (x y : t) : t :=
  match x, y with
  | NaN, _ | _, NaN => NaN
  | PInf, _ | _, PInf => PInf
  | NInf, z | z, NInf => z
  | Fin a, Fin b => Fin (Num.max a b)
  end.

(** [x > y] *)
Definition gtb (x y : t) : bool :=
  match x, y with
  | NaN, _ | _, NaN => false
  | _, PInf => false
  | PInf, _ => true
  | NInf, _ => false
  | Fin _, NInf => true
  | Fin a, Fin b => Num.gtb a b
  end.

(** [x <= y] *)
Definition leb (x y : t) : bool :=
  match x, y with
  | NaN, _ | _, NaN => false
  | _, PInf => true
  | PInf, _ => false
  | NInf, _ => true
  | Fin _, NInf => false
  | Fin a, Fin b => Num.leb a b
  end.

(** [x >= y] *)
Definition geb (x y : t) : bool := leb y x.

(** [Number.isFinite] *)
Definition isFinite (x : t) : bool :=
  match x with Fin _ => true | _ => false end.

(** [x === 0] *)
Definition is_zero (x : t) : bool :=
  match x with Fin q => Qeq_bool q 0 | _ => false end.

(** The value of [x] when [Number.isFinite(x)] holds. *)
Definition finite (x : t) : option Q :=
  match x with Fin q => Some q | _ => None end.

Definition zero : t := Fin 0.
Definition one : t := Fin 1.

End Flt.

(** ** Constant-product swap simulator

    [simulateXYK] of TokensService and of SwapService (the two bodies are
    the same). *)

Record SimResult : Type := mkSim { out : Flt.t; price : Flt.t; impact : Flt.t }.

(** The result in exact arithmetic. *)
Record ExactSim : Type := mkExact { exact_out : Q; exact_price : Q; exact_impact : Q }.

Section Simulator.

Definition simulateXYK (fromIsZig : bool) (amountIn Rz Rt fee : Flt.t) : SimResult :=
  if negb (Flt.gtb Rz Flt.zero && Flt.gtb Rt Flt.zero) || negb (Flt.gtb amountIn Flt.zero)
  then mkSim Flt.zero Flt.zero Flt.zero
  else
    let mid := Flt.div Rz Rt in
    let xin := Flt.mul amountIn (Flt.sub Flt.one fee) in
    if fromIsZig then
      let outToken := Flt.div (Flt.mul xin Rt) (Flt.add Rz xin) in
      let effZigPerToken := Flt.div amountIn (Flt.max outToken (Flt.Fin Num.tiny)) in
      let impact :=
        if Flt.gtb mid Flt.zero then Flt.sub (Flt.div effZigPerToken mid) Flt.one
        else Flt.zero in
      mkSim outToken effZigPerToken impact
    else
      let outZig := Flt.div (Flt.mul xin Rz) (Flt.add Rt xin) in
      let effZigPerToken := Flt.div outZig amountIn in
      let impact :=
        if Flt.gtb mid Flt.zero
        then Flt.sub (Flt.div mid (Flt.max effZigPerToken (Flt.Fin Num.tiny))) Flt.one
        else Flt.zero in
      mkSim outZig effZigPerToken impact.

(** The native-to-token impact of a pool as a function of the input. *)
Definition impact_zig (Rz Rt fee a : Q) : Flt.t :=
  impact (simulateXYK true (Flt.Fin a) (Flt.Fin Rz) (Flt.Fin Rt) (Flt.Fin fee)).

(** The reserve of the asset the swap pays out. *)
Definition reserveOfOutputAsset (fromIsZig : bool) (Rz Rt : Q) : Q :=
  if fromIsZig then Rt else Rz.

#[local] Open Scope Q_scope.

(** The simulator in exact arithmetic: what [simulateXYK] computes when no
    intermediate value overflows or underflows. *)
Definition xyk_exact (fromIsZig : bool) (amountIn Rz Rt fee : Q) : ExactSim :=
  if negb (Num.gtb Rz 0 && Num.gtb Rt 0) || negb (Num.gtb amountIn 0) then
    mkExact 0 0 0
  else
    let mid := Rz / Rt in
    let xin := amountIn * (1 - fee) in
    if fromIsZig then
      let outToken := (xin * Rt) / (Rz + xin) in
      let effZigPerToken := amountIn / Num.max outToken Num.tiny in
      let impact := if Num.gtb mid 0 then (effZigPerToken / mid) - 1 else 0 in
      mkExact outToken effZigPerToken impact
    else
      let outZig := (xin * Rz) / (Rt + xin) in
      let effZigPerToken := outZig / amountIn in
      let impact :=
        if Num.gtb mid 0 then (mid / Num.max effZigPerToken Num.tiny) - 1 else 0 in
      mkExact outZig effZigPerToken impact.

(** The native-to-token impact in exact arithmetic. *)
Definition impact_zig_exact (Rz Rt fee a : Q) : Q := exact_impact (xyk_exact true a Rz Rt fee).

(** Every value the native-to-token simulation goes through is kept as
    it is: none overflows, none underflows. *)
Definition zig_in_range (Rz Rt fee a : Q) : bool :=
  let mid := Rz / Rt in
  let xin := a * (1 - fee) in
  let outToken := (xin * Rt) / (Rz + xin) in
  let eff := a / Num.max outToken Num.tiny in
  Flt.fits mid && Flt.fits xin && Flt.fits (xin * Rt) && Flt.fits (Rz + xin)
  && Flt.fits outToken && Flt.fits eff && Flt.fits (eff / mid).

End Simulator.

(** ** Strings *)

Module Str.

#[local] Open Scope string_scope.

(** One character of [toLowerCase] / SQL [lower]. *)
Definition lower_ascii (c : ascii) : ascii :=
  let n := N_of_ascii c in
  if ((65 <=? n) && (n <=? 90))%N then ascii_of_N (n + 32) else c.

Fixpoint toLowerCase (s : string) : string :=
  match s with
  | EmptyString => EmptyString
  | String c r => String (lower_ascii c) (toLowerCase r)
  end.

(** [\d] *)
Definition is_digit (c : ascii) : bool :=
  let n := N_of_ascii c in ((48 <=? n) && (n <=? 57))%N.

Definition digit_value (c : ascii) : Z := (Z.of_N (N_of_ascii c) - 48)%Z.

(** The longest run of digits at the head of [s], as [\d+] takes it. *)
Fixpoint take_digits (s : string) : string :=
  match s with
  | String c r => if is_digit c then String c (take_digits r) else EmptyString
  | EmptyString => EmptyString
  end.

(** The value of a run of decimal digits. *)
Definition decimal_value (ds : string) : Z :=
  fold_left (fun acc c => (10 * acc + digit_value c)%Z) (list_ascii_of_string ds) 0%Z.

(** The least integer that [Number] rounds to [Infinity]:
    2^1024 - 2^970. *)
Definition Number_overflow : Z := (2 ^ 1024 - 2 ^ 970)%Z.

(** [Number(ds)] on a run of digits, with [None] for [Infinity]; the
    rounding of values above 2^53 is left out. *)
Definition Number_of_digits (ds : string) : option Q :=
  let n := decimal_value ds in
  if (n <? Number_overflow)%Z then Some (inject_Z n) else None.

(** [!s] for a nullable string: null and the empty string. *)
Definition falsy (s : option string) : bool :=
  match s with
  | None => true
  | Some EmptyString => true
  | Some _ => false
  end.

(** [a || b] on nullable strings. *)
Definition or_else (a b : option string) : option string :=
  if falsy a then b else a.

(** SQL [=] on a nullable column: unknown counts as no match. *)
Definition col_eqb (col : option string) (q : string) : bool :=
  match col with
  | Some v => String.eqb v q
  | None => false
  end.

(** [hay] contains [needle]. *)
Fixpoint includes (needle hay : string) : bool :=
  String.prefix needle hay
  || match hay with
     | EmptyString => false
     | String _ r => includes needle r
     end.

End Str.

(** ** Fee schedule

    [pairFee] of TokensService and of SwapService. *)

Section Fees.

#[local] Open Scope string_scope.

(** [[_-]] *)
Definition is_sep (c : ascii) : bool := (Ascii.eqb c "_"%char || Ascii.eqb c "-"%char)%bool.

(** One attempt of [/xyk[_-](\d+)/] at the head of [s]: the captured
    digits. *)
Definition match_xyk_here (s : string) : option string :=
  match s with
  | String "x"%char (String "y"%char (String "k"%char (String sep rest))) =>
      if is_sep sep then
        match Str.take_digits rest with
        | EmptyString => None
        | ds => Some ds
        end
      else None
  | _ => None
  end.

(** [t.match(/xyk[_-](\d+)/)]: the leftmost position where the pattern
    matches; the result is capture group 1. *)
Fixpoint match_xyk (s : string) : option string :=
  match match_xyk_here s with
  | Some ds => Some ds
  | None =>
      match s with
      | EmptyString => None
      | String _ r => match_xyk r
      end
  end.

Definition pairFee (pairType : option string) : Q :=
  match pairType with
  | None => 0.003%Q
  | Some EmptyString => 0.003%Q
  | Some s =>
      let t := Str.toLowerCase s in
      if String.eqb t "xyk" then 0.0001%Q
      else if String.eqb t "concentrated" then 0.01%Q
      else
        match match_xyk t with
        | Some ds =>
            match Str.Number_of_digits ds with
            | Some bps => (bps / 10000)%Q
            | None => 0.003%Q
            end
        | None => 0.003%Q
        end
  end.

(** Every character of [s] is a digit. *)
Fixpoint all_digits (s : string) : bool :=
  match s with
  | EmptyString => true
  | String c r => Str.is_digit c && all_digits r
  end.

(** [s] does not begin with a digit. *)
Definition nondigit_head (s : string) : bool :=
  match s with
  | EmptyString => true
  | String c _ => negb (Str.is_digit c)
  end.

(** The whole of [s] is [xyk], a separator and a number: the number. *)
Definition whole_xyk_n (s : string) : option Z :=
  match s with
  | String "x"%char (String "y"%char (String "k"%char (String sep (String d ds)))) =>
      if (is_sep sep && all_digits (String d ds))%bool
      then Some (Str.decimal_value (String d ds)) else None
  | _ => None
  end.

(** The fee schedule in the words of the design document: the exact
    string [xyk], the exact string [concentrated], a string of the form
    [xyk_<n>] or [xyk-<n>], and the default for anything else. *)
Definition pairFee_as_stated (pairType : option string) : Q :=
  match pairType with
  | None => 0.003%Q
  | Some s =>
      if String.eqb s "xyk" then 0.0001%Q
      else if String.eqb s "concentrated" then 0.01%Q
      else
        match whole_xyk_n s with
        | Some n => (inject_Z n / 10000)%Q
        | None => 0.003%Q
        end
  end.

(** [t] contains [xyk], then [_] or [-], then a digit. *)
Definition has_xyk_n (t : string) : Prop :=
  exists (pre : string) (sep d : ascii) (rest : string),
    t = append pre (String "x"%char (String "y"%char (String "k"%char (String sep (String d rest)))))
    /\ is_sep sep = true /\ Str.is_digit d = true.

End Fees.

(** ** OHLCV aggregator

    The bucket loop of [ohlcvAdvanced] and of [ohlcvUzigFromUsdc] (the two
    loops are the same), from the rows the bucketing query returned to the
    series before inversion and unit scaling. *)

(** One row of the bucketing query, as stored in [bySec]. *)
Record Row : Type := mkRow {
  sec : Z; r_open : Q; r_high : Q; r_low : Q; r_close : Q; r_volume : Q; r_trades : Q
}.

(** One emitted bar. *)
Record Bar : Type := mkBar {
  ts_sec : Z; open : Q; high : Q; low : Q; close : Q; volume : Q; trades : Q
}.

Inductive Fill : Type := FillPrev | FillZero | FillNone.

Definition Fill_eqb (a b : Fill) : bool :=
  match a, b with
  | FillPrev, FillPrev | FillZero, FillZero | FillNone, FillNone => true
  | _, _ => false
  end.

(** [Math.floor(new Date(iso).getTime() / 1000 / stepSec) * stepSec], on
    the epoch milliseconds of the date. *)
Definition alignSec (ms stepSec : Z) : Z :=
  Qfloor (inject_Z ms / 1000 / inject_Z stepSec) * stepSec.

(** [new Map(rows.map(r => [Number(r.ts_sec), {...}]))]: a later row with
    the same key replaces an earlier one. *)
Definition bySec_of (rows : list Row) : gmap Z Row :=
  foldl (fun m r => <[sec r := r]> m) ∅ rows.

(** The loop state: [prevClose] and [out]. *)
Definition LoopState : Type := (option Q * list Bar)%type.

Section BucketLoop.

Variable fill : Fill.
Variable bySec : gmap Z Row.
Variable stepSec : Z.
Variable endSec : Z.

(** The body of the loop at bucket [ts]. *)
Definition bucket_body (ts : Z) (st : LoopState) : LoopState :=
  let '(prevClose, out) := st in
  match bySec !! ts with
  | Some r =>
      let openAdj := match prevClose with Some pc => pc | None => r_open r end in
      let highAdj := Num.max (r_high r) openAdj in
      let lowAdj := Num.min (r_low r) openAdj in
      let base := mkBar ts openAdj highAdj lowAdj (r_close r) (r_volume r) (r_trades r) in
      (Some (close base), out ++ [base])
  | None =>
      if negb (Fill_eqb fill FillNone) then
        match (if Fill_eqb fill FillPrev then prevClose else None) with
        | Some pc => (prevClose, out ++ [mkBar ts pc pc pc pc 0 0])
        | None =>
            if Fill_eqb fill FillZero then
              (Some 0%Q, out ++ [mkBar ts 0 0 0 0 0 0])
            else st
        end
      else st
  end.

(** [for (let ts = start; ts <= end; ts += stepSec) body]; [None] when
    the fuel runs out before the loop ends. *)
Fixpoint bucket_loop (fuel : nat) (ts : Z) (st : LoopState) : option LoopState :=
  if ts <=? endSec then
    match fuel with
    | O => None
    | S fuel' => bucket_loop fuel' (ts + stepSec) (bucket_body ts st)
    end
  else Some st.

(** The bar the body emits at bucket [ts] when the previous close is
    [prevClose]: a real bar, a flat bar or a zero bar. *)
Inductive emits (prevClose : option Q) (ts : Z) : Bar -> Prop :=
| emits_real (r : Row) :
    bySec !! ts = Some r ->
    emits prevClose ts
      (let openAdj := match prevClose with Some pc => pc | None => r_open r end in
       mkBar ts openAdj (Num.max (r_high r) openAdj) (Num.min (r_low r) openAdj)
             (r_close r) (r_volume r) (r_trades r))
| emits_flat (pc : Q) :
    bySec !! ts = None -> fill = FillPrev -> prevClose = Some pc ->
    emits prevClose ts (mkBar ts pc pc pc pc 0 0)
| emits_zero :
    bySec !! ts = None -> fill = FillZero ->
    emits prevClose ts (mkBar ts 0 0 0 0 0 0).

End BucketLoop.

(** The buckets the loop visits in [n] iterations from [start]. *)
Fixpoint bucket_times (n : nat) (start stepSec : Z) : list Z :=
  match n with
  | O => []
  | S n' => start :: bucket_times n' (start + stepSec) stepSec
  end.

(** The number of iterations the loop makes for a positive step. *)
Definition bucket_count (startSec endSec stepSec : Z) : nat :=
  Z.to_nat ((endSec - startSec) / stepSec + 1).

(** The series the bucket loop emits for a request: [out] after the loop,
    before inversion and scaling. *)
Definition ohlcv_series (fill : Fill) (seedPrevClose : option Q) (rows : list Row)
    (fromMs toMs stepSec : Z) : option (list Bar) :=
  let start := alignSec fromMs stepSec in
  let endSec := alignSec toMs stepSec in
  let bySec := bySec_of rows in
  let prevClose :=
    match seedPrevClose with
    | Some s => if Fill_eqb fill FillPrev && Num.isFinite s then Some s else None
    | None => None
    end in
  snd <$> bucket_loop fill bySec stepSec endSec
            (bucket_count start endSec stepSec) start (prevClose, []).

(** Continuity between a bar [b] and the bar [b'] emitted next: [b'] opens
    at the close of [b], unless it is the zero bar of an empty bucket. *)
Definition continuous_pair (fill : Fill) (bySec : gmap Z Row) (b b' : Bar) : Prop :=
  (is_Some (bySec !! ts_sec b') \/ fill <> FillZero -> open b' = close b)
  /\ (bySec !! ts_sec b' = None -> fill = FillZero ->
      b' = mkBar (ts_sec b') 0 0 0 0 0 0).

(** [P] holds of every two adjacent bars. *)
Definition adjacent_all (P : Bar -> Bar -> Prop) (out : list Bar) : Prop :=
  forall (i : nat) (b b' : Bar), out !! i = Some b -> out !! S i = Some b' -> P b b'.

(** The open lies between the low and the high. *)
Definition widened (b : Bar) : Prop := (low b <= open b)%Q /\ (open b <= high b)%Q.

(** What the loop maintains: the previous close is the close of the last
    emitted bar, adjacent bars are continuous, every bar is widened. *)
Definition series_inv (fill : Fill) (bySec : gmap Z Row) (st : LoopState) : Prop :=
  (forall b : Bar, last (snd st) = Some b -> fst st = Some (close b))
  /\ adjacent_all (continuous_pair fill bySec) (snd st)
  /\ Forall widened (snd st).

(** [invert] and the inversion of a bar in [ohlcvAdvanced]. *)
Definition invert (v : Q) : Q := if Num.gtb v 0 then (1 / v)%Q else 0%Q.

Definition invertBar (b : Bar) : Bar :=
  mkBar (ts_sec b) (invert (open b)) (invert (low b)) (invert (high b))
        (invert (close b)) (volume b) (trades b).

(** [outAdj]: the series as seen from the requested side. *)
Definition outAdj (dominantIsQuote viewIsQuote : bool) (out : list Bar) : list Bar :=
  if dominantIsQuote && viewIsQuote then map invertBar out else out.

(** ** Token resolver *)

(** A row of the [tokens] table. *)
Record Token : Type := mkToken {
  token_id : Z;
  denom : string;
  symbol : option string;
  name : option string;
  exponent : option Z
}.

Module Sql.

(** [token_id::text] *)
Definition int_text (n : Z) : string := NilZero.string_of_int (Z.to_int n).

(** The outcomes of PostgreSQL's pattern matcher: a match, a mismatch at
    this position, a mismatch that no later position can repair, and the
    error it raises on a pattern that ends in a lone backslash. *)
Inductive Match : Type := LIKE_TRUE | LIKE_FALSE | LIKE_ABORT | LIKE_ERROR.

(** [MatchText]: [LIKE] on the characters of pattern and text, as
    PostgreSQL evaluates it.  [%] is any run of characters, [_] any one
    character, a backslash takes the next pattern character literally.
    A backslash with nothing after it raises "LIKE pattern must not end
    with escape character", but only when the matcher gets to it: a text
    that differs from the pattern before that point is a plain mismatch.
    [after_percent] is the matcher after a [%]: it skips further wildcards
    and looks for the places where the rest of the pattern can start. *)
Fixpoint MatchText (p t : list ascii) {struct p} : Match :=
  match t with
  | [] => if forallb (Ascii.eqb "%") p then LIKE_TRUE else LIKE_ABORT
  | d :: t' =>
      match p with
      | [] => LIKE_FALSE
      | c :: p' =>
          if Ascii.eqb c "\" then
            match p' with
            | [] => LIKE_ERROR
            | e :: p'' => if Ascii.eqb e d then MatchText p'' t' else LIKE_FALSE
            end
          else if Ascii.eqb c "%" then after_percent p' t
          else if Ascii.eqb c "_" then MatchText p' t'
          else if Ascii.eqb c d then MatchText p' t' else LIKE_FALSE
      end
  end
with after_percent (p t : list ascii) {struct p} : Match :=
  match p with
  | [] => LIKE_TRUE
  | c :: p' =>
      if Ascii.eqb c "%" then after_percent p' t
      else if Ascii.eqb c "_" then
        match t with [] => LIKE_ABORT | _ :: t' => after_percent p' t' end
      else if Ascii.eqb c "\" then
        match p' with
        | [] => LIKE_ERROR
        | e :: p'' =>
            (fix scan (t : list ascii) : Match :=
               match t with
               | [] => LIKE_ABORT
               | d :: t' =>
                   if Ascii.eqb d e then
                     match MatchText p'' t' with
                     | LIKE_FALSE => scan t'
                     | m => m
                     end
                   else scan t'
               end) t
        end
      else
        (fix scan (t : list ascii) : Match :=
           match t with
           | [] => LIKE_ABORT
           | d :: t' =>
               if Ascii.eqb d c then
                 match MatchText p' t' with
                 | LIKE_FALSE => scan t'
                 | m => m
                 end
               else scan t'
           end) t
  end.

(** [text LIKE pattern]: [None] when the matcher raises. *)
Definition like (p s : list ascii) : option bool :=
  match MatchText p s with
  | LIKE_TRUE => Some true
  | LIKE_ERROR => None
  | _ => Some false
  end.

(** The characters [LIKE] reads as wildcards or escapes. *)
Definition is_special (c : ascii) : bool :=
  Ascii.eqb c "%" || Ascii.eqb c "_" || Ascii.eqb c "\".

(** A pattern without wildcards and escapes. *)
Definition literal (p : string) : bool :=
  forallb (fun c => negb (is_special c)) (list_ascii_of_string p).

(** The pattern ends in a backslash that escapes nothing ([esc] tells
    whether the character before the pattern was an escaping backslash). *)
Fixpoint ends_in_escape_from (esc : bool) (p : list ascii) : bool :=
  match p with
  | [] => esc
  | c :: p' => ends_in_escape_from (if esc then false else Ascii.eqb c "\") p'
  end.

Definition ends_in_escape (p : string) : bool :=
  ends_in_escape_from false (list_ascii_of_string p).

(** [text ILIKE pattern]: both sides are lower-cased, then matched. *)
Definition ilike (text pattern : string) : option bool :=
  like (list_ascii_of_string (Str.toLowerCase pattern))
       (list_ascii_of_string (Str.toLowerCase text)).

(** [col ILIKE pattern] on a nullable column: on null the operator is not
    evaluated and the row does not match. *)
Definition col_ilike (col : option string) (pattern : string) : option bool :=
  match col with
  | Some v => ilike v pattern
  | None => Some false
  end.

(** [lower(col) = lower(q)] on a nullable column. *)
Definition col_lower_eqb (col : option string) (q : string) : bool :=
  match col with
  | Some v => String.eqb (Str.toLowerCase v) (Str.toLowerCase q)
  | None => false
  end.

(** [CASE WHEN c THEN 0 ELSE 1 END] *)
Definition case01 (c : bool) : Z := if c then 0 else 1.

(** [ORDER BY ... LIMIT 1]: the first row of the ordering; among rows
    with equal keys, the earliest of the table. *)
Definition first_by {A} (before : A -> A -> bool) (rows : list A) : option A :=
  foldl (fun best t =>
           match best with
           | None => Some t
           | Some b => if before t b then Some t else Some b
           end) None rows.

End Sql.

(** What a query gives: its result, or the error the database raised. *)
Inductive Outcome (A : Type) : Type :=
| Returns (a : A)
| Throws.

Arguments Returns {A} a.
Arguments Throws {A}.

Module TokensService.

(** The [WHERE] clause of [resolveTokenId] on one row: [Some true] when
    the row is kept, [Some false] when it is not, [None] when evaluating
    it raises.  The disjuncts are evaluated in the order written and the
    evaluation stops at the first that holds, so the name is compared with
    the pattern only on rows that neither denom nor symbol has matched. *)
Definition where_ (q : string) (t : Token) : option bool :=
  if String.eqb (denom t) q
     || String.eqb (Str.toLowerCase (denom t)) (Str.toLowerCase q)
     || Str.col_eqb (symbol t) q
     || Sql.col_lower_eqb (symbol t) q
  then Some true
  else
    match Sql.col_ilike (name t) q with
    | None => None
    | Some true => Some true
    | Some false => Some (String.eqb (Sql.int_text (token_id t)) q)
    end.

Definition raises (q : string) (t : Token) : bool :=
  match where_ q t with None => true | Some _ => false end.

Definition kept (q : string) (t : Token) : bool :=
  match where_ q t with Some true => true | _ => false end.

(** The three [CASE] keys of the [ORDER BY]. *)
Definition order_keys (q : string) (t : Token) : Z * Z * Z :=
  (Sql.case01 (String.eqb (denom t) q),
   Sql.case01 (String.eqb (Str.toLowerCase (denom t)) (Str.toLowerCase q)),
   Sql.case01 (Sql.col_lower_eqb (symbol t) q)).

(** [a] sorts strictly before [b]: keys ascending, then [token_id]
    descending. *)
Definition before (q : string) (a b : Token) : bool :=
  let '(a1, a2, a3) := order_keys q a in
  let '(b1, b2, b3) := order_keys q b in
  (a1 <? b1)
  || ((a1 =? b1) && ((a2 <? b2)
  || ((a2 =? b2) && ((a3 <? b3)
  || ((a3 =? b3) && (token_id b <? token_id a)))))).

(** [r.rows[0] ?? null]; the query fails, and [resolveTokenId] throws,
    when the [WHERE] clause raises on some row of the table. *)
Definition resolveTokenId (tokens : list Token) (q : string) : Outcome (option Token) :=
  if existsb (raises q) tokens then Throws
  else Returns (Sql.first_by (before q) (List.filter (kept q) tokens)).

End TokensService.

Module SwapService.

Definition where_ (q : string) (t : Token) : bool :=
  String.eqb (denom t) q
  || Str.col_eqb (symbol t) q
  || Sql.col_lower_eqb (symbol t) q
  || String.eqb (Sql.int_text (token_id t)) q.

Definition order_keys (q : string) (t : Token) : Z * Z :=
  (Sql.case01 (String.eqb (denom t) q),
   Sql.case01 (Sql.col_lower_eqb (symbol t) q)).

Definition before (q : string) (a b : Token) : bool :=
  let '(a1, a2) := order_keys q a in
  let '(b1, b2) := order_keys q b in
  (a1 <? b1)
  || ((a1 =? b1) && ((a2 <? b2)
  || ((a2 =? b2) && (token_id b <? token_id a)))).

Definition resolveTokenId (tokens : list Token) (q : string) : option Token :=
  Sql.first_by (before q) (List.filter (where_ q) tokens).

End SwapService.

(** ** Native-currency test

    [isUzigToken] of TokensService and of TradesService. *)

(** The argument: a string, or an object with nullable [denom] and
    [symbol]. *)
Inductive TokArg : Type :=
| TokString (s : string)
| TokObject (denom symbol : option string).

Definition isUzigToken (tok : TokArg) : bool :=
  let raw :=
    match tok with
    | TokString s => s
    | TokObject d s =>
        match Str.or_else (Str.or_else d s) (Some EmptyString) with
        | Some v => v
        | None => EmptyString
        end
    end in
  let v := Str.toLowerCase raw in
  String.eqb v "uzig" || String.eqb v "zig".

(** The test on a row of the [tokens] table. *)
Definition isUzigTokenRow (t : Token) : bool :=
  isUzigToken (TokObject (Some (denom t)) (symbol t)).

(** ** Trade shaper and classification (TradesService) *)

Inductive Direction : Type := Buy | Sell | Provide | Withdraw.

Definition Direction_eqb (a b : Direction) : bool :=
  match a, b with
  | Buy, Buy | Sell, Sell | Provide, Provide | Withdraw, Withdraw => true
  | _, _ => false
  end.

(** The columns of a joined trade row that the shaper reads for amounts
    and values. *)
Record TradeRow : Type := mkTradeRow {
  direction : option Direction;
  offer_asset_denom : option string;
  ask_asset_denom : option string;
  offer_amount_base : option Q;
  ask_amount_base : option Q;
  return_amount_base : option Q;
  offer_exp : option Z;
  ask_exp : option Z;
  qexp : option Z;
  bexp : option Z;
  is_uzig_quote : bool;
  pq_price_in_zig : option Q;
  fx_zig_usd : option Q
}.

(** The fields of a shaped trade that classification reads. *)
Record Shaped : Type := mkShaped {
  offerAmount : option Q;
  askAmount : option Q;
  valueNative : option Q;
  valueUsd : option Q;
  zigLegAmount : option Q;
  zig_usd_at_trade : option Q
}.

Inductive Unit_ : Type := UnitUsd | UnitZig.

Inductive Class : Type := shrimp | shark | whale.

Section Trades.

#[local] Open Scope Q_scope.

(** [scale(base, exp, fallback)] *)
Definition scale (base : option Q) (exp : option Z) (fallback : Z) : option Q :=
  match base with
  | None => None
  | Some b =>
      let e := match exp with None => fallback | Some e => e end in
      Some (b / Qpower 10 e)
  end.

Definition is_dir (r : TradeRow) (d : Direction) : bool :=
  match direction r with
  | Some d' => Direction_eqb d' d
  | None => false
  end.

Definition denom_is_uzig (d : option string) : bool := Str.col_eqb d "uzig".

(** [a ?? b] on exponents. *)
Definition exp_or (a : option Z) (b : Z) : option Z :=
  match a with Some _ => a | None => Some b end.

Definition shapeRow (r : TradeRow) (unit : Unit_) (zigUsd : Q) : Shaped :=
  let fx := match fx_zig_usd r with Some f => f | None => zigUsd end in
  let offerScaled :=
    scale (offer_amount_base r)
          (if denom_is_uzig (offer_asset_denom r) then Some 6%Z else exp_or (offer_exp r) 6) 6 in
  let askScaled :=
    scale (ask_amount_base r)
          (if denom_is_uzig (ask_asset_denom r) then Some 6%Z else exp_or (ask_exp r) 6) 6 in
  let quoteLeg :=
    if is_dir r Buy then scale (offer_amount_base r) (exp_or (qexp r) 6) 6
    else scale (return_amount_base r) (exp_or (qexp r) 6) 6 in
  let valueZig :=
    if is_uzig_quote r then quoteLeg
    else
      match pq_price_in_zig r with
      | Some p =>
          match quoteLeg with
          | Some rawQuote => Some (rawQuote * p)
          | None => None
          end
      | None => None
      end in
  let valueUsd := match valueZig with Some v => Some (v * fx) | None => None end in
  let zigLegAmount :=
    match (if denom_is_uzig (offer_asset_denom r) then offerScaled else None) with
    | Some o => Some o
    | None =>
        match (if denom_is_uzig (ask_asset_denom r) then askScaled else None) with
        | Some a => Some a
        | None => None
        end
    end in
  mkShaped offerScaled askScaled valueZig valueUsd zigLegAmount (Some fx).

Definition worthForClass (item : Shaped) (unit : Unit_) (zigUsd : Q) : option Q :=
  let zigBasis :=
    match zigLegAmount item with
    | Some z => Some z
    | None => valueNative item
    end in
  match zigBasis with
  | None => None
  | Some basis =>
      let fx := match zig_usd_at_trade item with Some f => f | None => zigUsd end in
      Some (match unit with UnitUsd => basis * fx | UnitZig => basis end)
  end.

(** The rate [worthForClass] converts with: the rate recorded with the
    trade, the current rate when there is none. *)
Definition rate_at_trade (item : Shaped) (zigUsd : Q) : Q :=
  match zig_usd_at_trade item with Some f => f | None => zigUsd end.

Definition classifyByThreshold (x : Q) : Class :=
  if Num.ltb x 1000 then shrimp
  else if Num.leb x 10000 then shark
  else whale.

(** [w != null ? this.classifyByThreshold(w) : null], the [class] field
    of a listed trade. *)
Definition classOf (item : Shaped) (unit : Unit_) (zigUsd : Q) : option Class :=
  match worthForClass item unit zigUsd with
  | Some w => Some (classifyByThreshold w)
  | None => None
  end.

End Trades.

(** ** Price change per bucket (TokensService) *)

(** A row of [ohlcv_1m]: its pool, its start (an instant, in
    microseconds) and its nullable close. *)
Record Ohlcv1m : Type := mkOhlcv1m {
  o_pool_id : Z;
  bucket_start : Z;
  o_close : option Q
}.

(** The row the change query returns: [last_close] and [prev_close]. *)
Record CloseRow : Type := mkCloseRow {
  last_close : option Q;
  prev_close : option Q
}.

Section Change.

#[local] Open Scope Q_scope.

Variable ohlcv_1m : list Ohlcv1m.
Variable now : Z.

(** [ORDER BY bucket_start DESC LIMIT 1] *)
Definition latest (rows : list Ohlcv1m) : option Ohlcv1m :=
  Sql.first_by (fun a b => (bucket_start b <? bucket_start a)%Z) rows.

(** The CTE [last]. *)
Definition cte_last (poolId : Z) : option Ohlcv1m :=
  latest (List.filter (fun o => (o_pool_id o =? poolId)%Z) ohlcv_1m).

(** The CTE [prev]: [bucket_start <= now() - minutes]. *)
Definition cte_prev (poolId minutes : Z) : option Ohlcv1m :=
  latest (List.filter
            (fun o => (o_pool_id o =? poolId)%Z
                      && (bucket_start o <=? now - minutes * 60000000)%Z)
            ohlcv_1m).

(** [SELECT last.close, prev.close FROM last, prev]: one row when both
    CTEs have one, none otherwise. *)
Definition change_query (poolId minutes : Z) : option CloseRow :=
  match cte_last poolId, cte_prev poolId minutes with
  | Some l, Some p => Some (mkCloseRow (o_close l) (o_close p))
  | _, _ => None
  end.

(** [!x] on a nullable number: null and zero. *)
Definition falsy_num (x : option Q) : bool :=
  match x with
  | None => true
  | Some v => Num.falsy v
  end.

(** The body of [changePctForMinutes] on the row of the query.  The
    reciprocal of a close too small overflows to an infinity.  The guard
    [!Number.isFinite(last) || !Number.isFinite(prev) || prev === 0] is
    the case distinction on [Flt.finite] of both values and the test of
    [prev]; past it the percentage [((last - prev) / prev) * 100] is kept
    as its exact value. *)
Definition changePct_of_row (row : option CloseRow) (invert : bool) : option Q :=
  let lastRaw := match row with Some r => last_close r | None => None end in
  let prevRaw := match row with Some r => prev_close r | None => None end in
  if falsy_num lastRaw || falsy_num prevRaw then None
  else
    match lastRaw, prevRaw with
    | Some lastRaw, Some prevRaw =>
        let last := if invert then Flt.recip lastRaw else Flt.Fin lastRaw in
        let prev := if invert then Flt.recip prevRaw else Flt.Fin prevRaw in
        match Flt.finite last, Flt.finite prev with
        | Some last, Some prev =>
            if Qeq_bool prev 0 then None
            else Some (((last - prev) / prev) * 100)
        | _, _ => None
        end
    | _, _ => None
    end.

Definition changePctForMinutes (poolId minutes : Z) (invert : bool) : option Q :=
  changePct_of_row (change_query poolId minutes) invert.

(** [zigChangeFromUsdcPool]: the inverted change without the test for
    finite values, so that its result can be an infinity or [NaN]. *)
Definition zigChangeFromUsdcPool (poolId minutes : Z) : option Flt.t :=
  let row := change_query poolId minutes in
  let last := match row with Some r => last_close r | None => None end in
  let prev := match row with Some r => prev_close r | None => None end in
  if falsy_num last || falsy_num prev then None
  else
    match last, prev with
    | Some last, Some prev =>
        let nowInv := Flt.recip last in
        let prevInv := Flt.recip prev in
        Some (Flt.mul (Flt.div (Flt.sub nowInv prevInv) prevInv) (Flt.Fin 100))
    | _, _ => None
    end.

End Change.

(** ** Pool selection (TokensService, SwapService)

    A pool as [loadUzigPoolsForToken] returns it, and the candidate that
    [pickBySimulation] builds from it. *)

Record Pool : Type := mkPool {
  poolId : Z;
  pairContract : string;
  pairType : option string;
  priceInZig : Q;
  tokenReserve : Q;
  zigReserve : Q;
  tvlZig : Q
}.

(** [{ ...p, fee, sim, score }] *)
Record Cand : Type := mkCand {
  c_pool : Pool;
  c_fee : Q;
  c_sim : option SimResult;
  c_score : Flt.t
}.

Section PoolSelection.

#[local] Open Scope Q_scope.

(** [p.zigReserve > 0 && p.tokenReserve > 0] *)
Definition hasRes (p : Pool) : bool :=
  Num.gtb (zigReserve p) 0 && Num.gtb (tokenReserve p) 0.

(** The candidate built in one iteration of [pickBySimulation]. *)
Definition candidate (fromIsZig : bool) (amountIn : Q) (p : Pool) : Cand :=
  let fee := pairFee (pairType p) in
  let sim :=
    if hasRes p
    then Some (simulateXYK fromIsZig (Flt.Fin amountIn) (Flt.Fin (zigReserve p))
                 (Flt.Fin (tokenReserve p)) (Flt.Fin fee))
    else None in
  let score := match sim with Some s => out s | None => Flt.zero end in
  mkCand p fee sim score.

(** [pickBySimulation]: the loop over the pools keeps the candidate with
    the greatest score, the earlier one on a tie. *)
Definition pickBySimulation (pools : list Pool) (fromIsZig : bool) (amountIn : Q)
  : option Cand :=
  foldl (fun best p =>
           let cand := candidate fromIsZig amountIn p in
           match best with
           | None => Some cand
           | Some b => if Flt.gtb (c_score cand) (c_score b) then Some cand else Some b
           end) None pools.

(** The amount the pool pays out is kept as a positive number: the pool
    has both reserves, amount and reserve are below the largest number,
    the fee is not negative, and neither the net input, nor its product
    with the reserve paid from, nor the quotient underflows, nor does the
    sum under the quotient overflow. *)
Definition pays_out (fromIsZig : bool) (amountIn : Q) (p : Pool) : bool :=
  let fee := pairFee (pairType p) in
  let R := if fromIsZig then tokenReserve p else zigReserve p in
  let S := if fromIsZig then zigReserve p else tokenReserve p in
  let x := amountIn * (1 - fee) in
  hasRes p && Qle_bool 0 fee
  && negb (Qle_bool Flt.huge amountIn) && negb (Qle_bool Flt.huge R)
  && negb (Qle_bool x Flt.small) && negb (Qle_bool (x * R) Flt.small)
  && negb (Qle_bool Flt.huge (S + x)) && negb (Qle_bool (x * R / (S + x)) Flt.small).

Inductive Side : Type := SideBuy | SideSell.

(** [x || 0] on a number. *)
Definition or_zero (x : Q) : Q := if Num.falsy x then 0 else x.

(** [pools.reduce((s, p) => s + (p.priceInZig || 0), 0)] *)
Definition sum_mid (pools : list Pool) : Q :=
  foldl (fun s p => s + or_zero (priceInZig p)) 0 pools.

(** [defaultAmount]: the amount of a 100 dollar trade. *)
Definition defaultAmount (side : Side) (zigUsd : Q) (pools : list Pool) : Q :=
  let targetUsd := 100 in
  let zigAmt := targetUsd / Num.max zigUsd 1e-9 in
  match side with
  | SideBuy => zigAmt
  | SideSell =>
      let avgMid :=
        match pools with
        | [] => 1
        | _ => sum_mid pools / inject_Z (Z.of_nat (length pools))
        end in
      zigAmt / Num.max avgMid 1e-12
  end.

(** [{ ...pick, amtUsed }] *)
Record BestPool : Type := mkBestPool { b_pick : Cand; amtUsed : Q }.

(** [bestSellPool] on the pools loaded for the token.  [amountIn] is the
    amount asked for when [Number.isFinite] holds of it, and [None] when
    it does not (no amount, [NaN], an infinity): the test
    [Number.isFinite(amountIn) ? Number(amountIn) : defaultAmount(...)]
    is the case distinction on it. *)
Definition bestSellPool (loaded : list Pool) (amountIn : option Q) (minTvlZig zigUsd : Q)
  : option BestPool :=
  let pools := List.filter (fun p => Num.leb minTvlZig (tvlZig p)) loaded in
  match pools with
  | [] => None
  | _ =>
      let amt :=
        match amountIn with
        | Some a => a
        | None => defaultAmount SideSell zigUsd pools
        end in
      match pickBySimulation pools false amt with
      | None => None
      | Some pick => Some (mkBestPool pick amt)
      end
  end.

(** [bestBuyPool] of the swap service. *)
Definition bestBuyPool (loaded : list Pool) (amountIn : option Q) (minTvlZig zigUsd : Q)
  : option BestPool :=
  let pools := List.filter (fun p => Num.leb minTvlZig (tvlZig p)) loaded in
  match pools with
  | [] => None
  | _ =>
      let amt :=
        match amountIn with
        | Some a => a
        | None => defaultAmount SideBuy zigUsd pools
        end in
      match pickBySimulation pools true amt with
      | None => None
      | Some pick => Some (mkBestPool pick amt)
      end
  end.

End PoolSelection.

(** ** The bucketing query of the OHLCV aggregator

    The query that [ohlcvAdvanced] and [ohlcvUzigFromUsdc] run over the
    1-minute bars of one pool, and the seed query before it. *)

(** A 1-minute bar: its pool, its start (an instant, in microseconds) and
    its columns. *)
Record Candle1m : Type := mkCandle1m {
  s_pool : Z;
  s_start : Z;
  s_open : Q;
  s_high : Q;
  s_low : Q;
  s_close : Q;
  s_volume : Q;
  s_trades : Q
}.

Section BucketQuery.

#[local] Open Scope Q_scope.

Variable stepSec : Z.

(** [floor(extract(epoch from bucket_start) / $4) * $4] *)
Definition tagSec (us : Z) : Z :=
  (Qfloor (inject_Z us / 1000000 / inject_Z stepSec) * stepSec)%Z.

(** The CTE [src] for one pool: [bucket_start >= from AND bucket_start < to],
    the two bounds being dates in epoch milliseconds. *)
Definition src_of_pool (table : list Candle1m) (pool fromMs toMs : Z) : list Candle1m :=
  List.filter
    (fun o => (s_pool o =? pool)%Z
              && (fromMs * 1000 <=? s_start o)%Z && (s_start o <? toMs * 1000)%Z)
    table.

(** The bars of [src] tagged [k]. *)
Definition group_of (src : list Candle1m) (k : Z) : list Candle1m :=
  List.filter (fun o => (tagSec (s_start o) =? k)%Z) src.

(** Insertion in a list of distinct keys in ascending order. *)
Fixpoint insert_key (k : Z) (l : list Z) : list Z :=
  match l with
  | [] => [k]
  | x :: r =>
      if (k <? x)%Z then k :: l
      else if (k =? x)%Z then l
      else x :: insert_key k r
  end.

(** [GROUP BY bucket_ts ... ORDER BY ts_sec ASC]: the distinct tags,
    ascending. *)
Definition group_keys (src : list Candle1m) : list Z :=
  foldr (fun o acc => insert_key (tagSec (s_start o)) acc) [] src.

(** [MIN(low)], [MAX(high)] and [SUM] over a group. *)
Definition min_low (g : list Candle1m) : Q :=
  match g with
  | [] => 0
  | o :: r => foldl (fun m x => Num.min m (s_low x)) (s_low o) r
  end.

Definition max_high (g : list Candle1m) : Q :=
  match g with
  | [] => 0
  | o :: r => foldl (fun m x => Num.max m (s_high x)) (s_high o) r
  end.

Definition sum_of (f : Candle1m -> Q) (g : list Candle1m) : Q :=
  foldl (fun s x => s + f x) 0 g.

(** [DISTINCT ON (bucket_ts) ... ORDER BY bucket_ts, bucket_start ASC]
    and [... DESC]: the earliest and the latest bar of a group. *)
Definition first_bar (g : list Candle1m) : option Candle1m :=
  Sql.first_by (fun a b => (s_start a <? s_start b)%Z) g.

Definition last_bar (g : list Candle1m) : option Candle1m :=
  Sql.first_by (fun a b => (s_start b <? s_start a)%Z) g.

(** One row of the result, as [bySec] stores it. *)
Definition bucket_row (src : list Candle1m) (k : Z) : Row :=
  let g := group_of src k in
  mkRow k
        (match first_bar g with Some o => s_open o | None => 0 end)
        (max_high g) (min_low g)
        (match last_bar g with Some o => s_close o | None => 0 end)
        (sum_of s_volume g) (sum_of s_trades g).

(** The rows of the bucketing query over [src]. *)
Definition bucket_query (src : list Candle1m) : list Row :=
  List.map (bucket_row src) (group_keys src).

(** The seed query: the close of the latest bar of the pool that starts
    before the range. *)
Definition seed_query (table : list Candle1m) (pool fromMs : Z) : option Q :=
  match Sql.first_by (fun a b => (s_start b <? s_start a)%Z)
          (List.filter (fun o => (s_pool o =? pool)%Z && (s_start o <? fromMs * 1000)%Z)
             table) with
  | Some o => Some (s_close o)
  | None => None
  end.

End BucketQuery.

(** The series of a pool: the seed query, the bucketing query and the
    bucket loop. *)
Definition ohlcv_of_pool (fill : Fill) (table : list Candle1m) (pool fromMs toMs stepSec : Z)
  : option (list Bar) :=
  ohlcv_series fill (seed_query table pool fromMs)
    (bucket_query stepSec (src_of_pool table pool fromMs toMs)) fromMs toMs stepSec.

(** [convert] of [ohlcvAdvanced]: market-cap scaling, then the unit
    factor. *)
Definition zigUsdFactor (unitIsUsd : bool) (zigUsd : Q) : Q :=
  let useUsdTable := unitIsUsd in
  if unitIsUsd then (if useUsdTable then 1%Q else zigUsd) else 1%Q.

Definition convertBar (modeIsMcap : bool) (circ : option Q) (factor : Q) (b : Bar) : Bar :=
  let scaled :=
    match (if modeIsMcap then circ else None) with
    | Some c =>
        mkBar (ts_sec b) (open b * c)%Q (high b * c)%Q (low b * c)%Q (close b * c)%Q
              (volume b) (trades b)
    | None => b
    end in
  mkBar (ts_sec scaled) (open scaled * factor)%Q (high scaled * factor)%Q
        (low scaled * factor)%Q (close scaled * factor)%Q (volume scaled * factor)%Q
        (trades scaled).

(** The sum of a list of numbers. *)
Definition Qsum (l : list Q) : Q := foldr Qplus 0%Q l.

(** The bucket [t] has a row. *)
Definition has_row (bySec : gmap Z Row) (t : Z) : bool :=
  match bySec !! t with
  | Some _ => true
  | None => false
  end.

(** A 1-minute bar whose open and close lie between its low and its
    high. *)
Definition candle_ok (o : Candle1m) : Prop :=
  (s_low o <= s_open o)%Q /\ (s_open o <= s_high o)%Q
  /\ (s_low o <= s_close o)%Q /\ (s_close o <= s_high o)%Q.

(** The volume and the trade count of the row of bucket [t], 0 without a
    row. *)
Definition volume_at (bySec : gmap Z Row) (t : Z) : Q :=
  match bySec !! t with
  | Some r => r_volume r
  | None => 0%Q
  end.

Definition trades_at (bySec : gmap Z Row) (t : Z) : Q :=
  match bySec !! t with
  | Some r => r_trades r
  | None => 0%Q
  end.

(** ** Timeframes ([tfToSec] of TokensService) *)

(** What [tfToSec] returns: a number of seconds, [Infinity] when the
    count overflows [Number], or, for a timeframe that names a member every
    object inherits, that member. *)
Inductive TfValue : Type :=
| TfSec (n : Z)
| TfInfinity
| TfInherited (key : string).

Section Timeframes.

#[local] Open Scope string_scope.

(** The object literal [map]. *)
Definition tf_map : list (string * Z) :=
  [("1m", 60); ("5m", 300); ("15m", 900); ("30m", 1800);
   ("1h", 3600); ("2h", 7200); ("4h", 14400); ("8h", 28800); ("12h", 43200);
   ("1d", 86400); ("3d", 259200); ("5d", 432000); ("1w", 604800);
   ("1M", 2592000); ("3M", 7776000)].

(** The members an object literal inherits from [Object.prototype]. *)
Definition object_prototype_keys : list string :=
  ["constructor"; "__proto__"; "hasOwnProperty"; "isPrototypeOf";
   "propertyIsEnumerable"; "toLocaleString"; "toString"; "valueOf";
   "__defineGetter__"; "__defineSetter__"; "__lookupGetter__"; "__lookupSetter__"].

(** An own property of an object literal. *)
Fixpoint own_property {V : Type} (obj : list (string * V)) (k : string) : option V :=
  match obj with
  | [] => None
  | (k', v) :: r => if String.eqb k' k then Some v else own_property r k
  end.

(** The object literal [unit]. *)
Definition tf_unit : list (string * Z) :=
  [("m", 60); ("h", 3600); ("d", 86400); ("w", 604800); ("M", 2592000)].

(** What is left of [s] after its leading digits. *)
Fixpoint skip_digits (s : string) : string :=
  match s with
  | String c r => if Str.is_digit c then skip_digits r else s
  | EmptyString => EmptyString
  end.

(** [[mhdwM]] *)
Definition is_tf_unit (c : ascii) : bool :=
  existsb (Ascii.eqb c) ["m"%char; "h"%char; "d"%char; "w"%char; "M"%char].

(** [/^(\d+)([mhdwM])$/.exec(s)]: the two groups. *)
Definition exec_tf (s : string) : option (string * ascii) :=
  match Str.take_digits s, skip_digits s with
  | String d ds, String u EmptyString =>
      if is_tf_unit u then Some (String d ds, u) else None
  | _, _ => None
  end.

Definition tfToSec (tf : option string) : TfValue :=
  let from_pattern (s : string) : TfValue :=
    match exec_tf s with
    | None => TfSec 60
    | Some (ds, u) =>
        let per :=
          match own_property tf_unit (String u EmptyString) with
          | Some n => if (n =? 0)%Z then 60%Z else n
          | None => 60%Z
          end in
        if (Str.decimal_value ds <? Str.Number_overflow)%Z
        then TfSec (Str.decimal_value ds * per)
        else TfInfinity
    end in
  match tf with
  | None => from_pattern EmptyString
  | Some EmptyString => from_pattern EmptyString
  | Some s =>
      match own_property tf_map s with
      | Some n => if (n =? 0)%Z then from_pattern s else TfSec n
      | None =>
          if existsb (String.eqb s) object_prototype_keys then TfInherited s
          else from_pattern s
      end
  end.

End Timeframes.

(** ** Native-currency references ([isUzigRef] of SwapService) *)

Section UzigRef.

#[local] Open Scope string_scope.

Definition UZIG_ALIASES : list string := ["uzig"; "zig"; "uzig"; "uZIG"; "UZIG"].

(** White space that [trim] removes, among 8-bit characters. *)
Definition is_space (c : ascii) : bool :=
  let n := N_of_ascii c in
  ((9 <=? n) && (n <=? 13) || (n =? 32) || (n =? 160))%N.

Fixpoint trim_start (s : string) : string :=
  match s with
  | String c r => if is_space c then trim_start r else s
  | EmptyString => EmptyString
  end.

(** [s] without the white space at its end. *)
Fixpoint trim_end (s : string) : string :=
  match s with
  | EmptyString => EmptyString
  | String c r =>
      match trim_end r with
      | EmptyString => if is_space c then EmptyString else String c EmptyString
      | r' => String c r'
      end
  end.

Definition trim (s : string) : string := trim_end (trim_start s).

Definition isUzigRef (s : option string) : bool :=
  negb (Str.falsy s)
  && match s with
     | Some v => existsb (String.eqb (Str.toLowerCase (trim v))) UZIG_ALIASES
     | None => false
     end.

End UzigRef.

(** What [resolveRef] returns. *)
Inductive Ref : Type :=
| RefUzig
| RefToken (token : Token).

Definition resolveRef (tokens : list Token) (ref : option string) : option Ref :=
  if isUzigRef ref then Some RefUzig
  else
    match SwapService.resolveTokenId tokens
            (match ref with Some s => s | None => EmptyString end) with
    | None => None
    | Some tok => Some (RefToken tok)
    end.

(** ** Worth of a trade in SQL ([buildWorthPagedSQL] of TradesService) *)

Section WorthSQL.

#[local] Open Scope Q_scope.

(** [amount / POWER(10, COALESCE(exp, 6))], null on a null amount. *)
Definition sql_scaled (amount : option Q) (exp : option Z) : option Q :=
  match amount with
  | None => None
  | Some a => Some (a / Qpower 10 (match exp with Some e => e | None => 6%Z end))
  end.

(** SQL [a * b] on nullable numbers. *)
Definition sql_mul (a b : option Q) : option Q :=
  match a, b with
  | Some x, Some y => Some (x * y)
  | _, _ => None
  end.

(** SQL [COALESCE(a, b)]. *)
Definition coalesce {A : Type} (a b : option A) : option A :=
  match a with Some _ => a | None => b end.

(** The expression [worthZig]. *)
Definition worthZig (r : TradeRow) : option Q :=
  let leg :=
    if denom_is_uzig (offer_asset_denom r)
    then sql_scaled (offer_amount_base r) (offer_exp r)
    else if denom_is_uzig (ask_asset_denom r)
    then sql_scaled (ask_amount_base r) (ask_exp r)
    else None in
  let quoteLeg :=
    if is_dir r Buy then sql_scaled (offer_amount_base r) (qexp r)
    else sql_scaled (return_amount_base r) (qexp r) in
  coalesce leg
    (if is_uzig_quote r then quoteLeg else sql_mul quoteLeg (pq_price_in_zig r)).

(** The expression [worthUsd]; [zigUsd] is the parameter the caller fills
    in. *)
Definition worthUsd (r : TradeRow) (zigUsd : Q) : option Q :=
  sql_mul (worthZig r) (coalesce (fx_zig_usd r) (Some zigUsd)).

Definition worth_sql (unit : Unit_) (r : TradeRow) (zigUsd : Q) : option Q :=
  match unit with
  | UnitZig => worthZig r
  | UnitUsd => worthUsd r zigUsd
  end.

(** The filter pushed for a class; a null worth satisfies none. *)
Definition class_filter (k : Class) (unit : Unit_) (r : TradeRow) (zigUsd : Q) : bool :=
  match worth_sql unit r zigUsd with
  | None => false
  | Some w =>
      match k with
      | shrimp => Num.ltb w 1000
      | shark => Num.leb 1000 w && Num.leb w 10000
      | whale => Num.gtb w 10000
      end
  end.

End WorthSQL.

(** ** Paging (TradesService) *)

Section Paging.

(** [parseLimit] on [Number(q)], [None] standing for [NaN]. *)
Definition parseLimit (q : option Q) : Z :=
  match q with
  | Some n =>
      if Qeq_bool n 100 then 100
      else if Qeq_bool n 500 then 500
      else if Qeq_bool n 1000 then 1000
      else 100
  | None => 100
  end.

(** [parsePage] on [Number(q)]. *)
Definition parsePage (q : option Q) : Z :=
  match q with
  | Some n => if Num.leb 1 n then Qfloor n else 1
  | None => 1
  end.

(** [(page - 1) * limit] *)
Definition offset (page limit : Z) : Z := (page - 1) * limit.

(** [Math.max(1, Math.ceil(total / limit))] *)
Definition pages (total limit : Z) : Z :=
  Z.max 1 (Qceiling (inject_Z total / inject_Z limit)).

(** [LIMIT limit OFFSET offset] on the ordered rows. *)
Definition page_rows {A : Type} (ranked : list A) (page limit : Z) : list A :=
  take (Z.to_nat limit) (drop (Z.to_nat (offset page limit)) ranked).

End Paging.

(** ** Routes (SwapService) *)

(** The block [makePairBlock] builds for one leg. *)
Record PairBlock : Type := mkPairBlock {
  pb_pool : Pool;
  pb_side : Side;
  price_native_exec : option Flt.t;
  price_usd_exec : option Flt.t;
  price_native_mid : Q;
  price_usd_mid : Q;
  amount_in : option Q;
  amount_out : option Flt.t;
  price_impact : option Flt.t;
  pb_fee : Q
}.

Inductive RouteSource : Type := direct_uzig | via_uzig.

(** The [data] of a route, without its list of labels. *)
Record RouteData : Type := mkRouteData {
  pairs : list PairBlock;
  rd_price_native : option Flt.t;
  rd_price_usd : option Flt.t;
  zig_per_from : option Flt.t;
  usd_per_from : option Q;
  from_usd : option Q;
  to_usd : option Q;
  source : RouteSource
}.

Inductive RouteResult : Type :=
| RouteError (error : string)
| RouteOk (data : RouteData).

Section Routes.

#[local] Open Scope Q_scope.

Definition makePairBlock (side : Side) (pool : Pool) (sim : option SimResult)
  (fee zigUsd : Q) (amountIn : option Q) : PairBlock :=
  let price_native_exec := match sim with Some s => Some (price s) | None => None end in
  let price_usd_exec :=
    match price_native_exec with
    | Some p => Some (Flt.mul p (Flt.Fin zigUsd))
    | None => None
    end in
  let price_native_mid := priceInZig pool in
  let price_usd_mid := price_native_mid * zigUsd in
  mkPairBlock pool side price_native_exec price_usd_exec price_native_mid price_usd_mid
    amountIn
    (match sim with Some s => Some (out s) | None => None end)
    (match sim with Some s => Some (impact s) | None => None end)
    fee.

(** The block of a picked pool, as [route] asks for it. *)
Definition block_of (side : Side) (b : BestPool) (zigUsd : Q) : PairBlock :=
  makePairBlock side (c_pool (b_pick b)) (c_sim (b_pick b)) (c_fee (b_pick b)) zigUsd
    (Some (amtUsed b)).

(** The tables [route] reads. *)
Variable tokens : list Token.
(** [loadUzigPoolsForToken] before its filter on the locked value. *)
Variable pools_of : Z -> list Pool.
(** [zigUsd()] *)
Variable zigUsd : Q.

(** [route] on a query; [amt] is the amount of the query when it is a
    finite number and [None] otherwise, [minTvlZig] is [0] when the query
    gives none.  In a route through the native currency the second leg is
    asked for the amount the first leg gives, [zigOut], which
    [bestBuyPool] takes only when it is finite. *)
Definition route (from to : option string) (amt : option Q) (minTvlZig : Q)
  : RouteResult :=
  if Str.falsy from || Str.falsy to then RouteError "missing from/to"
  else
    match resolveRef tokens from, resolveRef tokens to with
    | None, _ => RouteError "from token not found"
    | Some _, None => RouteError "to token not found"
    | Some RefUzig, Some (RefToken tokTo) =>
        match bestBuyPool (pools_of (token_id tokTo)) amt minTvlZig zigUsd with
        | None =>
            RouteOk (mkRouteData [] None None (Some Flt.one) (Some zigUsd)
                       (Some zigUsd) None direct_uzig)
        | Some buy =>
            let pairBlock := block_of SideBuy buy zigUsd in
            RouteOk (mkRouteData [pairBlock]
                       (price_native_exec pairBlock) (price_usd_exec pairBlock)
                       (Some Flt.one) (Some zigUsd)
                       (Some zigUsd) (Some (price_native_mid pairBlock * zigUsd))
                       direct_uzig)
        end
    | Some (RefToken tokFrom), Some RefUzig =>
        match bestSellPool (pools_of (token_id tokFrom)) amt minTvlZig zigUsd with
        | None =>
            RouteOk (mkRouteData [] None None None None None (Some zigUsd) direct_uzig)
        | Some sell =>
            let pairBlock := block_of SideSell sell zigUsd in
            let price_native := price_native_exec pairBlock in
            let from_usd := priceInZig (c_pool (b_pick sell)) * zigUsd in
            RouteOk (mkRouteData [pairBlock]
                       price_native
                       (match price_native with
                        | Some p => Some (Flt.mul p (Flt.Fin zigUsd))
                        | None => None
                        end)
                       price_native (Some from_usd)
                       (Some from_usd) (Some zigUsd)
                       direct_uzig)
        end
    | Some (RefToken tokFrom), Some (RefToken tokTo) =>
        let sellA := bestSellPool (pools_of (token_id tokFrom)) amt minTvlZig zigUsd in
        let zigOut :=
          match sellA with
          | Some a =>
              match c_sim (b_pick a) with Some s => Flt.finite (out s) | None => None end
          | None => None
          end in
        let buyB := bestBuyPool (pools_of (token_id tokTo)) zigOut minTvlZig zigUsd in
        match sellA, buyB with
        | Some a, Some b =>
            let pa := priceInZig (c_pool (b_pick a)) in
            let pb := priceInZig (c_pool (b_pick b)) in
            RouteOk (mkRouteData [block_of SideSell a zigUsd; block_of SideBuy b zigUsd]
                       (Some (Flt.div (Flt.Fin pa) (Flt.max (Flt.Fin pb) (Flt.Fin 1e-18))))
                       None
                       (Some (Flt.Fin pa)) (Some (pa * zigUsd))
                       (Some (pa * zigUsd)) (Some (pb * zigUsd))
                       via_uzig)
        | _, _ =>
            RouteOk (mkRouteData [] None None None None None None via_uzig)
        end
    | Some RefUzig, Some RefUzig => RouteError "unsupported route (check from/to)"
    end.

End Routes.

Section RouteBlocks.

#[local] Open Scope Q_scope.

(** What a block of a route says of its pool: the pool is one of [pools]
    with at least the minimum locked value; the block carries the fee of
    the pool's type and the pool's price; and its amount out, execution
    price and impact are those of the simulation of its [amount_in] on the
    pool's reserves, or null when the pool has no reserves. *)
Definition block_ok (pools : list Pool) (minTvlZig : Q) (blk : PairBlock) : Prop :=
  In (pb_pool blk) pools
  /\ minTvlZig <= tvlZig (pb_pool blk)
  /\ pb_fee blk = pairFee (pairType (pb_pool blk))
  /\ price_native_mid blk = priceInZig (pb_pool blk)
  /\ exists a, amount_in blk = Some a
       /\ if hasRes (pb_pool blk)
          then
            let sim :=
              simulateXYK (match pb_side blk with SideBuy => true | SideSell => false end)
                (Flt.Fin a) (Flt.Fin (zigReserve (pb_pool blk)))
                (Flt.Fin (tokenReserve (pb_pool blk))) (Flt.Fin (pb_fee blk)) in
            amount_out blk = Some (out sim)
            /\ price_native_exec blk = Some (price sim)
            /\ price_impact blk = Some (impact sim)
          else
            amount_out blk = None /\ price_native_exec blk = None
            /\ price_usd_exec blk = None /\ price_impact blk = None.

End RouteBlocks.

(** * Properties *)

(** ** Facts about the number operations *)

Module NumFacts.

#[local] Open Scope Q_scope.

Lemma gtb_true a b : Num.gtb a b = true <-> b < a.
Proof.
  unfold Num.gtb. rewrite negb_true_iff, <- not_true_iff_false, Qle_bool_iff.
  split; [apply Qnot_le_lt | apply Qlt_not_le].
Qed.

Lemma gtb_false a b : Num.gtb a b = false <-> a <= b.
Proof. unfold Num.gtb. rewrite negb_false_iff. apply Qle_bool_iff. Qed.

Lemma ltb_true a b : Num.ltb a b = true <-> a < b.
Proof. apply gtb_true. Qed.

Lemma ltb_false a b : Num.ltb a b = false <-> b <= a.
Proof. apply gtb_false. Qed.

Lemma leb_true a b : Num.leb a b = true <-> a <= b.
Proof. apply Qle_bool_iff. Qed.

Lemma leb_false a b : Num.leb a b = false <-> b < a.
Proof.
  unfold Num.leb. rewrite <- not_true_iff_false, Qle_bool_iff.
  split; [apply Qnot_le_lt | apply Qlt_not_le].
Qed.

Lemma max_cases a b :
  (a <= b /\ Num.max a b = b) \/ (b < a /\ Num.max a b = a).
Proof.
  unfold Num.max. destruct (Qle_bool a b) eqn:E.
  - left. split; [now apply Qle_bool_iff | reflexivity].
  - right. split; [|reflexivity]. now apply leb_false.
Qed.

Lemma min_cases a b :
  (a <= b /\ Num.min a b = a) \/ (b < a /\ Num.min a b = b).
Proof.
  unfold Num.min. destruct (Qle_bool a b) eqn:E.
  - left. split; [now apply Qle_bool_iff | reflexivity].
  - right. split; [|reflexivity]. now apply leb_false.
Qed.

Lemma max_ge_l a b : a <= Num.max a b.
Proof. destruct (max_cases a b) as [[H ->]|[H ->]]; lra. Qed.

Lemma max_ge_r a b : b <= Num.max a b.
Proof. destruct (max_cases a b) as [[H ->]|[H ->]]; lra. Qed.

Lemma min_le_l a b : Num.min a b <= a.
Proof. destruct (min_cases a b) as [[H ->]|[H ->]]; lra. Qed.

Lemma min_le_r a b : Num.min a b <= b.
Proof. destruct (min_cases a b) as [[H ->]|[H ->]]; lra. Qed.

Lemma tiny_pos : 0 < Num.tiny.
Proof. reflexivity. Qed.

Lemma falsy_true a : Num.falsy a = true <-> a == 0.
Proof. apply Qeq_bool_iff. Qed.

Lemma falsy_false a : Num.falsy a = false <-> ~ a == 0.
Proof.
  unfold Num.falsy. rewrite <- not_true_iff_false, Qeq_bool_iff. reflexivity.
Qed.

End NumFacts.

(** ** The swap simulator *)

Module FltFacts.

#[local] Open Scope Q_scope.

Lemma small_pos : 0 < Flt.small.
Proof. reflexivity. Qed.

Lemma small_lt_tiny : Flt.small < Num.tiny.
Proof. vm_compute. reflexivity. Qed.

Lemma tiny_lt_1 : Num.tiny < 1.
Proof. reflexivity. Qed.

Lemma huge_gt_1 : 1 < Flt.huge.
Proof. vm_compute. reflexivity. Qed.

Lemma overflow_cases (q : Q) :
  (Flt.huge <= q /\ Flt.overflow q = Flt.PInf)
  \/ (q <= - Flt.huge /\ Flt.overflow q = Flt.NInf)
  \/ (- Flt.huge < q /\ q < Flt.huge /\ Flt.overflow q = Flt.Fin q).
Proof.
  unfold Flt.overflow.
  destruct (Qle_bool Flt.huge q) eqn:E1.
  - left. split; [apply Qle_bool_iff; exact E1 | reflexivity].
  - apply NumFacts.leb_false in E1.
    destruct (Qle_bool q (- Flt.huge)) eqn:E2.
    + right. left. split; [apply Qle_bool_iff; exact E2 | reflexivity].
    + apply NumFacts.leb_false in E2. right. right. auto.
Qed.

Lemma overflow_fin (q : Q) :
  - Flt.huge < q -> q < Flt.huge -> Flt.overflow q = Flt.Fin q.
Proof.
  intros H1 H2. destruct (overflow_cases q) as [[H _] | [[H _] | (_ & _ & E)]];
    [lra | lra | exact E].
Qed.

Lemma round_cases (q : Q) :
  (Qabs q <= Flt.small /\ Flt.round q = Flt.Fin 0)
  \/ (Flt.small < Qabs q /\ Flt.round q = Flt.overflow q).
Proof.
  unfold Flt.round. destruct (Qle_bool (Qabs q) Flt.small) eqn:E.
  - left. split; [apply Qle_bool_iff; exact E | reflexivity].
  - right. split; [apply NumFacts.leb_false; exact E | reflexivity].
Qed.

(** A non-negative product or quotient: it underflows, is kept, or
    overflows. *)
Lemma round_nonneg (q : Q) :
  0 <= q ->
  (q <= Flt.small /\ Flt.round q = Flt.Fin 0)
  \/ (Flt.small < q /\ q < Flt.huge /\ Flt.round q = Flt.Fin q)
  \/ (Flt.huge <= q /\ Flt.round q = Flt.PInf).
Proof.
  intros H0. pose proof (Qabs_pos q H0) as Ha.
  pose proof small_pos as Hs. pose proof huge_gt_1 as Hh.
  destruct (round_cases q) as [[H E] | [H E]].
  - left. split; [lra | exact E].
  - right. rewrite E.
    destruct (overflow_cases q) as [[H1 E1] | [[H1 _] | (_ & H1 & E1)]].
    + right. auto.
    + lra.
    + left. split; [lra | auto].
Qed.

Lemma fits_spec (q : Q) :
  Flt.fits q = true <-> Flt.small < Qabs q /\ Qabs q < Flt.huge.
Proof.
  unfold Flt.fits. rewrite andb_true_iff, !negb_true_iff.
  rewrite <- !(NumFacts.leb_false). reflexivity.
Qed.

Lemma fits_pos (q : Q) :
  0 < q -> (Flt.fits q = true <-> Flt.small < q /\ q < Flt.huge).
Proof.
  intro H. rewrite fits_spec, Qabs_pos by lra. reflexivity.
Qed.

Lemma round_fits (q : Q) : Flt.fits q = true -> Flt.round q = Flt.Fin q.
Proof.
  intro H. apply fits_spec in H as [H1 H2].
  destruct (round_cases q) as [[H _] | [_ E]]; [lra|].
  rewrite E. apply overflow_fin.
  - destruct (Qabs_Qle_condition q (Qabs q)) as [Hc _].
    specialize (Hc (Qle_refl _)). lra.
  - pose proof (Qle_Qabs q). lra.
Qed.

Lemma overflow_fits (q : Q) : Flt.fits q = true -> Flt.overflow q = Flt.Fin q.
Proof.
  intro H. apply fits_spec in H as [H1 H2].
  apply overflow_fin.
  - destruct (Qabs_Qle_condition q (Qabs q)) as [Hc _].
    specialize (Hc (Qle_refl _)). lra.
  - pose proof (Qle_Qabs q). lra.
Qed.

Lemma mul_fits (a b : Q) :
  Flt.fits (a * b) = true -> Flt.mul (Flt.Fin a) (Flt.Fin b) = Flt.Fin (a * b).
Proof. apply round_fits. Qed.

Lemma add_fits (a b : Q) :
  Flt.fits (a + b) = true -> Flt.add (Flt.Fin a) (Flt.Fin b) = Flt.Fin (a + b).
Proof. apply overflow_fits. Qed.

Lemma div_fits (a b : Q) :
  Flt.fits (a / b) = true -> Flt.div (Flt.Fin a) (Flt.Fin b) = Flt.Fin (a / b).
Proof.
  intro H. cbn [Flt.div]. destruct (Qeq_bool b 0) eqn:E.
  - exfalso. apply Qeq_bool_iff in E. apply fits_spec in H as [H _].
    assert (Hz : a / b == 0) by (rewrite E; unfold Qdiv; rewrite Qmult_comm; reflexivity).
    rewrite Hz in H. change (Qabs 0) with 0 in H. pose proof small_pos. lra.
  - apply round_fits. exact H.
Qed.

Lemma gtb_fin (a b : Q) : Flt.gtb (Flt.Fin a) (Flt.Fin b) = Num.gtb a b.
Proof. reflexivity. Qed.

Ltac flt_order :=
  cbn [Flt.gtb Flt.geb Flt.leb Flt.zero]; intros;
  try reflexivity; try discriminate;
  repeat match goal with
         | H : Num.gtb _ _ = true |- _ => apply NumFacts.gtb_true in H
         | H : Num.gtb _ _ = false |- _ => apply NumFacts.gtb_false in H
         | H : Num.leb _ _ = true |- _ => apply NumFacts.leb_true in H
         | H : Num.leb _ _ = false |- _ => apply NumFacts.leb_false in H
         end;
  try match goal with
      | |- Num.gtb _ _ = true => apply NumFacts.gtb_true
      | |- Num.gtb _ _ = false => apply NumFacts.gtb_false
      | |- Num.leb _ _ = true => apply NumFacts.leb_true
      | |- Num.leb _ _ = false => apply NumFacts.leb_false
      end;
  try lra.

Lemma gtb_irrefl (x : Flt.t) : Flt.gtb x x = false.
Proof. destruct x; flt_order. Qed.

Lemma geb_false_gtb (t b : Flt.t) : Flt.geb t b = false -> Flt.gtb t b = false.
Proof. destruct t, b; flt_order. Qed.

(** A score that did not beat [b] does not reach a score that did. *)
Lemma gtb_chain (t x b : Flt.t) :
  Flt.gtb t b = false -> Flt.gtb x b = true -> Flt.geb t x = false.
Proof. destruct t, x, b; flt_order. Qed.

Lemma gtb_geb_flip (x b : Flt.t) : Flt.gtb x b = true -> Flt.geb b x = false.
Proof. destruct x, b; flt_order. Qed.

(** What no positive score beats is not zero or below. *)
Lemma gtb_pos_keeps (q b : Flt.t) :
  Flt.gtb q Flt.zero = true -> Flt.gtb q b = false -> Flt.leb b Flt.zero = false.
Proof. destruct q, b; flt_order. Qed.

Lemma geb_fin_false (a b : Q) : Flt.geb (Flt.Fin a) (Flt.Fin b) = false <-> a < b.
Proof. cbn [Flt.geb Flt.leb]. apply NumFacts.leb_false. Qed.

Lemma gtb_fin_false (a b : Q) : Flt.gtb (Flt.Fin a) (Flt.Fin b) = false <-> a <= b.
Proof. cbn [Flt.gtb]. apply NumFacts.gtb_false. Qed.

End FltFacts.

Section SimulatorFacts.

#[local] Open Scope Q_scope.

Lemma mul_nonneg_cases (a b : Q) :
  0 <= a * b ->
  (a * b <= Flt.small /\ Flt.mul (Flt.Fin a) (Flt.Fin b) = Flt.Fin 0)
  \/ (Flt.small < a * b /\ a * b < Flt.huge
      /\ Flt.mul (Flt.Fin a) (Flt.Fin b) = Flt.Fin (a * b))
  \/ (Flt.huge <= a * b /\ Flt.mul (Flt.Fin a) (Flt.Fin b) = Flt.PInf).
Proof. apply FltFacts.round_nonneg. Qed.

Lemma div_pos_cases (a b : Q) :
  0 <= a -> 0 < b ->
  (a / b <= Flt.small /\ Flt.div (Flt.Fin a) (Flt.Fin b) = Flt.Fin 0)
  \/ (Flt.small < a / b /\ a / b < Flt.huge
      /\ Flt.div (Flt.Fin a) (Flt.Fin b) = Flt.Fin (a / b))
  \/ (Flt.huge <= a / b /\ Flt.div (Flt.Fin a) (Flt.Fin b) = Flt.PInf).
Proof.
  intros Ha Hb. cbn [Flt.div].
  assert (E : Qeq_bool b 0 = false).
  { apply not_true_is_false. intro E. apply Qeq_bool_iff in E. lra. }
  rewrite E. apply FltFacts.round_nonneg.
  apply Qle_shift_div_l; lra.
Qed.

Lemma add_pos_cases (a b : Q) :
  0 < a + b ->
  (Flt.huge <= a + b /\ Flt.add (Flt.Fin a) (Flt.Fin b) = Flt.PInf)
  \/ (a + b < Flt.huge /\ Flt.add (Flt.Fin a) (Flt.Fin b) = Flt.Fin (a + b)).
Proof.
  intro H. cbn [Flt.add]. pose proof FltFacts.huge_gt_1.
  destruct (FltFacts.overflow_cases (a + b)) as [[H1 E] | [[H1 _] | (_ & H1 & E)]];
    [left; auto | lra | right; auto].
Qed.

Lemma sub_one_fee (fee : Q) :
  0 <= fee -> fee < 1 -> Flt.sub Flt.one (Flt.Fin fee) = Flt.Fin (1 - fee).
Proof.
  intros H0 H1. cbn [Flt.sub Flt.one]. pose proof FltFacts.huge_gt_1.
  apply FltFacts.overflow_fin; lra.
Qed.

Lemma xyk_out_le (x R S : Q) : 0 < x -> 0 < R -> 0 < S -> (x * R) / (S + x) <= R.
Proof.
  intros Hx HR HS. apply Qle_shift_div_r; [lra|]. nra.
Qed.

(** The amount paid out: within the reserve when the product of the net
    input and the reserve does not overflow, infinite or undefined when it
    does. *)
Lemma xyk_out_cases (a fee R S : Q) :
  0 < R -> R < Flt.huge -> 0 < S -> 0 < a -> a < Flt.huge -> 0 <= fee -> fee < 1 ->
  let xin := Flt.mul (Flt.Fin a) (Flt.sub Flt.one (Flt.Fin fee)) in
  let o := Flt.div (Flt.mul xin (Flt.Fin R)) (Flt.add (Flt.Fin S) xin) in
  (a * (1 - fee) * R < Flt.huge -> exists v, o = Flt.Fin v /\ 0 <= v /\ v <= R)
  /\ (Flt.huge <= a * (1 - fee) * R -> o = Flt.PInf \/ o = Flt.NaN).
Proof.
  intros HR HRh HS Ha Hah Hf0 Hf1. cbv zeta.
  rewrite (sub_one_fee fee Hf0 Hf1).
  pose proof FltFacts.small_pos as Hsp. pose proof FltFacts.huge_gt_1 as Hh1.
  pose proof FltFacts.small_lt_tiny as Hst. pose proof FltFacts.tiny_lt_1 as Ht1.
  set (x := a * (1 - fee)).
  assert (Hx0 : 0 < x) by (unfold x; nra).
  assert (Hxa : x <= a) by (unfold x; nra).
  assert (Hzero : forall s : Flt.t,
             s = Flt.PInf \/ (exists q, 0 < q /\ s = Flt.Fin q) ->
             Flt.div (Flt.Fin 0) s = Flt.Fin 0).
  { intros s [-> | (q & Hq & ->)]; [reflexivity|].
    destruct (div_pos_cases 0 q (Qle_refl 0) Hq) as [[_ E] | [(H & _ & _) | [H _]]];
      [exact E | |].
    - exfalso. assert (E0 : 0 / q == 0) by (field; lra). lra.
    - exfalso. assert (E0 : 0 / q == 0) by (field; lra). lra. }
  assert (Hsum : forall y : Q, 0 <= y ->
             Flt.add (Flt.Fin S) (Flt.Fin y) = Flt.PInf
             \/ Flt.add (Flt.Fin S) (Flt.Fin y) = Flt.Fin (S + y)).
  { intros y Hy. destruct (add_pos_cases S y) as [[_ E] | [_ E]]; [lra | auto | auto]. }
  destruct (mul_nonneg_cases a (1 - fee)) as [[Hx E] | [(Hx1 & Hx2 & E) | [Hx _]]];
    [fold x; lra | | | fold x in Hx; lra]; fold x in E; rewrite E.
  - (* the net input underflows *)
    assert (Ep : Flt.mul (Flt.Fin 0) (Flt.Fin R) = Flt.Fin 0).
    { destruct (mul_nonneg_cases 0 R) as [[_ E'] | [(H & _) | [H _]]]; [lra | exact E' | lra | lra]. }
    rewrite Ep.
    assert (Eo : Flt.div (Flt.Fin 0) (Flt.add (Flt.Fin S) (Flt.Fin 0)) = Flt.Fin 0).
    { apply Hzero. destruct (Hsum 0 (Qle_refl 0)) as [E' | E']; rewrite E';
        [left; reflexivity | right; exists (S + 0); split; [lra | reflexivity]]. }
    rewrite Eo. fold x in Hx. split.
    + intros _. exists 0. split; [reflexivity|]. split; lra.
    + intros H. exfalso. assert (x * R <= 1 * R) by (apply Qmult_le_compat_r; lra). lra.
  - (* the net input is kept *)
    fold x in Hx1, Hx2.
    destruct (mul_nonneg_cases x R) as [[Hp Ep] | [(Hp1 & Hp2 & Ep) | [Hp Ep]]];
      [nra | | |]; rewrite Ep.
    + assert (Eo : Flt.div (Flt.Fin 0) (Flt.add (Flt.Fin S) (Flt.Fin x)) = Flt.Fin 0).
      { apply Hzero. destruct (Hsum x (Qlt_le_weak _ _ Hx0)) as [E' | E']; rewrite E';
          [left; reflexivity | right; exists (S + x); split; [lra | reflexivity]]. }
      rewrite Eo. split.
      * intros _. exists 0. split; [reflexivity|]. split; lra.
      * intros H. lra.
    + split; [|intros H; lra]. intros _.
      destruct (Hsum x (Qlt_le_weak _ _ Hx0)) as [E' | E']; rewrite E'.
      * exists 0. split; [reflexivity|]. split; lra.
      * pose proof (xyk_out_le x R S Hx0 HR HS) as Hle.
        assert (Hq0 : 0 <= x * R / (S + x)) by (apply Qle_shift_div_l; nra).
        destruct (div_pos_cases (x * R) (S + x)) as [[_ Ed] | [(_ & _ & Ed) | [Hd _]]];
          [nra | lra | | | lra]; rewrite Ed.
        -- exists 0. split; [reflexivity|]. split; lra.
        -- exists (x * R / (S + x)). split; [reflexivity|]. split; assumption.
    + split; [intros H; lra|]. intros _.
      destruct (Hsum x (Qlt_le_weak _ _ Hx0)) as [E' | E']; rewrite E'.
      * right. reflexivity.
      * left. cbn [Flt.div].
        assert (Ez : Qle_bool 0 (S + x) = true) by (apply Qle_bool_iff; lra).
        rewrite Ez. reflexivity.
Qed.

(** The guard of the simulator. *)
Lemma simulateXYK_guard (fromIsZig : bool) (amountIn Rz Rt fee : Flt.t) :
  Flt.gtb Rz Flt.zero = false \/ Flt.gtb Rt Flt.zero = false
  \/ Flt.gtb amountIn Flt.zero = false ->
  simulateXYK fromIsZig amountIn Rz Rt fee = mkSim Flt.zero Flt.zero Flt.zero.
Proof.
  intros H. unfold simulateXYK.
  destruct H as [H | [H | H]]; rewrite H;
    rewrite ?andb_false_r; cbn [negb andb orb]; rewrite ?orb_true_r; reflexivity.
Qed.

(** Past the guard. *)
Lemma simulateXYK_live (a Rz Rt : Q) :
  0 < Rz -> 0 < Rt -> 0 < a ->
  negb (Flt.gtb (Flt.Fin Rz) Flt.zero && Flt.gtb (Flt.Fin Rt) Flt.zero)
  || negb (Flt.gtb (Flt.Fin a) Flt.zero) = false.
Proof.
  intros Hz Ht Ha. cbn [Flt.gtb Flt.zero].
  rewrite (proj2 (NumFacts.gtb_true Rz 0) Hz), (proj2 (NumFacts.gtb_true Rt 0) Ht),
    (proj2 (NumFacts.gtb_true a 0) Ha).
  reflexivity.
Qed.

(** C1, as the code has it.  A reserve or an input that is not positive
    gives the all-zero result.  With positive reserves, a positive input
    and a fee in [0,1), the output is a number between 0 and the reserve
    of the asset paid out as long as the product of the net input and that
    reserve stays below the largest number; when the product overflows the
    output is infinite or not a number. *)
Theorem simulateXYK_zero_guard_and_conservation (fromIsZig : bool) :
  (forall amountIn Rz Rt fee : Flt.t,
     Flt.gtb Rz Flt.zero = false \/ Flt.gtb Rt Flt.zero = false
     \/ Flt.gtb amountIn Flt.zero = false ->
     simulateXYK fromIsZig amountIn Rz Rt fee = mkSim Flt.zero Flt.zero Flt.zero)
  /\ (forall amountIn Rz Rt fee : Q,
        0 < Rz -> Rz < Flt.huge -> 0 < Rt -> Rt < Flt.huge ->
        0 < amountIn -> amountIn < Flt.huge -> 0 <= fee -> fee < 1 ->
        let R := reserveOfOutputAsset fromIsZig Rz Rt in
        let o := out (simulateXYK fromIsZig (Flt.Fin amountIn) (Flt.Fin Rz) (Flt.Fin Rt)
                        (Flt.Fin fee)) in
        (amountIn * (1 - fee) * R < Flt.huge ->
           exists v : Q, o = Flt.Fin v /\ 0 <= v /\ v <= R)
        /\ (Flt.huge <= amountIn * (1 - fee) * R -> o = Flt.PInf \/ o = Flt.NaN)).
Proof.
  split.
  - intros amountIn Rz Rt fee. apply simulateXYK_guard.
  - intros a Rz Rt fee Hz Hzh Ht Hth Ha Hah Hf0 Hf1. cbv zeta.
    unfold simulateXYK. rewrite (simulateXYK_live a Rz Rt Hz Ht Ha).
    destruct fromIsZig; cbn [out reserveOfOutputAsset].
    + exact (xyk_out_cases a fee Rt Rz Ht Hth Hz Ha Hah Hf0 Hf1).
    + exact (xyk_out_cases a fee Rz Rt Hz Hzh Ht Ha Hah Hf0 Hf1).
Qed.

Lemma simulateXYK_zero_guard_and_conservation_witness :
  simulateXYK true (Flt.Fin 500) (Flt.Fin 0) (Flt.Fin 50000) (Flt.Fin 0.003)
  = mkSim Flt.zero Flt.zero Flt.zero
  /\ (exists v : Q,
        out (simulateXYK true (Flt.Fin 500) (Flt.Fin 10000) (Flt.Fin 50000) (Flt.Fin 0.003))
        = Flt.Fin v /\ 0 <= v /\ v <= 50000)
  /\ (out (simulateXYK false (Flt.Fin 1e308) (Flt.Fin 1e10) (Flt.Fin 1) (Flt.Fin 0.003))
      = Flt.PInf
      \/ out (simulateXYK false (Flt.Fin 1e308) (Flt.Fin 1e10) (Flt.Fin 1) (Flt.Fin 0.003))
         = Flt.NaN).
Proof.
  split; [|split].
  - apply (proj1 (simulateXYK_zero_guard_and_conservation true)).
    left. reflexivity.
  - apply (proj2 (simulateXYK_zero_guard_and_conservation true) 500 10000 50000 0.003);
      vm_compute; reflexivity || discriminate.
  - apply (proj2 (simulateXYK_zero_guard_and_conservation false) 1e308 1e10 1 0.003);
      vm_compute; reflexivity || discriminate.
Defined.

(** C1, the conservation as stated: with reserves 1e10 and 1, fee 0.003
    and an input of 1e308 tokens the amount paid out is infinite, above
    the reserve of 1e10. *)
Lemma simulateXYK_out_exceeds_reserve :
  0 < 1e10 /\ 0 < 1 /\ 0 < 1e308 /\ 0 <= 0.003 /\ 0.003 < 1
  /\ out (simulateXYK false (Flt.num 1e308) (Flt.num 1e10) (Flt.num 1) (Flt.num 0.003))
     = Flt.PInf
  /\ Flt.leb
       (out (simulateXYK false (Flt.num 1e308) (Flt.num 1e10) (Flt.num 1) (Flt.num 0.003)))
       (Flt.num (reserveOfOutputAsset false 1e10 1)) = false.
Proof.
  repeat split; vm_compute; reflexivity || discriminate.
Qed.

Lemma div_lt_cross (a b c d : Q) : 0 < b -> 0 < d -> a * d < c * b -> a / b < c / d.
Proof.
  intros Hb Hd H. apply Qlt_shift_div_r; [assumption|].
  setoid_replace (c / d * b) with ((c * b) / d) using relation Qeq by (field; lra).
  apply Qlt_shift_div_l; assumption.
Qed.

Lemma div_le_cross (a b c d : Q) : 0 < b -> 0 < d -> a * d <= c * b -> a / b <= c / d.
Proof.
  intros Hb Hd H. apply Qle_shift_div_r; [assumption|].
  setoid_replace (c / d * b) with ((c * b) / d) using relation Qeq by (field; lra).
  apply Qle_shift_div_l; assumption.
Qed.

(** The output grows more slowly than the input. *)
Lemma xyk_out_ratio (a1 a2 c Rz Rt : Q) :
  0 < Rz -> 0 < Rt -> 0 < c -> 0 < a1 -> a1 < a2 ->
  a1 * ((a2 * c * Rt) / (Rz + a2 * c)) < a2 * ((a1 * c * Rt) / (Rz + a1 * c)).
Proof.
  intros Hz Ht Hc H1 H12.
  assert (H2 : 0 < a2) by lra.
  assert (Hc1 : 0 < a1 * c) by nra.
  assert (Hc2 : 0 < a2 * c) by nra.
  setoid_replace (a1 * ((a2 * c * Rt) / (Rz + a2 * c)))
    with ((a1 * a2 * c * Rt) / (Rz + a2 * c)) using relation Qeq by (field; lra).
  setoid_replace (a2 * ((a1 * c * Rt) / (Rz + a1 * c)))
    with ((a1 * a2 * c * Rt) / (Rz + a1 * c)) using relation Qeq by (field; lra).
  assert (Hk : 0 < a1 * a2 * c * Rt).
  { apply Qmult_lt_0_compat; [|assumption].
    apply Qmult_lt_0_compat; [|assumption].
    apply Qmult_lt_0_compat; assumption. }
  apply div_lt_cross; [lra | lra |].
  setoid_replace (a1 * a2 * c * Rt * (Rz + a1 * c))
    with (a1 * a2 * c * Rt * Rz + a1 * a2 * c * Rt * (a1 * c)) using relation Qeq by ring.
  setoid_replace (a1 * a2 * c * Rt * (Rz + a2 * c))
    with (a1 * a2 * c * Rt * Rz + a1 * a2 * c * Rt * (a2 * c)) using relation Qeq by ring.
  apply Qplus_lt_r. apply Qmult_lt_l; [assumption|].
  apply Qmult_lt_r; assumption.
Qed.

Lemma xyk_out_pos (x R S : Q) : 0 < x -> 0 < R -> 0 < S -> 0 < (x * R) / (S + x).
Proof.
  intros Hx HR HS. apply Qlt_shift_div_l; [lra|]. nra.
Qed.

(** The execution price of a native-to-token swap grows strictly with the
    input, in exact arithmetic. *)
Lemma eff_zig_increasing (a1 a2 c Rz Rt : Q) :
  0 < Rz -> 0 < Rt -> 0 < c -> 0 < a1 -> a1 < a2 ->
  a1 / Num.max ((a1 * c * Rt) / (Rz + a1 * c)) Num.tiny
  < a2 / Num.max ((a2 * c * Rt) / (Rz + a2 * c)) Num.tiny.
Proof.
  intros Hz Ht Hc H1 H12.
  pose proof NumFacts.tiny_pos as Htiny.
  pose proof (xyk_out_ratio a1 a2 c Rz Rt Hz Ht Hc H1 H12) as Hr.
  set (o1 := (a1 * c * Rt) / (Rz + a1 * c)) in *.
  set (o2 := (a2 * c * Rt) / (Rz + a2 * c)) in *.
  pose proof (NumFacts.max_ge_l o1 Num.tiny) as Hm1o.
  pose proof (NumFacts.max_ge_r o1 Num.tiny) as Hm1t.
  pose proof (NumFacts.max_ge_r o2 Num.tiny) as Hm2t.
  apply div_lt_cross; [lra | lra |].
  destruct (NumFacts.max_cases o2 Num.tiny) as [[_ ->] | [_ ->]].
  - apply Qlt_le_trans with (a2 * Num.tiny).
    + apply Qmult_lt_r; assumption.
    + apply Qmult_le_l; lra.
  - apply Qlt_le_trans with (a2 * o1); [assumption|].
    apply Qmult_le_l; lra.
Qed.

Lemma max_absorb (a b : Q) : b <= a -> Num.max a b == a.
Proof.
  intros H. destruct (NumFacts.max_cases a b) as [[H' ->] | [_ ->]]; lra.
Qed.

(** When no intermediate value overflows or underflows, the simulator
    returns the values of exact arithmetic. *)
Lemma simulateXYK_zig_in_range (Rz Rt fee a : Q) :
  0 < Rz -> 0 < Rt -> 0 < a -> 0 <= fee -> fee < 1 ->
  zig_in_range Rz Rt fee a = true ->
  simulateXYK true (Flt.Fin a) (Flt.Fin Rz) (Flt.Fin Rt) (Flt.Fin fee)
  = mkSim (Flt.Fin (exact_out (xyk_exact true a Rz Rt fee)))
          (Flt.Fin (exact_price (xyk_exact true a Rz Rt fee)))
          (Flt.Fin (exact_impact (xyk_exact true a Rz Rt fee))).
Proof.
  intros Hz Ht Ha Hf0 Hf1 H. unfold zig_in_range in H. cbv zeta in H.
  apply andb_prop in H as [H H7]. apply andb_prop in H as [H H6].
  apply andb_prop in H as [H H5]. apply andb_prop in H as [H H4].
  apply andb_prop in H as [H H3]. apply andb_prop in H as [H1 H2].
  assert (Hmid : Num.gtb (Rz / Rt) 0 = true).
  { apply NumFacts.gtb_true. apply Qlt_shift_div_l; lra. }
  assert (Hlive : negb (Num.gtb Rz 0 && Num.gtb Rt 0) || negb (Num.gtb a 0) = false).
  { rewrite (proj2 (NumFacts.gtb_true Rz 0) Hz), (proj2 (NumFacts.gtb_true Rt 0) Ht),
      (proj2 (NumFacts.gtb_true a 0) Ha). reflexivity. }
  unfold simulateXYK, xyk_exact.
  rewrite (simulateXYK_live a Rz Rt Hz Ht Ha), Hlive, Hmid.
  cbn [exact_out exact_price exact_impact].
  rewrite (sub_one_fee fee Hf0 Hf1).
  rewrite (FltFacts.mul_fits _ _ H2), (FltFacts.mul_fits _ _ H3),
    (FltFacts.add_fits _ _ H4), (FltFacts.div_fits _ _ H5).
  cbn [Flt.max].
  rewrite (FltFacts.div_fits _ _ H6), (FltFacts.div_fits _ _ H1),
    (FltFacts.div_fits _ _ H7).
  unfold Flt.zero. rewrite FltFacts.gtb_fin, Hmid.
  f_equal. cbn [Flt.sub Flt.one].
  apply FltFacts.fits_spec in H7 as [H7a H7b].
  assert (Hr : 0 < a / Num.max (a * (1 - fee) * Rt / (Rz + a * (1 - fee))) Num.tiny
                   / (Rz / Rt)).
  { pose proof (NumFacts.max_ge_r (a * (1 - fee) * Rt / (Rz + a * (1 - fee))) Num.tiny).
    pose proof NumFacts.tiny_pos.
    apply Qlt_shift_div_l; [apply Qlt_shift_div_l; lra|].
    rewrite Qmult_0_l. apply Qlt_shift_div_l; lra. }
  rewrite Qabs_pos in H7b by lra. pose proof FltFacts.huge_gt_1.
  apply FltFacts.overflow_fin; lra.
Qed.

(** A product or quotient that is not negative and does not overflow is
    kept or becomes zero. *)
Lemma round_bounded (q : Q) :
  0 <= q -> q < Flt.huge ->
  exists q' : Q, Flt.round q = Flt.Fin q' /\ 0 <= q' /\ q' <= q.
Proof.
  intros H0 Hh.
  destruct (FltFacts.round_nonneg q H0) as [[_ E] | [(_ & _ & E) | [H _]]]; [| |lra].
  - exists 0. split; [exact E|]. split; lra.
  - exists q. split; [exact E|]. split; lra.
Qed.

(** Below the floor of 1e-18 under the output, the impact is the input
    over the floor and the mid price, less 1, or less when a value
    underflows. *)
Lemma impact_zig_floor (Rz Rt fee a : Q) :
  0 < Rz -> Rz < Flt.huge -> 0 < Rt -> Flt.fits (Rz / Rt) = true ->
  0 <= fee -> fee < 1 -> 0 < a -> a <= Num.tiny * (Rz / Rt) ->
  exists v : Q, impact_zig Rz Rt fee a = Flt.Fin v
                /\ -1 <= v /\ v <= a / Num.tiny / (Rz / Rt) - 1.
Proof.
  intros Hz Hzh Ht Hm Hf0 Hf1 Ha Hsmall.
  pose proof FltFacts.small_pos as Hsp. pose proof FltFacts.huge_gt_1 as Hh1.
  pose proof NumFacts.tiny_pos as Htp. pose proof FltFacts.tiny_lt_1 as Ht1.
  assert (Hm0 : 0 < Rz / Rt) by (apply Qlt_shift_div_l; lra).
  pose proof Hm as Hm'. apply FltFacts.fits_pos in Hm' as [Hm1 Hm2]; [|exact Hm0].
  set (m := Rz / Rt) in *.
  assert (Hmeq : m * Rt == Rz) by (unfold m; field; lra).
  assert (Hal : a < Flt.huge) by nra.
  unfold impact_zig, simulateXYK.
  rewrite (simulateXYK_live a Rz Rt Hz Ht Ha). cbn [impact].
  rewrite (sub_one_fee fee Hf0 Hf1).
  rewrite (FltFacts.div_fits Rz Rt Hm). fold m.
  unfold Flt.zero. rewrite FltFacts.gtb_fin, (proj2 (NumFacts.gtb_true m 0) Hm0).
  (* the net input *)
  set (x := a * (1 - fee)).
  assert (Hx0 : 0 < x) by (unfold x; nra).
  assert (Hxa : x <= a) by (unfold x; nra).
  destruct (round_bounded x) as (x' & Ex & Hx'0 & Hx'x); [lra | lra |].
  change (Flt.mul (Flt.Fin a) (Flt.Fin (1 - fee))) with (Flt.round x). rewrite Ex.
  (* the product *)
  assert (HaRt : a * Rt <= Num.tiny * Rz).
  { rewrite <- Hmeq. rewrite Qmult_assoc. apply Qmult_le_compat_r; lra. }
  assert (Hp : x' * Rt <= a * Rt) by (apply Qmult_le_compat_r; lra).
  destruct (round_bounded (x' * Rt)) as (p' & Ep & Hp'0 & Hp'p); [nra | nra |].
  change (Flt.mul (Flt.Fin x') (Flt.Fin Rt)) with (Flt.round (x' * Rt)). rewrite Ep.
  (* the output *)
  assert (Eout : exists o' : Q,
             Flt.div (Flt.Fin p') (Flt.add (Flt.Fin Rz) (Flt.Fin x')) = Flt.Fin o'
             /\ 0 <= o' /\ o' <= Num.tiny).
  { destruct (add_pos_cases Rz x') as [[_ E] | [_ E]]; [lra | |]; rewrite E.
    - exists 0. split; [reflexivity|]. split; lra.
    - assert (Hq : p' / (Rz + x') <= Num.tiny).
      { apply Qle_shift_div_r; [lra|]. nra. }
      assert (Hq0 : 0 <= p' / (Rz + x')) by (apply Qle_shift_div_l; lra).
      cbn [Flt.div].
      assert (Ez : Qeq_bool (Rz + x') 0 = false).
      { apply not_true_is_false. intro Ez. apply Qeq_bool_iff in Ez. lra. }
      rewrite Ez.
      destruct (round_bounded (p' / (Rz + x'))) as (o' & Eo & Ho0 & Ho1); [lra | lra |].
      exists o'. split; [exact Eo|]. split; lra. }
  destruct Eout as (o' & Eo & Ho0 & Ho1). rewrite Eo.
  cbn [Flt.max]. unfold Num.max at 1.
  rewrite (proj2 (Qle_bool_iff o' Num.tiny) Ho1).
  (* the price *)
  assert (Hat : a / Num.tiny <= m).
  { apply Qle_shift_div_r; [lra|]. rewrite Qmult_comm. exact Hsmall. }
  assert (Hat0 : 0 <= a / Num.tiny) by (apply Qle_shift_div_l; lra).
  assert (Ee : exists e' : Q,
             Flt.div (Flt.Fin a) (Flt.Fin Num.tiny) = Flt.Fin e'
             /\ 0 <= e' /\ e' <= a / Num.tiny).
  { cbn [Flt.div].
    assert (Ez : Qeq_bool Num.tiny 0 = false) by reflexivity.
    rewrite Ez. apply round_bounded; lra. }
  destruct Ee as (e' & Ee & He0 & He1). rewrite Ee.
  (* over the mid price *)
  assert (Hem : e' / m <= a / Num.tiny / m).
  { apply div_le_cross; [lra | lra |]. apply Qmult_le_compat_r; lra. }
  assert (Hem1 : a / Num.tiny / m <= 1).
  { apply Qle_shift_div_r; lra. }
  assert (Hem0 : 0 <= e' / m) by (apply Qle_shift_div_l; lra).
  assert (Er : exists r' : Q,
             Flt.div (Flt.Fin e') (Flt.Fin m) = Flt.Fin r'
             /\ 0 <= r' /\ r' <= e' / m).
  { cbn [Flt.div].
    assert (Ez : Qeq_bool m 0 = false).
    { apply not_true_is_false. intro Ez. apply Qeq_bool_iff in Ez. lra. }
    rewrite Ez. apply round_bounded; lra. }
  destruct Er as (r' & Er & Hr0 & Hr1). rewrite Er.
  exists (r' - 1). split.
  - cbn [Flt.sub Flt.one]. apply FltFacts.overflow_fin; lra.
  - split; lra.
Qed.




(** Past that range the impact is not increasing: on the pool Rz = 1,
    Rt = 1e10 with fee 0.003 an input of 1e304 makes the product of the
    net input and the reserve overflow, the output is infinite and the
    impact is -1, below the impact of the smaller input 1e290. *)
Lemma impact_zig_drops_at_overflow :
  out (simulateXYK true (Flt.num 1e304) (Flt.num 1) (Flt.num 1e10) (Flt.num 0.003))
  = Flt.PInf
  /\ (exists v : Q, impact_zig 1 1e10 0.003 1e290 = Flt.Fin v /\ 0 < v)
  /\ (exists v : Q, impact_zig 1 1e10 0.003 1e304 = Flt.Fin v /\ v == -1)
  /\ zig_in_range 1 1e10 0.003 1e290 = true
  /\ zig_in_range 1 1e10 0.003 1e304 = false.
Proof.
  split; [vm_compute; reflexivity|].
  split; [eexists; split; [vm_compute; reflexivity | vm_compute; reflexivity]|].
  split; [eexists; split; [vm_compute; reflexivity | vm_compute; reflexivity]|].
  split; vm_compute; reflexivity.
Qed.

End SimulatorFacts.

(** ** The fee schedule *)

Section FeeFacts.

#[local] Open Scope string_scope.

Lemma lower_ascii_idem (c : ascii) : Str.lower_ascii (Str.lower_ascii c) = Str.lower_ascii c.
Proof. destruct c as [[] [] [] [] [] [] [] []]; reflexivity. Qed.

Lemma toLowerCase_idem (s : string) : Str.toLowerCase (Str.toLowerCase s) = Str.toLowerCase s.
Proof.
  induction s as [|c r IH]; [reflexivity|].
  simpl. rewrite lower_ascii_idem, IH. reflexivity.
Qed.

(** An attempt at the head succeeds only on [xyk], a separator and a
    digit. *)
Lemma match_xyk_here_Some (s ds : string) :
  match_xyk_here s = Some ds ->
  exists (sep d : ascii) (rest : string),
    s = String "x" (String "y" (String "k" (String sep (String d rest))))
    /\ is_sep sep = true /\ Str.is_digit d = true.
Proof.
  unfold match_xyk_here.
  destruct s as [|c0 s]; [discriminate|].
  destruct (Ascii.eqb_spec c0 "x"%char) as [->|N0].
  2:{ destruct c0 as [[] [] [] [] [] [] [] []]; try discriminate. now destruct N0. }
  destruct s as [|c1 s]; [discriminate|].
  destruct (Ascii.eqb_spec c1 "y"%char) as [->|N1].
  2:{ destruct c1 as [[] [] [] [] [] [] [] []]; try discriminate. now destruct N1. }
  destruct s as [|c2 s]; [discriminate|].
  destruct (Ascii.eqb_spec c2 "k"%char) as [->|N2].
  2:{ destruct c2 as [[] [] [] [] [] [] [] []]; try discriminate. now destruct N2. }
  destruct s as [|sep s]; [discriminate|].
  destruct (is_sep sep) eqn:Hsep; [|discriminate].
  destruct s as [|d rest]; [discriminate|].
  simpl. destruct (Str.is_digit d) eqn:Hd; [|discriminate].
  intros _. exists sep, d, rest. auto.
Qed.

Lemma match_xyk_cons (c : ascii) (r : string) :
  match_xyk (String c r)
  = match match_xyk_here (String c r) with
    | Some ds => Some ds
    | None => match_xyk r
    end.
Proof. reflexivity. Qed.

Lemma match_xyk_Some (t ds : string) : match_xyk t = Some ds -> has_xyk_n t.
Proof.
  induction t as [|c r IH].
  - discriminate.
  - rewrite match_xyk_cons.
    destruct (match_xyk_here (String c r)) as [ds'|] eqn:E.
    + intros _. apply match_xyk_here_Some in E as (sep & d & rest & -> & Hs & Hd).
      exists "", sep, d, rest. auto.
    + intros H. destruct (IH H) as (pre & sep & d & rest & -> & Hs & Hd).
      exists (String c pre), sep, d, rest. auto.
Qed.

Lemma match_xyk_none (t : string) : ~ has_xyk_n t -> match_xyk t = None.
Proof.
  intros H. destruct (match_xyk t) as [ds|] eqn:E; [|reflexivity].
  destruct H. eapply match_xyk_Some, E.
Qed.

Lemma take_digits_app (ds post : string) :
  all_digits ds = true -> nondigit_head post = true ->
  Str.take_digits (append ds post) = ds.
Proof.
  intros Hd Hp. induction ds as [|c r IH].
  - destruct post as [|c r]; [reflexivity|].
    simpl in *. apply negb_true_iff in Hp. rewrite Hp. reflexivity.
  - simpl in *. apply andb_prop in Hd as [Hc Hr].
    rewrite Hc, (IH Hr). reflexivity.
Qed.

Lemma match_xyk_here_occurrence (sep : ascii) (ds post : string) :
  is_sep sep = true -> all_digits ds = true -> ds <> "" -> nondigit_head post = true ->
  match_xyk_here (String "x" (String "y" (String "k" (String sep (append ds post)))))
  = Some ds.
Proof.
  intros Hs Hd Hne Hp. unfold match_xyk_here.
  rewrite Hs, (take_digits_app ds post Hd Hp).
  destruct ds; [now destruct Hne | reflexivity].
Qed.

(** No match starts inside a prefix that holds none and runs into the
    [xyk] that follows it. *)
Lemma match_xyk_here_straddle (pre r : string) :
  pre <> "" -> ~ has_xyk_n pre ->
  match_xyk_here (append pre (String "x" (String "y" (String "k" r)))) = None.
Proof.
  intros Hne Hno.
  destruct (match_xyk_here (append pre (String "x" (String "y" (String "k" r)))))
    as [ds|] eqn:E; [|reflexivity].
  exfalso. apply match_xyk_here_Some in E as (sep & d & rest & Eq & Hs & Hd).
  destruct pre as [|c0 pre]; [now destruct Hne|].
  destruct pre as [|c1 pre].
  { simpl in Eq. injection Eq as _ E _. discriminate E. }
  destruct pre as [|c2 pre].
  { simpl in Eq. injection Eq as _ _ E _. discriminate E. }
  destruct pre as [|c3 pre].
  { simpl in Eq. injection Eq as _ _ _ <- _. discriminate Hs. }
  destruct pre as [|c4 pre].
  { simpl in Eq. injection Eq as _ _ _ _ <- _. discriminate Hd. }
  simpl in Eq. injection Eq as -> -> -> -> -> _.
  apply Hno. exists "", sep, d, pre. auto.
Qed.

Lemma has_xyk_n_cons (c : ascii) (pre : string) :
  has_xyk_n pre -> has_xyk_n (String c pre).
Proof.
  intros (p & sep & d & rest & -> & Hs & Hd). exists (String c p), sep, d, rest. auto.
Qed.

(** The match is the leftmost occurrence. *)
Lemma match_xyk_leftmost (pre : string) (sep : ascii) (ds post : string) :
  ~ has_xyk_n pre ->
  is_sep sep = true -> all_digits ds = true -> ds <> "" -> nondigit_head post = true ->
  match_xyk (append pre (String "x" (String "y" (String "k" (String sep (append ds post))))))
  = Some ds.
Proof.
  intros Hno Hs Hd Hne Hp. induction pre as [|c pre IH].
  - change (append "" ?x) with x.
    rewrite match_xyk_cons, match_xyk_here_occurrence by assumption.
    reflexivity.
  - change (append (String c pre) ?x) with (String c (append pre x)).
    rewrite match_xyk_cons.
    change (String c (append pre ?x)) with (append (String c pre) x).
    rewrite match_xyk_here_straddle by (discriminate || assumption).
    apply IH. intros H. apply Hno, has_xyk_n_cons, H.
Qed.

Lemma pairFee_Some (s : string) :
  s <> "" ->
  pairFee (Some s)
  = let t := Str.toLowerCase s in
    if String.eqb t "xyk" then 0.0001%Q
    else if String.eqb t "concentrated" then 0.01%Q
    else
      match match_xyk t with
      | Some ds =>
          match Str.Number_of_digits ds with
          | Some bps => (bps / 10000)%Q
          | None => 0.003%Q
          end
      | None => 0.003%Q
      end.
Proof. destruct s; [intros H; now destruct H | reflexivity]. Qed.

Lemma toLowerCase_nonempty (s : string) : s <> "" -> Str.toLowerCase s <> "".
Proof. destruct s; [intros H; now destruct H | discriminate]. Qed.

(** C3, as the code has it. The pair type is compared after lower-casing:
    null and the empty string give 0.003; a string equal to [xyk] up to
    case gives 0.0001, one equal to [concentrated] up to case gives 0.01;
    otherwise the leftmost [xyk_<n>] or [xyk-<n>] found anywhere in the
    lower-cased string gives n/10000 (0.003 when n overflows [Number]);
    and a string that contains no [xyk_<digit>] or [xyk-<digit>] at all
    gives 0.003. *)
Theorem pairFee_schedule_after_lowercase (s : string) :
  pairFee None = 0.003%Q
  /\ pairFee (Some "") = 0.003%Q
  /\ pairFee (Some s) = pairFee (Some (Str.toLowerCase s))
  /\ (Str.toLowerCase s = "xyk" -> pairFee (Some s) = 0.0001%Q)
  /\ (Str.toLowerCase s = "concentrated" -> pairFee (Some s) = 0.01%Q)
  /\ (forall (pre : string) (sep : ascii) (ds post : string),
        ~ has_xyk_n pre ->
        is_sep sep = true -> all_digits ds = true -> ds <> "" ->
        nondigit_head post = true ->
        Str.toLowerCase s
        = append pre (String "x" (String "y" (String "k" (String sep (append ds post))))) ->
        ((Str.decimal_value ds < Str.Number_overflow)%Z ->
         (pairFee (Some s) == inject_Z (Str.decimal_value ds) / 10000)%Q)
        /\ ((Str.Number_overflow <= Str.decimal_value ds)%Z ->
            pairFee (Some s) = 0.003%Q))
  /\ (Str.toLowerCase s <> "xyk" -> Str.toLowerCase s <> "concentrated" ->
      ~ has_xyk_n (Str.toLowerCase s) -> pairFee (Some s) = 0.003%Q).
Proof.
  split; [reflexivity|]. split; [reflexivity|].
  split.
  { destruct s as [|c r]; [reflexivity|].
    rewrite (pairFee_Some (String c r)) by discriminate.
    rewrite (pairFee_Some (Str.toLowerCase (String c r))) by discriminate.
    rewrite toLowerCase_idem. reflexivity. }
  split.
  { intros E. destruct s as [|c r]; [discriminate|].
    rewrite pairFee_Some by discriminate. cbv zeta. rewrite E. reflexivity. }
  split.
  { intros E. destruct s as [|c r]; [discriminate|].
    rewrite pairFee_Some by discriminate. cbv zeta. rewrite E. reflexivity. }
  split.
  { intros pre sep ds post Hno Hs Hd Hne Hp E.
    pose proof (match_xyk_leftmost pre sep ds post Hno Hs Hd Hne Hp) as Hm.
    rewrite <- E in Hm.
    assert (Hs0 : s <> "").
    { intros ->. discriminate Hm. }
    rewrite pairFee_Some by assumption. cbv zeta.
    destruct (String.eqb_spec (Str.toLowerCase s) "xyk") as [E1|_];
      [rewrite E1 in Hm; discriminate Hm|].
    destruct (String.eqb_spec (Str.toLowerCase s) "concentrated") as [E2|_];
      [rewrite E2 in Hm; discriminate Hm|].
    rewrite Hm. unfold Str.Number_of_digits. split.
    - intros Hov. apply Z.ltb_lt in Hov. rewrite Hov. reflexivity.
    - intros Hov. apply Z.ltb_ge in Hov. rewrite Hov. reflexivity. }
  { intros N1 N2 Hno. destruct s as [|c r]; [reflexivity|].
    rewrite pairFee_Some by discriminate. cbv zeta.
    apply String.eqb_neq in N1. apply String.eqb_neq in N2.
    rewrite N1, N2, (match_xyk_none _ Hno). reflexivity. }
Qed.

Lemma has_xyk_n_empty : ~ has_xyk_n "".
Proof. intros (pre & sep & d & rest & E & _). destruct pre; discriminate E. Qed.

Lemma pairFee_schedule_after_lowercase_witness :
  pairFee (Some "XYK") = 0.0001%Q
  /\ pairFee (Some "Concentrated") = 0.01%Q
  /\ (pairFee (Some "xyk_50") == 0.005)%Q
  /\ (pairFee (Some "Pool-XYK-25x") == 0.0025)%Q
  /\ pairFee (Some "unknown") = 0.003%Q.
Proof.
  split; [|split; [|split; [|split]]].
  - apply (pairFee_schedule_after_lowercase "XYK"). reflexivity.
  - apply (pairFee_schedule_after_lowercase "Concentrated"). reflexivity.
  - destruct (pairFee_schedule_after_lowercase "xyk_50") as (_ & _ & _ & _ & _ & Hpat & _).
    destruct (Hpat "" "_"%char "50" "" has_xyk_n_empty eq_refl eq_refl
                ltac:(discriminate) eq_refl eq_refl) as [Hfee _].
    rewrite (Hfee eq_refl). reflexivity.
  - destruct (pairFee_schedule_after_lowercase "Pool-XYK-25x") as (_ & _ & _ & _ & _ & Hpat & _).
    assert (Hno : ~ has_xyk_n "pool-").
    { intros (pre & sep & d & rest & E & _).
      repeat (destruct pre as [|? pre]; [discriminate E|]; injection E as _ E).
      destruct pre; discriminate E. }
    destruct (Hpat "pool-" "-"%char "25" "x" Hno eq_refl eq_refl
                ltac:(discriminate) eq_refl eq_refl) as [Hfee _].
    rewrite (Hfee eq_refl). reflexivity.
  - apply (pairFee_schedule_after_lowercase "unknown"); try discriminate.
    intros (pre & sep & d & rest & E & _).
    repeat (destruct pre as [|? pre]; [discriminate E|]; injection E as _ E).
    destruct pre; discriminate E.
Defined.

(** C3, the schedule as stated: [XYK] is not the exact string
    [xyk], nor [concentrated], nor of the form [xyk_<n>], so the stated
    schedule gives the default 0.003, and the code gives 0.0001. *)
Lemma pairFee_differs_from_stated_schedule :
  pairFee_as_stated (Some "XYK") = 0.003%Q
  /\ pairFee (Some "XYK") = 0.0001%Q
  /\ ~ (pairFee (Some "XYK") == pairFee_as_stated (Some "XYK"))%Q.
Proof.
  split; [reflexivity|]. split; [reflexivity|]. discriminate.
Qed.

End FeeFacts.

(** ** The bucket loop *)

Section OhlcvFacts.

Lemma alignSec_div (ms stepSec : Z) :
  0 < stepSec -> alignSec ms stepSec = ms / (1000 * stepSec) * stepSec.
Proof.
  intros Hs. unfold alignSec. f_equal.
  rewrite Zdiv_Qdiv. apply Qfloor_comp.
  rewrite inject_Z_mult.
  assert (~ (inject_Z stepSec == 0)%Q).
  { intros E. unfold Qeq in E. simpl in E. lia. }
  field. assumption.
Qed.

Lemma alignSec_multiple (ms stepSec : Z) :
  0 < stepSec -> (alignSec ms stepSec) mod stepSec = 0.
Proof. intros Hs. rewrite alignSec_div by assumption. apply Z_mod_mult. Qed.

Lemma alignSec_shift (ms stepSec : Z) (n : nat) :
  0 < stepSec ->
  alignSec (ms + Z.of_nat n * stepSec * 1000) stepSec
  = alignSec ms stepSec + Z.of_nat n * stepSec.
Proof.
  intros Hs. rewrite !alignSec_div by assumption.
  replace (ms + Z.of_nat n * stepSec * 1000)
    with (ms + Z.of_nat n * (1000 * stepSec)) by ring.
  rewrite Z.div_add by lia. ring.
Qed.

Lemma bucket_times_length (n : nat) (start stepSec : Z) :
  length (bucket_times n start stepSec) = n.
Proof. revert start. induction n as [|n IH]; intros start; simpl; [|rewrite IH]; reflexivity. Qed.

Lemma bucket_times_multiple (n : nat) (start stepSec : Z) :
  0 < stepSec -> start mod stepSec = 0 ->
  Forall (fun t => t mod stepSec = 0) (bucket_times n start stepSec).
Proof.
  intros Hs. revert start. induction n as [|n IH]; intros start Hm; simpl; constructor.
  - assumption.
  - apply IH. rewrite <- (Z.mul_1_l stepSec) at 1. rewrite Z.mod_add by lia. assumption.
Qed.

Variable fill : Fill.
Variable bySec : gmap Z Row.
Variable stepSec : Z.
Hypothesis step_pos : 0 < stepSec.

(** With a positive step the loop ends, and it is the body folded over
    the buckets from [ts] up to [endSec]. *)
Lemma bucket_loop_run (endSec : Z) (n : nat) :
  forall (fuel : nat) (ts : Z) (st : LoopState),
    (n <= fuel)%nat ->
    ts + (Z.of_nat n - 1) * stepSec <= endSec < ts + Z.of_nat n * stepSec ->
    bucket_loop fill bySec stepSec endSec fuel ts st
    = Some (foldl (fun st t => bucket_body fill bySec t st) st
              (bucket_times n ts stepSec)).
Proof.
  induction n as [|n IH]; intros fuel ts st Hf Hr.
  - assert (E : (ts <=? endSec) = false) by (apply Z.leb_gt; lia).
    destruct fuel; simpl; rewrite E; reflexivity.
  - destruct fuel as [|fuel]; [lia|].
    assert (E : (ts <=? endSec) = true) by (apply Z.leb_le; nia).
    simpl. rewrite E. apply IH; [lia|]. nia.
Qed.

Lemma bucket_count_range (startSec endSec : Z) :
  startSec <= endSec ->
  let n := bucket_count startSec endSec stepSec in
  startSec + (Z.of_nat n - 1) * stepSec <= endSec < startSec + Z.of_nat n * stepSec.
Proof.
  intros Hle n. unfold n, bucket_count.
  pose proof (Z.div_pos (endSec - startSec) stepSec ltac:(lia) step_pos).
  rewrite Z2Nat.id by lia.
  pose proof (Z.div_mod (endSec - startSec) stepSec ltac:(lia)) as Hd.
  pose proof (Z.mod_pos_bound (endSec - startSec) stepSec step_pos).
  nia.
Qed.

(** One iteration either leaves the state alone or appends one bar and
    makes its close the previous close. *)
Lemma bucket_body_cases (ts : Z) (pc : option Q) (out : list Bar) :
  (bucket_body fill bySec ts (pc, out) = (pc, out)
   /\ bySec !! ts = None /\ (fill = FillNone \/ (fill = FillPrev /\ pc = None)))
  \/ (exists b : Bar, emits fill bySec pc ts b
       /\ bucket_body fill bySec ts (pc, out) = (Some (close b), out ++ [b])).
Proof.
  unfold bucket_body. destruct (bySec !! ts) as [r|] eqn:Er.
  - right. eexists. split; [apply (emits_real fill bySec pc ts r Er)|]. reflexivity.
  - destruct fill eqn:Ef; simpl.
    + destruct pc as [c|].
      * right. exists (mkBar ts c c c c 0 0). split; [|reflexivity].
        now apply emits_flat.
      * left. auto.
    + right. exists (mkBar ts 0 0 0 0 0 0). split; [|reflexivity].
      now apply emits_zero.
    + left. auto.
Qed.

Lemma emits_ts (pc : option Q) (ts : Z) (b : Bar) :
  emits fill bySec pc ts b -> ts_sec b = ts.
Proof. intros H; destruct H; reflexivity. Qed.

(** Every emitted bar has its open between its low and its high. *)
Lemma emits_widened (pc : option Q) (ts : Z) (b : Bar) :
  emits fill bySec pc ts b -> (low b <= open b)%Q /\ (open b <= high b)%Q.
Proof.
  intros H; destruct H; cbn.
  - split; [apply NumFacts.min_le_r | apply NumFacts.max_ge_r].
  - split; apply Qle_refl.
  - split; apply Qle_refl.
Qed.

(** A bar emitted with a known previous close opens at it, unless it is
    the zero bar of an empty bucket. *)
Lemma emits_open (c : Q) (ts : Z) (b : Bar) :
  emits fill bySec (Some c) ts b ->
  (is_Some (bySec !! ts) \/ fill <> FillZero -> open b = c)
  /\ (bySec !! ts = None -> fill = FillZero -> b = mkBar ts 0 0 0 0 0 0).
Proof.
  intros H. inversion H as [r Er Eb | pc' En Ef Epc Eb | En Ef Eb].
  - split; [reflexivity|]. intros En. rewrite En in Er. discriminate.
  - split; [intros _; cbn; congruence|]. intros _ Ef'. rewrite Ef' in Ef; discriminate.
  - split; [|reflexivity]. intros [[r Hr] | Hf]; [rewrite Hr in En; discriminate | now destruct Hf].
Qed.

Lemma adjacent_all_snoc (P : Bar -> Bar -> Prop) (out : list Bar) (x : Bar) :
  adjacent_all P out -> (forall b, last out = Some b -> P b x) ->
  adjacent_all P (out ++ [x]).
Proof.
  intros Hadj Hlast i b b' Hi HSi.
  assert (Hlen : (S i < length (out ++ [x]))%nat) by (eapply lookup_lt_Some; eassumption).
  rewrite length_app in Hlen. simpl in Hlen.
  destruct (decide (S i < length out)%nat) as [Hlt|Hge].
  - rewrite lookup_app_l in Hi by lia. rewrite lookup_app_l in HSi by lia.
    eapply Hadj; eassumption.
  - assert (Ei : S i = length out) by lia.
    rewrite lookup_app_l in Hi by lia.
    rewrite lookup_app_r in HSi by lia.
    replace (S i - length out)%nat with 0%nat in HSi by lia.
    simpl in HSi. injection HSi as <-.
    apply Hlast. rewrite last_lookup. rewrite <- Ei. simpl. assumption.
Qed.

Lemma series_inv_body (ts : Z) (st : LoopState) :
  series_inv fill bySec st -> series_inv fill bySec (bucket_body fill bySec ts st).
Proof.
  destruct st as [pc out]. intros (Hlast & Hadj & Hwid).
  destruct (bucket_body_cases ts pc out) as [[E _] | (b & Hb & E)]; rewrite E.
  - exact (conj Hlast (conj Hadj Hwid)).
  - unfold series_inv. cbn [fst snd] in *. split; [|split].
    + intros b'. rewrite last_snoc. congruence.
    + apply adjacent_all_snoc; [assumption|].
      intros b0 Hb0. specialize (Hlast b0 Hb0). subst pc.
      pose proof (emits_ts _ _ _ Hb) as Ets.
      unfold continuous_pair. rewrite Ets.
      apply emits_open. assumption.
    + apply Forall_app. split; [assumption|].
      constructor; [|constructor]. eapply emits_widened; eassumption.
Qed.

Lemma series_inv_loop (endSec : Z) (fuel : nat) :
  forall (ts : Z) (st st' : LoopState),
    series_inv fill bySec st ->
    bucket_loop fill bySec stepSec endSec fuel ts st = Some st' ->
    series_inv fill bySec st'.
Proof.
  induction fuel as [|fuel IH]; intros ts st st' Hinv; simpl;
    destruct (ts <=? endSec); try discriminate.
  - intros [= <-]. assumption.
  - apply IH. apply series_inv_body. assumption.
  - intros [= <-]. assumption.
Qed.

(** Once the loop is sure to emit (zero fill, or flat fill with a known
    previous close) it emits one bar per bucket. *)
Lemma foldl_step {A B : Type} (f : A -> B -> A) (a : A) (x : B) (l : list B) :
  foldl f a (x :: l) = foldl f (f a x) l.
Proof. reflexivity. Qed.

Lemma foldl_emit_all (l : list Z) :
  forall (pc : option Q) (out : list Bar),
    fill = FillZero \/ (fill = FillPrev /\ is_Some pc) ->
    List.map ts_sec (snd (foldl (fun st t => bucket_body fill bySec t st) (pc, out) l))
    = List.map ts_sec out ++ l.
Proof.
  induction l as [|t l IH]; intros pc out Hr.
  - simpl. rewrite app_nil_r. reflexivity.
  - rewrite foldl_step.
    destruct (bucket_body_cases t pc out) as [(E & _ & Hc) | (b & Hb & E)]; rewrite E.
    + exfalso. destruct Hr as [Hz | [Hp [c Hc']]], Hc as [Hn | [Hp' Hnone]]; congruence.
    + rewrite IH.
      * rewrite List.map_app. simpl. rewrite (emits_ts _ _ _ Hb).
        rewrite <- app_assoc. reflexivity.
      * destruct Hr as [Hz | [Hp _]]; [left; assumption | right; split; [assumption | eauto]].
Qed.

Lemma foldl_emit_from_row (t : Z) (l : list Z) (r : Row) (pc : option Q) (out : list Bar) :
  fill <> FillNone -> bySec !! t = Some r ->
  List.map ts_sec (snd (foldl (fun st t => bucket_body fill bySec t st) (pc, out) (t :: l)))
  = List.map ts_sec out ++ t :: l.
Proof.
  intros Hf Hr. rewrite foldl_step.
  destruct (bucket_body_cases t pc out) as [(E & Hn & _) | (b & Hb & E)]; rewrite E.
  - congruence.
  - rewrite foldl_emit_all.
    + rewrite List.map_app. simpl. rewrite (emits_ts _ _ _ Hb).
      rewrite <- app_assoc. reflexivity.
    + destruct fill; [right; split; eauto | left; reflexivity | now destruct Hf].
Qed.

End OhlcvFacts.

(** ** The emitted series *)

Section SeriesFacts.

(** C4, as the code has it. With a positive step both endpoints are
    floored to the step boundary and the loop visits every bucket from the
    aligned start to the aligned end inclusive; so a request over
    [T, T + N*step) with N >= 1, a source bar in every bucket of the range
    and a fill other than none yields N + 1 bars, at the buckets
    start, start + step, ..., start + N*step, all multiples of the step. *)
Theorem ohlcv_series_bucket_count
    (fill : Fill) (seed : option Q) (rows : list Row) (fromMs stepSec : Z) (N : nat) :
  0 < stepSec -> fill <> FillNone -> (1 <= N)%nat ->
  (forall i : nat, (i < N)%nat ->
     is_Some (bySec_of rows !! (alignSec fromMs stepSec + Z.of_nat i * stepSec))) ->
  alignSec fromMs stepSec = fromMs / (1000 * stepSec) * stepSec
  /\ alignSec (fromMs + Z.of_nat N * stepSec * 1000) stepSec
     = alignSec fromMs stepSec + Z.of_nat N * stepSec
  /\ exists out : list Bar,
       ohlcv_series fill seed rows fromMs (fromMs + Z.of_nat N * stepSec * 1000) stepSec
       = Some out
       /\ List.map ts_sec out = bucket_times (S N) (alignSec fromMs stepSec) stepSec
       /\ length out = S N
       /\ Forall (fun b => ts_sec b mod stepSec = 0) out.
Proof.
  intros Hs Hf HN Hrows.
  split; [apply alignSec_div; assumption|].
  split; [apply alignSec_shift; assumption|].
  unfold ohlcv_series. rewrite alignSec_shift by assumption.
  set (start := alignSec fromMs stepSec) in *.
  set (pc0 := match seed with
              | Some s => if Fill_eqb fill FillPrev && Num.isFinite s then Some s else None
              | None => None
              end).
  assert (Hcount : bucket_count start (start + Z.of_nat N * stepSec) stepSec = S N).
  { unfold bucket_count.
    replace (start + Z.of_nat N * stepSec - start) with (Z.of_nat N * stepSec) by ring.
    rewrite Z.div_mul by lia. lia. }
  rewrite Hcount.
  rewrite (bucket_loop_run fill (bySec_of rows) stepSec Hs _ (S N)) by lia.
  destruct (Hrows 0%nat ltac:(lia)) as [r Hr].
  replace (start + Z.of_nat 0 * stepSec) with start in Hr by lia.
  pose proof (foldl_emit_from_row fill (bySec_of rows) start
                (bucket_times N (start + stepSec) stepSec) r pc0 [] Hf Hr) as Hmap.
  eexists. split; [reflexivity|].
  cbn [bucket_times option_fmap fmap option_map] in *.
  assert (Hts : List.map ts_sec
                  (snd (foldl (fun st t => bucket_body fill (bySec_of rows) t st) (pc0, [])
                          (start :: bucket_times N (start + stepSec) stepSec)))
                = start :: bucket_times N (start + stepSec) stepSec) by exact Hmap.
  split; [exact Hts|].
  split.
  - rewrite <- (length_map ts_sec), Hts. simpl. rewrite bucket_times_length. reflexivity.
  - apply Forall_map with (f := ts_sec) (P := fun t => t mod stepSec = 0). rewrite Hts.
    apply (bucket_times_multiple (S N) start stepSec Hs).
    apply alignSec_multiple. assumption.
Qed.

Lemma ohlcv_series_bucket_count_witness :
  exists out : list Bar,
    ohlcv_series FillPrev None
      [mkRow 0 1 2 1 2 10 3; mkRow 60 2 3 2 3 5 1] 0 120000 60 = Some out
    /\ length out = 3%nat.
Proof.
  destruct (ohlcv_series_bucket_count FillPrev None
              [mkRow 0 1 2 1 2 10 3; mkRow 60 2 3 2 3 5 1] 0 60 2)
    as (_ & _ & out & Hout & _ & Hlen & _).
  - reflexivity.
  - discriminate.
  - lia.
  - intros [|[|i]] Hi; [vm_compute; eauto | vm_compute; eauto | lia].
  - exists out. split; [exact Hout | exact Hlen].
Defined.

(** C4, the count as stated: over [0, 60) with a step of 60
    seconds (N = 1), a source bar in the one bucket of the range and zero
    fill, the series has two bars, not one. *)
Lemma ohlcv_series_count_not_N :
  ohlcv_series FillZero None [mkRow 0 5 5 5 5 1 1] 0 (0 + 1 * 60 * 1000) 60
  = Some [mkBar 0 5 5 5 5 1 1; mkBar 60 0 0 0 0 0 0]
  /\ is_Some (bySec_of [mkRow 0 5 5 5 5 1 1] !! 0)
  /\ length [mkBar 0 5 5 5 5 1 1; mkBar 60 0 0 0 0 0 0] <> 1%nat.
Proof.
  split; [vm_compute; reflexivity|]. split; [vm_compute; eauto | discriminate].
Qed.

(** C5, as the code has it. In the series the loop emits, a bar that
    follows another opens at the close of the one before it whenever it is
    a real bucket or the fill is not zero; the zero bar of an empty bucket
    has all-zero fields whatever the close before it, and makes 0 the
    previous close; and every bar has low <= open <= high. *)
Theorem ohlcv_series_continuity
    (fill : Fill) (seed : option Q) (rows : list Row) (fromMs toMs stepSec : Z)
    (out : list Bar) :
  ohlcv_series fill seed rows fromMs toMs stepSec = Some out ->
  (forall (i : nat) (b b' : Bar), out !! i = Some b -> out !! S i = Some b' ->
     (is_Some (bySec_of rows !! ts_sec b') \/ fill <> FillZero -> open b' = close b)
     /\ (bySec_of rows !! ts_sec b' = None -> fill = FillZero ->
         b' = mkBar (ts_sec b') 0 0 0 0 0 0))
  /\ (forall b : Bar, In b out -> (low b <= open b)%Q /\ (open b <= high b)%Q)
  /\ (forall (ts : Z) (pc : option Q) (o : list Bar),
        fill = FillZero -> bySec_of rows !! ts = None ->
        bucket_body fill (bySec_of rows) ts (pc, o)
        = (Some 0%Q, o ++ [mkBar ts 0 0 0 0 0 0])).
Proof.
  unfold ohlcv_series. intros H.
  match type of H with
  | snd <$> bucket_loop _ _ _ ?e ?f ?t ?st = _ =>
      destruct (bucket_loop fill (bySec_of rows) stepSec e f t st) as [st'|] eqn:E;
      [|discriminate];
      assert (Hinv : series_inv fill (bySec_of rows) st')
  end.
  { eapply series_inv_loop; [|exact E].
    split; [|split].
    - discriminate.
    - intros i b b' Hi. destruct i; discriminate Hi.
    - constructor. }
  simpl in H. injection H as <-.
  destruct Hinv as (_ & Hadj & Hwid).
  split; [exact Hadj|]. split.
  - intros b Hb. rewrite Forall_forall in Hwid. apply Hwid. apply list_elem_of_In. exact Hb.
  - intros ts pc o -> Hn. unfold bucket_body. rewrite Hn. reflexivity.
Qed.

Lemma ohlcv_series_continuity_witness :
  open (mkBar 60 2 6 2 5 1 1) = close (mkBar 0 1 2 1 2 1 1).
Proof.
  assert (H : ohlcv_series FillNone None
                [mkRow 0 1 2 1 2 1 1; mkRow 60 5 6 4 5 1 1] 0 60000 60
              = Some [mkBar 0 1 2 1 2 1 1; mkBar 60 2 6 2 5 1 1])
    by (vm_compute; reflexivity).
  apply (proj1 (ohlcv_series_continuity _ _ _ _ _ _ _ H) 0%nat
           (mkBar 0 1 2 1 2 1 1) (mkBar 60 2 6 2 5 1 1) eq_refl eq_refl).
  right. discriminate.
Defined.

(** C5, continuity as stated: under zero fill a real bar that
    closes at 5 is followed by the zero bar of the next, empty bucket; the
    previous close is defined there, and the bar opens at 0. *)
Lemma ohlcv_zero_fill_breaks_continuity :
  ohlcv_series FillZero None [mkRow 0 5 5 5 5 1 1] 0 60000 60
  = Some [mkBar 0 5 5 5 5 1 1; mkBar 60 0 0 0 0 0 0]
  /\ fst (bucket_body FillZero (bySec_of [mkRow 0 5 5 5 5 1 1]) 0 (None, [])) = Some 5%Q
  /\ ~ (open (mkBar 60 0 0 0 0 0 0) == close (mkBar 0 5 5 5 5 1 1))%Q.
Proof.
  split; [vm_compute; reflexivity|]. split; [vm_compute; reflexivity | discriminate].
Qed.

(** ** Inversion *)

Lemma invert_pos (v : Q) : (0 < v)%Q -> invert v = (1 / v)%Q.
Proof.
  intros H. unfold invert. rewrite (proj2 (NumFacts.gtb_true v 0) H). reflexivity.
Qed.

Lemma invert_nonpos (v : Q) : (v <= 0)%Q -> invert v = 0%Q.
Proof.
  intros H. unfold invert. rewrite (proj2 (NumFacts.gtb_false v 0) H). reflexivity.
Qed.

Lemma invert_invert (v : Q) : (0 < v)%Q -> (invert (invert v) == v)%Q.
Proof.
  intros H. rewrite (invert_pos v H).
  assert (Hi : (0 < 1 / v)%Q) by (apply Qlt_shift_div_l; lra).
  rewrite (invert_pos _ Hi). field. lra.
Qed.

(** C6. Inversion replaces a value v by 1/v, or by 0 when v <= 0; the new
    high is the inverse of the old low and the new low the inverse of the
    old high; and inverting twice a bar whose open, high, low and close are
    positive gives the bar back. *)
Theorem invertBar_involution (b : Bar) :
  (forall v : Q, (0 < v)%Q -> invert v = (1 / v)%Q)
  /\ (forall v : Q, (v <= 0)%Q -> invert v = 0%Q)
  /\ invertBar b
     = mkBar (ts_sec b) (invert (open b)) (invert (low b)) (invert (high b))
             (invert (close b)) (volume b) (trades b)
  /\ ((0 < open b)%Q -> (0 < high b)%Q -> (0 < low b)%Q -> (0 < close b)%Q ->
      ts_sec (invertBar (invertBar b)) = ts_sec b
      /\ (open (invertBar (invertBar b)) == open b)%Q
      /\ (high (invertBar (invertBar b)) == high b)%Q
      /\ (low (invertBar (invertBar b)) == low b)%Q
      /\ (close (invertBar (invertBar b)) == close b)%Q
      /\ volume (invertBar (invertBar b)) = volume b
      /\ trades (invertBar (invertBar b)) = trades b).
Proof.
  split; [exact invert_pos|]. split; [exact invert_nonpos|]. split; [reflexivity|].
  intros Ho Hh Hl Hc. cbn.
  repeat split; try reflexivity; apply invert_invert; assumption.
Qed.

Lemma invertBar_involution_witness :
  (high (invertBar (invertBar (mkBar 60 2 6 1.5 5 10 3))) == 6)%Q
  /\ (low (invertBar (invertBar (mkBar 60 2 6 1.5 5 10 3))) == 1.5)%Q.
Proof.
  destruct (invertBar_involution (mkBar 60 2 6 1.5 5 10 3)) as (_ & _ & _ & H).
  destruct H as (_ & _ & Hh & Hl & _); try reflexivity.
  split; assumption.
Defined.

End SeriesFacts.

(** ** The token resolver *)

Section ResolverFacts.

(** [ORDER BY ... LIMIT 1] over a strict order returns a row that no row
    sorts before. *)
Lemma first_by_fold {A : Type} (before : A -> A -> bool)
    (Hirr : forall a, before a a = false)
    (Htrans : forall a b c, before a b = true -> before b c = true -> before a c = true)
    (rows : list A) :
  forall (acc : option A) (seen : list A),
    (acc = None -> seen = []) ->
    (forall b, acc = Some b -> In b seen /\ forall t, In t seen -> before t b = false) ->
    let r := foldl (fun best t =>
                      match best with
                      | None => Some t
                      | Some b => if before t b then Some t else Some b
                      end) acc rows in
    (r = None -> seen ++ rows = [])
    /\ (forall b, r = Some b ->
          In b (seen ++ rows) /\ forall t, In t (seen ++ rows) -> before t b = false).
Proof.
  induction rows as [|x rows IH]; intros acc seen Hn Hs.
  - simpl. rewrite app_nil_r. split; assumption.
  - rewrite foldl_step.
    replace (seen ++ x :: rows) with ((seen ++ [x]) ++ rows)
      by (rewrite <- app_assoc; reflexivity).
    apply IH.
    + destruct acc as [b|]; [destruct (before x b)|]; discriminate.
    + intros b' Hb'. destruct acc as [b|].
      * destruct (Hs b eq_refl) as [Hin Hmin].
        destruct (before x b) eqn:Exb; injection Hb' as <-.
        -- split; [apply in_or_app; right; left; reflexivity|].
           intros t Ht. apply in_app_or in Ht as [Ht | [<- | []]]; [|apply Hirr].
           destruct (before t x) eqn:Etx; [|reflexivity].
           rewrite <- (Hmin t Ht). symmetry. eapply Htrans; eassumption.
        -- split; [apply in_or_app; left; assumption|].
           intros t Ht. apply in_app_or in Ht as [Ht | [<- | []]]; [apply Hmin; assumption | assumption].
      * injection Hb' as <-. rewrite (Hn eq_refl). simpl.
        split; [left; reflexivity|]. intros t [<- | []]. apply Hirr.
Qed.

Lemma first_by_spec {A : Type} (before : A -> A -> bool)
    (Hirr : forall a, before a a = false)
    (Htrans : forall a b c, before a b = true -> before b c = true -> before a c = true)
    (rows : list A) :
  (Sql.first_by before rows = None <-> rows = [])
  /\ (forall b, Sql.first_by before rows = Some b ->
        In b rows /\ forall t, In t rows -> before t b = false).
Proof.
  pose proof (first_by_fold before Hirr Htrans rows None []
                (fun _ => eq_refl) (fun b H => ltac:(discriminate))) as [H1 H2].
  simpl in H1, H2. split; [split|].
  - exact H1.
  - intros ->. reflexivity.
  - exact H2.
Qed.

Lemma case01_range (c : bool) : Sql.case01 c = 0 \/ Sql.case01 c = 1.
Proof. destruct c; auto. Qed.

Lemma tokens_before_irrefl (q : string) (a : Token) : TokensService.before q a a = false.
Proof.
  unfold TokensService.before. destruct (TokensService.order_keys q a) as [[a1 a2] a3].
  rewrite !Z.ltb_irrefl, !Z.eqb_refl. reflexivity.
Qed.

(** [before] in logical form. *)
Lemma tokens_before_iff (q : string) (a b : Token) :
  TokensService.before q a b = true <->
  let '(a1, a2, a3) := TokensService.order_keys q a in
  let '(b1, b2, b3) := TokensService.order_keys q b in
  a1 < b1 \/ (a1 = b1 /\ (a2 < b2 \/ (a2 = b2 /\ (a3 < b3 \/
    (a3 = b3 /\ token_id b < token_id a))))).
Proof.
  unfold TokensService.before.
  destruct (TokensService.order_keys q a) as [[a1 a2] a3].
  destruct (TokensService.order_keys q b) as [[b1 b2] b3].
  rewrite !orb_true_iff, !andb_true_iff, !orb_true_iff, !andb_true_iff,
    !orb_true_iff, !andb_true_iff, !Z.ltb_lt, !Z.eqb_eq.
  reflexivity.
Qed.

Lemma tokens_before_trans (q : string) (a b c : Token) :
  TokensService.before q a b = true -> TokensService.before q b c = true ->
  TokensService.before q a c = true.
Proof.
  rewrite !tokens_before_iff.
  destruct (TokensService.order_keys q a) as [[a1 a2] a3].
  destruct (TokensService.order_keys q b) as [[b1 b2] b3].
  destruct (TokensService.order_keys q c) as [[c1 c2] c3].
  lia.
Qed.

(** [LIKE] with a pattern free of wildcards is equality, and never
    raises. *)
Lemma MatchText_literal (p : list ascii) :
  forallb (fun c => negb (Sql.is_special c)) p = true ->
  forall s : list ascii,
    (Sql.MatchText p s = Sql.LIKE_TRUE <-> p = s)
    /\ Sql.MatchText p s <> Sql.LIKE_ERROR.
Proof.
  induction p as [|c p IH]; intros Hp s.
  - destruct s; cbn; split; [split|discriminate|split|discriminate]; congruence.
  - cbn [forallb] in Hp. apply andb_prop in Hp as [Hc Hp].
    unfold Sql.is_special in Hc. rewrite !negb_orb in Hc.
    apply andb_prop in Hc as [Hc H3]. apply andb_prop in Hc as [H1 H2].
    apply negb_true_iff in H1, H2, H3.
    destruct s as [|d s].
    + cbn [Sql.MatchText forallb].
      rewrite Ascii.eqb_sym, H1. cbn [andb].
      split; [split; discriminate | discriminate].
    + cbn [Sql.MatchText]. rewrite H1, H2, H3.
      destruct (Ascii.eqb_spec c d) as [<- | N].
      * destruct (IH Hp s) as [I1 I2]. split; [|exact I2].
        rewrite I1. split; [intros ->; reflexivity | intros [= ->]; reflexivity].
      * split; [split; [discriminate | intros [= E _]; contradiction] | discriminate].
Qed.

Lemma like_literal (p : list ascii) :
  forallb (fun c => negb (Sql.is_special c)) p = true ->
  forall s : list ascii,
    Sql.like p s <> None /\ (Sql.like p s = Some true <-> p = s).
Proof.
  intros Hp s. destruct (MatchText_literal p Hp s) as [H1 H2].
  unfold Sql.like. destruct (Sql.MatchText p s); split; try discriminate;
    try (exfalso; apply H2; reflexivity).
  - split; [intros _; apply H1; reflexivity | reflexivity].
  - split; [discriminate | intros E; apply H1 in E; discriminate].
  - split; [discriminate | intros E; apply H1 in E; discriminate].
Qed.

(** The matcher raises only on a pattern that ends in a lone backslash. *)
Lemma MatchText_error_bounded (n : nat) :
  forall p : list ascii, (length p <= n)%nat ->
    Sql.ends_in_escape_from false p = false ->
    forall t, Sql.MatchText p t <> Sql.LIKE_ERROR
              /\ Sql.after_percent p t <> Sql.LIKE_ERROR.
Proof.
  induction n as [|n IH]; intros p Hlen He t.
  - destruct p; [|cbn in Hlen; lia].
    split; [destruct t; cbn; discriminate | cbn; discriminate].
  - destruct p as [|c p']; [split; [destruct t; cbn; discriminate | cbn; discriminate]|].
    cbn [length] in Hlen. cbn [Sql.ends_in_escape_from] in He.
    destruct (Ascii.eqb c "\") eqn:Ec.
    + (* an escape: another character follows *)
      destruct p' as [|e p'']; [discriminate He|].
      cbn [Sql.ends_in_escape_from] in He. cbn [length] in Hlen.
      assert (Hrec : forall u, Sql.MatchText p'' u <> Sql.LIKE_ERROR).
      { intro u. apply (IH p''); [lia | exact He]. }
      split.
      * destruct t as [|d t']; cbn [Sql.MatchText].
        -- destruct (forallb _ _); discriminate.
        -- rewrite Ec. destruct (Ascii.eqb e d); [apply Hrec | discriminate].
      * cbn [Sql.after_percent].
        apply Ascii.eqb_eq in Ec. subst c. cbn [Ascii.eqb Bool.eqb andb].
        induction t as [|d t' IHt]; [discriminate|].
        destruct (Ascii.eqb d e); [|exact IHt].
        pose proof (Hrec t') as Hr.
        destruct (Sql.MatchText p'' t'); try discriminate; [exact IHt | contradiction].
    + assert (Hm : forall u, Sql.MatchText p' u <> Sql.LIKE_ERROR).
      { intro u. apply (IH p'); [lia | exact He]. }
      assert (Ha : forall u, Sql.after_percent p' u <> Sql.LIKE_ERROR).
      { intro u. apply (IH p'); [lia | exact He]. }
      split.
      * destruct t as [|d t']; cbn [Sql.MatchText].
        -- destruct (forallb _ _); discriminate.
        -- rewrite Ec. destruct (Ascii.eqb c "%"); [apply Ha|].
           destruct (Ascii.eqb c "_"); [apply Hm|].
           destruct (Ascii.eqb c d); [apply Hm | discriminate].
      * cbn [Sql.after_percent]. destruct (Ascii.eqb c "%"); [apply Ha|].
        destruct (Ascii.eqb c "_"); [destruct t; [discriminate | apply Ha]|].
        rewrite Ec.
        induction t as [|d t' IHt]; [discriminate|].
        destruct (Ascii.eqb d c); [|exact IHt].
        pose proof (Hm t') as Hr.
        destruct (Sql.MatchText p' t'); try discriminate; [exact IHt | contradiction].
Qed.

Lemma lower_ascii_backslash (c : ascii) :
  Ascii.eqb (Str.lower_ascii c) "\" = Ascii.eqb c "\".
Proof. destruct c as [[] [] [] [] [] [] [] []]; reflexivity. Qed.

Lemma ends_in_escape_lower (q : string) :
  Sql.ends_in_escape (Str.toLowerCase q) = Sql.ends_in_escape q.
Proof.
  unfold Sql.ends_in_escape. generalize false.
  induction q as [|c q IH]; intro esc; [reflexivity|].
  cbn [Str.toLowerCase list_ascii_of_string Sql.ends_in_escape_from].
  rewrite lower_ascii_backslash. apply IH.
Qed.

(** [ILIKE] raises only on a pattern that ends in a lone backslash. *)
Lemma ilike_error (text pattern : string) :
  Sql.ilike text pattern = None -> Sql.ends_in_escape pattern = true.
Proof.
  unfold Sql.ilike, Sql.like. intro H.
  destruct (Sql.ends_in_escape pattern) eqn:E; [reflexivity|].
  rewrite <- ends_in_escape_lower in E.
  destruct (MatchText_error_bounded _ _ (le_n _) E
              (list_ascii_of_string (Str.toLowerCase text))) as [Hm _].
  destruct (Sql.MatchText _ _); try discriminate H. contradiction.
Qed.

Lemma lower_ascii_special (c : ascii) :
  Sql.is_special (Str.lower_ascii c) = Sql.is_special c.
Proof. destruct c as [[] [] [] [] [] [] [] []]; reflexivity. Qed.

Lemma literal_lower (p : string) :
  Sql.literal p = true -> Sql.literal (Str.toLowerCase p) = true.
Proof.
  unfold Sql.literal. induction p as [|c p IH]; [reflexivity|].
  simpl. rewrite lower_ascii_special.
  intros H. apply andb_prop in H as [Hc Hp]. rewrite Hc, (IH Hp). reflexivity.
Qed.

Lemma list_ascii_of_string_inj (a b : string) :
  list_ascii_of_string a = list_ascii_of_string b -> a = b.
Proof.
  intros H. rewrite <- (string_of_list_ascii_of_string a),
    <- (string_of_list_ascii_of_string b), H. reflexivity.
Qed.

(** [ILIKE] with a pattern free of wildcards is equality up to case: the
    whole text, not a part of it. *)
Lemma ilike_literal (text pattern : string) :
  Sql.literal pattern = true ->
  Sql.ilike text pattern
  = Some (String.eqb (Str.toLowerCase text) (Str.toLowerCase pattern)).
Proof.
  intros Hl. apply literal_lower in Hl. unfold Sql.ilike.
  destruct (like_literal _ Hl (list_ascii_of_string (Str.toLowerCase text))) as [Hn H].
  destruct (String.eqb_spec (Str.toLowerCase text) (Str.toLowerCase pattern)) as [E|N].
  - apply H. rewrite E. reflexivity.
  - destruct (Sql.like _ _) as [[|]|]; [|reflexivity|contradiction].
    exfalso. apply N. symmetry. apply list_ascii_of_string_inj. apply H. reflexivity.
Qed.

Lemma case01_zero (c : bool) : Sql.case01 c = 0 <-> c = true.
Proof. destruct c; simpl; split; congruence. Qed.

Lemma col_eqb_true (col : option string) (q : string) :
  Str.col_eqb col q = true <-> col = Some q.
Proof.
  destruct col as [v|]; simpl; [|split; discriminate].
  rewrite String.eqb_eq. split; congruence.
Qed.

Lemma col_lower_eqb_true (col : option string) (q : string) :
  Sql.col_lower_eqb col q = true <->
  exists v, col = Some v /\ Str.toLowerCase v = Str.toLowerCase q.
Proof.
  destruct col as [v|]; simpl.
  - rewrite String.eqb_eq. split; [eauto | intros (v' & [= <-] & E); exact E].
  - split; [discriminate | intros (v' & E & _); discriminate].
Qed.

Lemma col_ilike_true (col : option string) (q : string) :
  Sql.col_ilike col q = Some true <-> exists v, col = Some v /\ Sql.ilike v q = Some true.
Proof.
  destruct col as [v|]; simpl.
  - split; [eauto | intros (v' & [= <-] & E); exact E].
  - split; [discriminate | intros (v' & E & _); discriminate].
Qed.

(** The [WHERE] clause raises only when the name is compared with a
    pattern that ends in a lone backslash. *)
Lemma tokens_where_raises (q : string) (t : Token) :
  TokensService.where_ q t = None ->
  Sql.ends_in_escape q = true
  /\ (exists v, name t = Some v /\ Sql.ilike v q = None)
  /\ denom t <> q
  /\ Str.toLowerCase (denom t) <> Str.toLowerCase q
  /\ Sql.col_lower_eqb (symbol t) q = false.
Proof.
  unfold TokensService.where_.
  destruct (String.eqb_spec (denom t) q) as [E1|N1]; [discriminate|].
  destruct (String.eqb_spec (Str.toLowerCase (denom t)) (Str.toLowerCase q)) as [E2|N2];
    [discriminate|].
  destruct (Str.col_eqb (symbol t) q); [discriminate|].
  destruct (Sql.col_lower_eqb (symbol t) q); [discriminate|].
  cbn [orb]. unfold Sql.col_ilike.
  destruct (name t) as [v|]; [|discriminate].
  destruct (Sql.ilike v q) as [[|]|] eqn:E; try discriminate.
  intros _. split; [exact (ilike_error v q E)|]. split; [exists v; auto|]. auto.
Qed.

(** The [WHERE] clause of the tokens service in logical form, on a row
    where it does not raise. *)
Lemma tokens_where_iff (q : string) (t : Token) :
  TokensService.where_ q t <> None ->
  (TokensService.where_ q t = Some true <->
   denom t = q
   \/ Str.toLowerCase (denom t) = Str.toLowerCase q
   \/ symbol t = Some q
   \/ (exists v, symbol t = Some v /\ Str.toLowerCase v = Str.toLowerCase q)
   \/ (exists v, name t = Some v /\ Sql.ilike v q = Some true)
   \/ Sql.int_text (token_id t) = q).
Proof.
  unfold TokensService.where_.
  rewrite <- (col_eqb_true (symbol t) q), <- (col_lower_eqb_true (symbol t) q),
    <- (col_ilike_true (name t) q).
  destruct (String.eqb_spec (denom t) q) as [E1|N1]; [intros _; split; auto|].
  destruct (String.eqb_spec (Str.toLowerCase (denom t)) (Str.toLowerCase q)) as [E2|N2];
    [intros _; split; auto|].
  destruct (Str.col_eqb (symbol t) q); [intros _; split; auto|].
  destruct (Sql.col_lower_eqb (symbol t) q); [intros _; split; auto 6|].
  cbn [orb].
  destruct (Sql.col_ilike (name t) q) as [[|]|]; [intros _; split; auto 6| |contradiction].
  intros _. destruct (String.eqb_spec (Sql.int_text (token_id t)) q) as [E|N].
  - split; auto 7.
  - split; [discriminate|].
    intros [H | [H | [H | [H | [H | H]]]]]; try contradiction; discriminate.
Qed.


#[local] Open Scope string_scope.



(** The resolver of the swap service matches the denom only exactly and
    has no name clause. *)
Lemma swap_resolveTokenId_narrower :
  SwapService.resolveTokenId
    [mkToken 1 "uzig" (Some "ZIG") (Some "ZIGChain") (Some 6)] "UZIG" = None
  /\ TokensService.resolveTokenId
       [mkToken 1 "uzig" (Some "ZIG") (Some "ZIGChain") (Some 6)] "UZIG"
     = Returns (Some (mkToken 1 "uzig" (Some "ZIG") (Some "ZIGChain") (Some 6))).
Proof. split; vm_compute; reflexivity. Qed.

End ResolverFacts.

(** ** The native-currency test *)

Section NativeFacts.

#[local] Open Scope string_scope.

(** C8, as the code has it. The test reads the denom when it is present
    and not empty, and the symbol only otherwise; the value read,
    lower-cased, is compared with [uzig] and [zig]. *)
Theorem isUzigToken_first_nonempty (d s : option string) :
  (forall v : string, d = Some v -> v <> "" ->
     isUzigToken (TokObject d s) = true <->
     Str.toLowerCase v = "uzig" \/ Str.toLowerCase v = "zig")
  /\ (Str.falsy d = true ->
      forall v : string, s = Some v ->
        isUzigToken (TokObject d s) = true <->
        Str.toLowerCase v = "uzig" \/ Str.toLowerCase v = "zig")
  /\ (Str.falsy d = true -> s = None -> isUzigToken (TokObject d s) = false).
Proof.
  split; [|split].
  - intros v -> Hne. unfold isUzigToken, Str.or_else.
    destruct v as [|c r]; [now destruct Hne|]. cbn [Str.falsy].
    rewrite orb_true_iff, !String.eqb_eq. reflexivity.
  - intros Hd v ->. unfold isUzigToken, Str.or_else. rewrite Hd.
    destruct v as [|c r].
    + cbn. split; [discriminate | intros [H | H]; discriminate].
    + cbn [Str.falsy]. rewrite orb_true_iff, !String.eqb_eq. reflexivity.
  - intros Hd ->. unfold isUzigToken, Str.or_else. rewrite Hd. reflexivity.
Qed.

Lemma isUzigToken_first_nonempty_witness :
  isUzigToken (TokObject (Some "uzig") (Some "ZIG")) = true
  /\ isUzigToken (TokObject None (Some "ZIG")) = true.
Proof.
  split.
  - apply (proj1 (isUzigToken_first_nonempty (Some "uzig") (Some "ZIG")) "uzig" eq_refl);
      [discriminate | left; reflexivity].
  - apply (proj1 (proj2 (isUzigToken_first_nonempty None (Some "ZIG"))) eq_refl "ZIG" eq_refl).
    right. reflexivity.
Defined.

(** C8, the test as stated: a token whose denom is something
    else and whose symbol is [ZIG] is not recognized. *)
Lemma isUzigToken_symbol_not_consulted :
  Str.toLowerCase "ZIG" = "zig"
  /\ isUzigToken (TokObject (Some "ibc/27394FB0") (Some "ZIG")) = false
  /\ isUzigTokenRow (mkToken 9 "ibc/27394FB0" (Some "ZIG") (Some "Zig") (Some 6)) = false.
Proof. repeat split; reflexivity. Qed.

End NativeFacts.

(** ** Trade classification *)

Section ClassFacts.

#[local] Open Scope Q_scope.

Lemma scale_uzig_leg (a : Q) : scale (Some a) (Some 6%Z) 6 = Some (a / Qpower 10 6).
Proof. reflexivity. Qed.

(** C9. A worth below 1000 is a shrimp, one from 1000 to 10000 inclusive a
    shark, one above 10000 a whale.  The worth basis of a shaped trade is
    the amount of its native-currency leg when the offer or the ask asset
    is the native currency (and that amount is present), the computed
    valueNative otherwise; the worth is the basis itself in native units
    and the basis times the rate at the trade in dollars, and the class is
    the bucket of that worth; with no basis there is no worth and no
    class, in either unit. *)
Theorem classify_thresholds_and_worth_basis
    (x : Q) (r : TradeRow) (item : Shaped) (unit : Unit_) (zigUsd : Q) :
  ((x < 1000 -> classifyByThreshold x = shrimp)
   /\ (1000 <= x -> x <= 10000 -> classifyByThreshold x = shark)
   /\ (10000 < x -> classifyByThreshold x = whale))
  /\ (classifyByThreshold 999.99 = shrimp /\ classifyByThreshold 1000 = shark
      /\ classifyByThreshold 10000 = shark /\ classifyByThreshold 10000.01 = whale)
  /\ (forall a : Q,
        offer_asset_denom r = Some "uzig"%string -> offer_amount_base r = Some a ->
        zigLegAmount (shapeRow r unit zigUsd) = Some (a / Qpower 10 6))
  /\ (forall a : Q,
        offer_asset_denom r <> Some "uzig"%string ->
        ask_asset_denom r = Some "uzig"%string -> ask_amount_base r = Some a ->
        zigLegAmount (shapeRow r unit zigUsd) = Some (a / Qpower 10 6))
  /\ (offer_asset_denom r <> Some "uzig"%string ->
      ask_asset_denom r <> Some "uzig"%string ->
      zigLegAmount (shapeRow r unit zigUsd) = None)
  /\ (forall z : Q, zigLegAmount item = Some z ->
        worthForClass item UnitZig zigUsd = Some z
        /\ classOf item UnitZig zigUsd = Some (classifyByThreshold z)
        /\ worthForClass item UnitUsd zigUsd = Some (z * rate_at_trade item zigUsd)
        /\ classOf item UnitUsd zigUsd
           = Some (classifyByThreshold (z * rate_at_trade item zigUsd)))
  /\ (forall v : Q, zigLegAmount item = None -> valueNative item = Some v ->
        worthForClass item UnitZig zigUsd = Some v
        /\ classOf item UnitZig zigUsd = Some (classifyByThreshold v)
        /\ worthForClass item UnitUsd zigUsd = Some (v * rate_at_trade item zigUsd)
        /\ classOf item UnitUsd zigUsd
           = Some (classifyByThreshold (v * rate_at_trade item zigUsd)))
  /\ (zigLegAmount item = None -> valueNative item = None ->
      worthForClass item unit zigUsd = None /\ classOf item unit zigUsd = None)
  /\ (zig_usd_at_trade (shapeRow r unit zigUsd)
      = Some (match fx_zig_usd r with Some f => f | None => zigUsd end)).
Proof.
  split; [|split; [|split; [|split; [|split; [|split; [|split; [|split]]]]]]].
  - unfold classifyByThreshold. split; [|split].
    + intros H. rewrite (proj2 (NumFacts.ltb_true x 1000) H). reflexivity.
    + intros H1 H2. rewrite (proj2 (NumFacts.ltb_false x 1000) H1),
        (proj2 (NumFacts.leb_true x 10000) H2). reflexivity.
    + intros H. rewrite (proj2 (NumFacts.ltb_false x 1000)) by lra.
      rewrite (proj2 (NumFacts.leb_false x 10000) H). reflexivity.
  - repeat split; reflexivity.
  - intros a Hd Ha. unfold shapeRow. cbn [zigLegAmount].
    unfold denom_is_uzig. rewrite Hd, Ha. reflexivity.
  - intros a Ho Hd Ha. unfold shapeRow. cbn [zigLegAmount].
    assert (E : denom_is_uzig (offer_asset_denom r) = false).
    { apply not_true_is_false. unfold denom_is_uzig. rewrite col_eqb_true. exact Ho. }
    unfold denom_is_uzig in *. rewrite E, Hd, Ha. reflexivity.
  - intros Ho Hk. unfold shapeRow. cbn [zigLegAmount].
    assert (E1 : denom_is_uzig (offer_asset_denom r) = false).
    { apply not_true_is_false. unfold denom_is_uzig. rewrite col_eqb_true. exact Ho. }
    assert (E2 : denom_is_uzig (ask_asset_denom r) = false).
    { apply not_true_is_false. unfold denom_is_uzig. rewrite col_eqb_true. exact Hk. }
    rewrite E1, E2. reflexivity.
  - intros z Hz. unfold classOf, worthForClass, rate_at_trade. rewrite Hz.
    repeat split; reflexivity.
  - intros v Hz Hv. unfold classOf, worthForClass, rate_at_trade. rewrite Hz, Hv.
    repeat split; reflexivity.
  - intros Hz Hv. unfold classOf, worthForClass. rewrite Hz, Hv. split; reflexivity.
  - reflexivity.
Qed.

Lemma classify_thresholds_and_worth_basis_witness :
  let r := mkTradeRow (Some Buy) (Some "uzig"%string) (Some "coin.zig1abc.meme"%string)
             (Some 2500000000) None (Some 31000000) None (Some 6%Z) (Some 6%Z)
             (Some 6%Z) true None (Some 0.08) in
  classifyByThreshold 2500 = shark
  /\ zigLegAmount (shapeRow r UnitUsd 0.1) = Some (2500000000 / Qpower 10 6)
  /\ worthForClass (shapeRow r UnitUsd 0.1) UnitUsd 0.1
     = Some (2500000000 / Qpower 10 6 * 0.08)
  /\ classOf (shapeRow r UnitUsd 0.1) UnitUsd 0.1 = Some shrimp
  /\ classOf (shapeRow r UnitUsd 0.1) UnitZig 0.1 = Some shark.
Proof.
  intro r.
  pose proof (classify_thresholds_and_worth_basis 2500 r (shapeRow r UnitUsd 0.1) UnitUsd 0.1)
    as ((_ & Hshark & _) & _ & Hleg & _ & _ & Hbasis & _).
  assert (Hz : zigLegAmount (shapeRow r UnitUsd 0.1) = Some (2500000000 / Qpower 10 6)).
  { apply Hleg; reflexivity. }
  destruct (Hbasis _ Hz) as (_ & Hcz & Hwu & Hcu).
  split; [|split; [|split; [|split]]].
  - apply Hshark; discriminate.
  - exact Hz.
  - exact Hwu.
  - rewrite Hcu. reflexivity.
  - rewrite Hcz. reflexivity.
Defined.

End ClassFacts.

(** ** Price change per bucket *)

Section ChangeFacts.

#[local] Open Scope Q_scope.

Variable ohlcv_1m : list Ohlcv1m.
Variable now : Z.

Lemma latest_spec (rows : list Ohlcv1m) :
  (latest rows = None <-> rows = [])
  /\ (forall l, latest rows = Some l ->
        In l rows /\ forall o, In o rows -> (bucket_start o <= bucket_start l)%Z).
Proof.
  unfold latest.
  destruct (first_by_spec (fun a b => (bucket_start b <? bucket_start a)%Z)
              (fun a => Z.ltb_irrefl _)
              ltac:(intros a b c; rewrite !Z.ltb_lt; lia) rows) as [Hn Hs].
  split; [exact Hn|].
  intros l Hl. destruct (Hs l Hl) as [Hin Hmin]. split; [exact Hin|].
  intros o Ho. specialize (Hmin o Ho). apply Z.ltb_ge in Hmin. exact Hmin.
Qed.

Lemma inv_nonzero (x : Q) : ~ x == 0 -> ~ 1 / x == 0.
Proof.
  intros Hx E. apply Hx.
  assert (H : x * (1 / x) == 1) by (field; exact Hx).
  rewrite E in H. rewrite Qmult_0_r in H. discriminate H.
Qed.

Lemma recip_cases (x : Q) :
  ~ x == 0 ->
  (Qabs (1 / x) < Flt.huge /\ Flt.recip x = Flt.Fin (1 / x))
  \/ (Flt.huge <= Qabs (1 / x) /\ (Flt.recip x = Flt.PInf \/ Flt.recip x = Flt.NInf)).
Proof.
  intro Hx. unfold Flt.recip.
  destruct (Qeq_bool x 0) eqn:E; [apply Qeq_bool_iff in E; contradiction|].
  destruct (FltFacts.overflow_cases (1 / x)) as [[H ->] | [[H ->] | (H1 & H2 & ->)]].
  - right. split; [|left; reflexivity]. pose proof (Qle_Qabs (1 / x)). lra.
  - right. split; [|right; reflexivity].
    pose proof (Qle_Qabs (- (1 / x))) as Ha. rewrite Qabs_opp in Ha. lra.
  - left. split; [|reflexivity]. apply Qabs_Qlt_condition. split; assumption.
Qed.

Lemma recip_fin (x q : Q) :
  ~ x == 0 -> Flt.recip x = Flt.Fin q -> q = 1 / x /\ Qabs (1 / x) < Flt.huge.
Proof.
  intros Hx E. destruct (recip_cases x Hx) as [[H E'] | [_ [E' | E']]];
    rewrite E' in E; try discriminate E.
  injection E as <-. split; [reflexivity | exact H].
Qed.

Lemma recip_finite_iff (x : Q) :
  ~ x == 0 -> (Flt.isFinite (Flt.recip x) = true <-> Qabs (1 / x) < Flt.huge).
Proof.
  intro Hx. destruct (recip_cases x Hx) as [[H ->] | [H [-> | ->]]]; cbn [Flt.isFinite];
    split; intro H'; try reflexivity; try assumption; try discriminate H'; lra.
Qed.

Lemma recip_not_zero (x : Q) : ~ x == 0 -> Flt.is_zero (Flt.recip x) = false.
Proof.
  intro Hx. destruct (recip_cases x Hx) as [[_ ->] | [_ [-> | ->]]]; try reflexivity.
  cbn [Flt.is_zero]. apply not_true_is_false. intro E. apply Qeq_bool_iff in E.
  exact (inv_nonzero x Hx E).
Qed.

(** The inverted change without the guard is not a finite number as soon
    as a reciprocal is not. *)
Lemma pct_not_finite (a b : Flt.t) :
  Flt.isFinite a = false \/ Flt.isFinite b = false ->
  a <> Flt.NaN -> b <> Flt.NaN ->
  Flt.isFinite (Flt.mul (Flt.div (Flt.sub a b) b) (Flt.Fin 100)) = false.
Proof.
  intros H Ha Hb.
  destruct a as [| | |a], b as [| | |b]; try contradiction; try reflexivity;
    try (destruct H as [H | H]; discriminate H);
    cbn [Flt.sub Flt.div]; destruct (Qle_bool 0 b); reflexivity.
Qed.


End ChangeFacts.


(** Two closes of 1e-320: their reciprocals are infinities, so the
    inverted change is null, where [zigChangeFromUsdcPool] returns [NaN];
    the direct change is 0. *)
Lemma change_of_tiny_closes :
  let bars := [mkOhlcv1m 4 0 (Some (1 # 10 ^ 320)%Q);
               mkOhlcv1m 4 3600000000 (Some (1 # 10 ^ 320)%Q)] in
  changePctForMinutes bars 3600000000 4 60 true = None
  /\ zigChangeFromUsdcPool bars 3600000000 4 60 = Some Flt.NaN
  /\ exists p : Q, changePctForMinutes bars 3600000000 4 60 false = Some p /\ (p == 0)%Q.
Proof.
  split; [vm_compute; reflexivity|]. split; [vm_compute; reflexivity|].
  eexists. split; [vm_compute; reflexivity | reflexivity].
Qed.

(** ** Pool selection *)

Section PoolFacts.

#[local] Open Scope Q_scope.

(** [ORDER BY ... LIMIT 1] over a strict total preorder: the row returned
    is strictly before every row in front of it and not after any row
    behind it. *)
Lemma first_by_fold_split {A : Type} (before : A -> A -> bool)
    (Hirr : forall a, before a a = false)
    (Htrans : forall a b c, before a b = true -> before b c = true -> before a c = true)
    (Hco : forall a b c, before a b = true -> before c b = false -> before a c = true)
    (rows : list A) :
  forall (acc : option A) (seen : list A),
    (acc = None -> seen = []) ->
    (forall b, acc = Some b ->
       exists l1 l2, seen = l1 ++ b :: l2
         /\ (forall t, In t l1 -> before b t = true)
         /\ (forall t, In t l2 -> before t b = false)) ->
    let r := foldl (fun best t =>
                      match best with
                      | None => Some t
                      | Some b => if before t b then Some t else Some b
                      end) acc rows in
    (r = None -> seen ++ rows = [])
    /\ (forall b, r = Some b ->
          exists l1 l2, seen ++ rows = l1 ++ b :: l2
            /\ (forall t, In t l1 -> before b t = true)
            /\ (forall t, In t l2 -> before t b = false)).
Proof.
  induction rows as [|x rows IH]; intros acc seen Hn Hs.
  - simpl. rewrite app_nil_r. split; assumption.
  - rewrite foldl_step.
    replace (seen ++ x :: rows) with ((seen ++ [x]) ++ rows)
      by (rewrite <- app_assoc; reflexivity).
    apply IH.
    + destruct acc as [b|]; [destruct (before x b)|]; discriminate.
    + intros b' Hb'. destruct acc as [b|].
      * destruct (Hs b eq_refl) as (l1 & l2 & -> & H1 & H2).
        destruct (before x b) eqn:Exb; injection Hb' as <-.
        -- exists (l1 ++ b :: l2), []. split; [reflexivity|]. split; [|intros t []].
           intros t Ht. apply in_app_or in Ht as [Ht | [<- | Ht]].
           ++ eapply Htrans; [exact Exb | apply H1, Ht].
           ++ exact Exb.
           ++ eapply Hco; [exact Exb | apply H2, Ht].
        -- exists l1, (l2 ++ [x]). split; [rewrite <- app_assoc; reflexivity|].
           split; [exact H1|].
           intros t Ht. apply in_app_or in Ht as [Ht | [<- | []]]; [apply H2, Ht | exact Exb].
      * injection Hb' as <-. rewrite (Hn eq_refl).
        exists [], []. split; [reflexivity|]. split; intros t [].
Qed.

Lemma first_by_split {A : Type} (before : A -> A -> bool)
    (Hirr : forall a, before a a = false)
    (Htrans : forall a b c, before a b = true -> before b c = true -> before a c = true)
    (Hco : forall a b c, before a b = true -> before c b = false -> before a c = true)
    (rows : list A) (b : A) :
  Sql.first_by before rows = Some b ->
  exists l1 l2, rows = l1 ++ b :: l2
    /\ (forall t, In t l1 -> before b t = true)
    /\ (forall t, In t l2 -> before t b = false).
Proof.
  intros H.
  pose proof (first_by_fold_split before Hirr Htrans Hco rows None []
                (fun _ => eq_refl) (fun b H => ltac:(discriminate))) as [_ H2].
  exact (H2 b H).
Qed.

Lemma foldl_map_step {A B C : Type} (f : C -> B -> C) (g : A -> B) (l : list A) :
  forall acc, foldl (fun a x => f a (g x)) acc l = foldl f acc (List.map g l).
Proof. induction l as [|x l IH]; intros acc; [reflexivity|]. simpl. apply IH. Qed.

(** The loop of [pickBySimulation] is a first-by-score over the
    candidates. *)
Lemma pickBySimulation_first_by (pools : list Pool) (fromIsZig : bool) (amountIn : Q) :
  pickBySimulation pools fromIsZig amountIn
  = Sql.first_by (fun c b => Flt.gtb (c_score c) (c_score b))
      (List.map (candidate fromIsZig amountIn) pools).
Proof.
  unfold pickBySimulation, Sql.first_by.
  rewrite <- (foldl_map_step
                (fun best c =>
                   match best with
                   | None => Some c
                   | Some b => if Flt.gtb (c_score c) (c_score b) then Some c else Some b
                   end) (candidate fromIsZig amountIn)).
  reflexivity.
Qed.

Lemma map_split_inv {A B : Type} (f : A -> B) (l : list A) (l1 l2 : list B) (y : B) :
  List.map f l = l1 ++ y :: l2 ->
  exists k1 x k2, l = k1 ++ x :: k2 /\ List.map f k1 = l1 /\ f x = y /\ List.map f k2 = l2.
Proof.
  revert l1. induction l as [|a l IH]; intros l1 H.
  - destruct l1; discriminate.
  - destruct l1 as [|b l1]; simpl in H; injection H as Ha Hl.
    + exists [], a, l. auto.
    + destruct (IH l1 Hl) as (k1 & x & k2 & -> & E1 & E2 & E3).
      exists (a :: k1), x, k2. simpl. rewrite E1, Ha. auto.
Qed.

(** A loop that keeps the first row no later row beats: no row in front
    of the row kept reaches it, no row behind it beats it.  Stated for a
    comparison [beats] and its weak form [reaches], which need not be
    total (a score that is not a number beats nothing and reaches
    nothing). *)
Lemma first_by_fold_keep {A : Type} (beats reaches : A -> A -> bool)
    (Hchain : forall t x b, beats t b = false -> beats x b = true -> reaches t x = false)
    (Hflip : forall x b, beats x b = true -> reaches b x = false)
    (Hweak : forall t b, reaches t b = false -> beats t b = false)
    (rows : list A) :
  forall (acc : option A) (seen : list A),
    (acc = None -> seen = []) ->
    (forall b, acc = Some b ->
       exists l1 l2, seen = l1 ++ b :: l2
         /\ (forall t, In t l1 -> reaches t b = false)
         /\ (forall t, In t l2 -> beats t b = false)) ->
    let r := foldl (fun best t =>
                      match best with
                      | None => Some t
                      | Some b => if beats t b then Some t else Some b
                      end) acc rows in
    (r = None -> seen ++ rows = [])
    /\ (forall b, r = Some b ->
          exists l1 l2, seen ++ rows = l1 ++ b :: l2
            /\ (forall t, In t l1 -> reaches t b = false)
            /\ (forall t, In t l2 -> beats t b = false)).
Proof.
  induction rows as [|x rows IH]; intros acc seen Hn Hs.
  - simpl. rewrite app_nil_r. split; assumption.
  - rewrite foldl_step.
    replace (seen ++ x :: rows) with ((seen ++ [x]) ++ rows)
      by (rewrite <- app_assoc; reflexivity).
    apply IH.
    + destruct acc as [b|]; [destruct (beats x b)|]; discriminate.
    + intros b' Hb'. destruct acc as [b|].
      * destruct (Hs b eq_refl) as (l1 & l2 & -> & H1 & H2).
        destruct (beats x b) eqn:Exb; injection Hb' as <-.
        -- exists (l1 ++ b :: l2), []. split; [reflexivity|]. split; [|intros t []].
           intros t Ht. apply in_app_or in Ht as [Ht | [<- | Ht]].
           ++ eapply Hchain; [apply Hweak, H1, Ht | exact Exb].
           ++ apply Hflip. exact Exb.
           ++ eapply Hchain; [apply H2, Ht | exact Exb].
        -- exists l1, (l2 ++ [x]). split; [rewrite <- app_assoc; reflexivity|].
           split; [exact H1|].
           intros t Ht. apply in_app_or in Ht as [Ht | [<- | []]]; [apply H2, Ht | exact Exb].
      * injection Hb' as <-. rewrite (Hn eq_refl).
        exists [], []. split; [reflexivity|]. split; intros t [].
Qed.

(** The pool [pickBySimulation] keeps. *)
Lemma pickBySimulation_first_max
    (pools : list Pool) (fromIsZig : bool) (amountIn : Q) :
  (pickBySimulation pools fromIsZig amountIn = None <-> pools = [])
  /\ (forall best : Cand,
        pickBySimulation pools fromIsZig amountIn = Some best ->
        exists (l1 : list Pool) (p : Pool) (l2 : list Pool),
          pools = l1 ++ p :: l2
          /\ best = candidate fromIsZig amountIn p
          /\ (forall p', In p' l1 ->
                Flt.geb (c_score (candidate fromIsZig amountIn p')) (c_score best) = false)
          /\ (forall p', In p' l2 ->
                Flt.gtb (c_score (candidate fromIsZig amountIn p')) (c_score best) = false)).
Proof.
  rewrite pickBySimulation_first_by.
  set (beats := fun c b : Cand => Flt.gtb (c_score c) (c_score b)).
  set (reaches := fun c b : Cand => Flt.geb (c_score c) (c_score b)).
  pose proof (first_by_fold_keep beats reaches
                (fun t x b => FltFacts.gtb_chain (c_score t) (c_score x) (c_score b))
                (fun x b => FltFacts.gtb_geb_flip (c_score x) (c_score b))
                (fun t b => FltFacts.geb_false_gtb (c_score t) (c_score b))
                (List.map (candidate fromIsZig amountIn) pools) None []
                (fun _ => eq_refl) (fun b H => ltac:(discriminate))) as [Hn Hs].
  cbn [app] in Hn, Hs. split.
  - split.
    + intro E. apply Hn in E. apply map_eq_nil in E. exact E.
    + intros ->. reflexivity.
  - intros best Hb.
    destruct (Hs best Hb) as (c1 & c2 & E & H1 & H2).
    destruct (map_split_inv _ _ _ _ _ E) as (l1 & p & l2 & -> & E1 & Ep & E2).
    exists l1, p, l2. split; [reflexivity|]. split; [symmetry; exact Ep|]. split.
    + intros p' Hp'. apply (H1 (candidate fromIsZig amountIn p')).
      rewrite <- E1. apply in_map. exact Hp'.
    + intros p' Hp'. apply (H2 (candidate fromIsZig amountIn p')).
      rewrite <- E2. apply in_map. exact Hp'.
Qed.

(** X1. [pickBySimulation] returns null only for no pools; otherwise it
    returns the candidate of a pool of the list such that no pool before
    it has a score that reaches its score and no pool after it has a score
    above its score: the greatest score, the first pool on a tie.  For
    scores that are numbers this reads: every earlier score is less, every
    later score is less or equal. *)
Theorem pickBySimulation_greatest_score_first_seen
    (pools : list Pool) (fromIsZig : bool) (amountIn : Q) :
  (pickBySimulation pools fromIsZig amountIn = None <-> pools = [])
  /\ (forall best : Cand,
        pickBySimulation pools fromIsZig amountIn = Some best ->
        exists (l1 : list Pool) (p : Pool) (l2 : list Pool),
          pools = l1 ++ p :: l2
          /\ best = candidate fromIsZig amountIn p
          /\ (forall p', In p' l1 ->
                Flt.geb (c_score (candidate fromIsZig amountIn p')) (c_score best) = false
                /\ forall v' v : Q,
                     c_score (candidate fromIsZig amountIn p') = Flt.Fin v' ->
                     c_score best = Flt.Fin v -> v' < v)
          /\ (forall p', In p' l2 ->
                Flt.gtb (c_score (candidate fromIsZig amountIn p')) (c_score best) = false
                /\ forall v' v : Q,
                     c_score (candidate fromIsZig amountIn p') = Flt.Fin v' ->
                     c_score best = Flt.Fin v -> v' <= v)).
Proof.
  destruct (pickBySimulation_first_max pools fromIsZig amountIn) as [Hn Hs].
  split; [exact Hn|]. intros best Hb.
  destruct (Hs best Hb) as (l1 & p & l2 & E & Ep & H1 & H2).
  exists l1, p, l2. split; [exact E|]. split; [exact Ep|]. split.
  - intros p' Hp'. split; [exact (H1 p' Hp')|].
    intros v' v E1 E2. apply FltFacts.geb_fin_false. rewrite <- E1, <- E2. exact (H1 p' Hp').
  - intros p' Hp'. split; [exact (H2 p' Hp')|].
    intros v' v E1 E2. apply FltFacts.gtb_fin_false. rewrite <- E1, <- E2. exact (H2 p' Hp').
Qed.

Lemma pickBySimulation_greatest_score_first_seen_witness :
  exists (l1 : list Pool) (p : Pool) (l2 : list Pool),
    [mkPool 1 "zig1aaa" (Some "xyk") 0.2 0 0 0;
     mkPool 2 "zig1bbb" (Some "xyk_30") 0.2 50000 10000 20000;
     mkPool 3 "zig1ccc" None 0.2 50000 10000 20000]%string = l1 ++ p :: l2
    /\ poolId p = 2%Z.
Proof.
  destruct (proj2 (pickBySimulation_greatest_score_first_seen
              [mkPool 1 "zig1aaa" (Some "xyk") 0.2 0 0 0;
               mkPool 2 "zig1bbb" (Some "xyk_30") 0.2 50000 10000 20000;
               mkPool 3 "zig1ccc" None 0.2 50000 10000 20000]%string false 100)
              (candidate false 100
                 (mkPool 2 "zig1bbb" (Some "xyk_30") 0.2 50000 10000 20000)%string)
              ltac:(vm_compute; reflexivity))
    as (l1 & p & l2 & E & Ec & _).
  exists l1, p, l2. split; [exact E|].
  apply (f_equal (fun c => poolId (c_pool c))) in Ec. symmetry. exact Ec.
Defined.

Lemma candidate_no_reserves (fromIsZig : bool) (amountIn : Q) (p : Pool) :
  hasRes p = false ->
  candidate fromIsZig amountIn p = mkCand p (pairFee (pairType p)) None Flt.zero.
Proof. intros H. unfold candidate. rewrite H. reflexivity. Qed.

(** A pool that pays out has a positive score. *)
Lemma candidate_score_pos (fromIsZig : bool) (amountIn : Q) (p : Pool) :
  0 < amountIn -> pays_out fromIsZig amountIn p = true ->
  Flt.gtb (c_score (candidate fromIsZig amountIn p)) Flt.zero = true.
Proof.
  intros Ha H. unfold pays_out in H. cbv zeta in H.
  apply andb_prop in H as [H H8]. apply andb_prop in H as [H H7].
  apply andb_prop in H as [H H6]. apply andb_prop in H as [H H5].
  apply andb_prop in H as [H H4]. apply andb_prop in H as [H H3].
  apply andb_prop in H as [H1 H2].
  apply negb_true_iff in H3, H4, H5, H6, H7, H8.
  apply NumFacts.leb_false in H3, H4, H5, H6, H7, H8.
  apply Qle_bool_iff in H2.
  unfold candidate. rewrite H1. cbn [c_score].
  unfold hasRes in H1. apply andb_prop in H1 as [Hz Ht].
  apply NumFacts.gtb_true in Hz, Ht.
  pose proof FltFacts.small_pos as Hsp. pose proof FltFacts.huge_gt_1 as Hh1.
  set (fee := pairFee (pairType p)) in *.
  assert (Hf1 : fee < 1) by nra.
  unfold simulateXYK. rewrite (simulateXYK_live amountIn _ _ Hz Ht Ha).
  rewrite (sub_one_fee fee H2 Hf1).
  assert (Hgen : forall R S : Q,
             0 < R -> 0 < S -> R < Flt.huge ->
             Flt.small < amountIn * (1 - fee) * R ->
             S + amountIn * (1 - fee) < Flt.huge ->
             Flt.small < amountIn * (1 - fee) * R / (S + amountIn * (1 - fee)) ->
             Flt.gtb
               (Flt.div (Flt.mul (Flt.mul (Flt.Fin amountIn) (Flt.Fin (1 - fee))) (Flt.Fin R))
                  (Flt.add (Flt.Fin S) (Flt.mul (Flt.Fin amountIn) (Flt.Fin (1 - fee)))))
               Flt.zero = true).
  { intros R S HR HS HRh Hp Hs Hq.
    set (x := amountIn * (1 - fee)) in *.
    assert (Hx0 : 0 < x) by lra.
    assert (Hxa : x <= amountIn) by (unfold x; nra).
    destruct (mul_nonneg_cases amountIn (1 - fee)) as [[Hx _] | [(_ & _ & E) | [Hx _]]];
      [fold x; lra | fold x in Hx; lra | | fold x in Hx; lra].
    fold x in E. rewrite E.
    destruct (add_pos_cases S x) as [[Hs' _] | [_ Es]]; [lra | lra |]. rewrite Es.
    destruct (mul_nonneg_cases x R) as [[Hp' _] | [(_ & _ & Ep) | [_ Ep]]];
      [nra | lra | |]; rewrite Ep.
    - destruct (div_pos_cases (x * R) (S + x)) as [[Hq' _] | [(_ & _ & Ed) | [_ Ed]]];
        [nra | lra | lra | |]; rewrite Ed.
      + cbn [Flt.gtb Flt.zero]. apply NumFacts.gtb_true. lra.
      + reflexivity.
    - cbn [Flt.div]. rewrite (proj2 (Qle_bool_iff 0 (S + x))) by lra. reflexivity. }
  destruct fromIsZig; cbn [out]; apply Hgen; assumption.
Qed.

Lemma candidate_score_guard (fromIsZig : bool) (amountIn : Q) (p : Pool) :
  amountIn <= 0 -> c_score (candidate fromIsZig amountIn p) = Flt.zero.
Proof.
  intros Ha. unfold candidate. destruct (hasRes p); [|reflexivity]. cbn [c_score].
  rewrite simulateXYK_guard; [reflexivity|]. right; right.
  cbn [Flt.gtb Flt.zero]. apply NumFacts.gtb_false. exact Ha.
Qed.

(** When every score is zero the first pool is kept. *)
Lemma pickBySimulation_all_zero (p0 : Pool) (rest : list Pool) (fromIsZig : bool) (amountIn : Q) :
  (forall p, In p (p0 :: rest) -> c_score (candidate fromIsZig amountIn p) = Flt.zero) ->
  pickBySimulation (p0 :: rest) fromIsZig amountIn = Some (candidate fromIsZig amountIn p0).
Proof.
  intros H. unfold pickBySimulation. rewrite foldl_step.
  assert (H0 : c_score (candidate fromIsZig amountIn p0) = Flt.zero)
    by (apply H; left; reflexivity).
  assert (Hr : forall p, In p rest -> c_score (candidate fromIsZig amountIn p) = Flt.zero)
    by (intros p Hp; apply H; right; exact Hp).
  clear H. induction rest as [|x rest IH]; [reflexivity|].
  rewrite foldl_step. rewrite (Hr x (or_introl eq_refl)), H0.
  change (Flt.gtb Flt.zero Flt.zero) with false. cbv iota.
  apply IH. intros p Hp. apply Hr. right. exact Hp.
Qed.



(** X3. When no pool of a non-empty list has reserves, or the amount is
    not positive, every score is 0 and [pickBySimulation] returns the
    candidate of the first pool, with score 0, rather than null. *)
Theorem pickBySimulation_no_liquidity_keeps_first
    (p0 : Pool) (rest : list Pool) (fromIsZig : bool) (amountIn : Q) :
  (forall p, In p (p0 :: rest) -> hasRes p = false) \/ amountIn <= 0 ->
  pickBySimulation (p0 :: rest) fromIsZig amountIn = Some (candidate fromIsZig amountIn p0)
  /\ c_score (candidate fromIsZig amountIn p0) = Flt.zero.
Proof.
  intros H.
  assert (Hz : forall p, In p (p0 :: rest) ->
                 c_score (candidate fromIsZig amountIn p) = Flt.zero).
  { intros p Hp. destruct H as [H | H].
    - rewrite (candidate_no_reserves _ _ _ (H p Hp)). reflexivity.
    - apply candidate_score_guard. exact H. }
  split; [apply pickBySimulation_all_zero; exact Hz | apply Hz; left; reflexivity].
Qed.

Lemma pickBySimulation_no_liquidity_keeps_first_witness :
  pickBySimulation
    [mkPool 1 "zig1aaa" (Some "xyk") 0.2 0 0 0;
     mkPool 2 "zig1bbb" None 0.3 0 700 0]%string true 100
  = Some (candidate true 100 (mkPool 1 "zig1aaa" (Some "xyk") 0.2 0 0 0)%string).
Proof.
  apply (pickBySimulation_no_liquidity_keeps_first
           (mkPool 1 "zig1aaa" (Some "xyk") 0.2 0 0 0)%string
           [mkPool 2 "zig1bbb" None 0.3 0 700 0]%string true 100).
  left. intros p [<- | [<- | []]]; reflexivity.
Defined.

Lemma max_floor_pos (x f : Q) : 0 < f -> 0 < Num.max x f.
Proof. intros Hf. pose proof (NumFacts.max_ge_r x f). lra. Qed.

Lemma max_above (x f : Q) : f <= x -> Num.max x f == x.
Proof. intros H. destruct (NumFacts.max_cases x f) as [[H' ->] | [_ ->]]; lra. Qed.

Lemma defaultAmount_pos_sell (zigUsd : Q) (pools : list Pool) :
  0 < defaultAmount SideSell zigUsd pools.
Proof.
  assert (Hm : 0 < Num.max zigUsd 1e-9) by (apply max_floor_pos; reflexivity).
  unfold defaultAmount. cbv zeta.
  set (avg := match pools with
              | [] => 1
              | _ => sum_mid pools / inject_Z (Z.of_nat (length pools))
              end).
  assert (Ha : 0 < Num.max avg 1e-12) by (apply max_floor_pos; reflexivity).
  assert (Hbuy : 0 < 100 / Num.max zigUsd 1e-9) by (apply Qlt_shift_div_l; lra).
  apply Qlt_shift_div_l; lra.
Qed.

(** X4. [defaultAmount] is always positive, whatever the rate and the
    pools; a buy is at most 1e11 native units; and when the rate is at
    least 1e-9 (and, for a sell, the average mid price at least 1e-12)
    the amount is worth exactly 100 dollars.  A sell over no pools takes
    the average mid price to be 1. *)
Theorem defaultAmount_positive_and_worth_100 (zigUsd : Q) (pools : list Pool) :
  0 < defaultAmount SideBuy zigUsd pools
  /\ 0 < defaultAmount SideSell zigUsd pools
  /\ defaultAmount SideBuy zigUsd pools <= 100000000000
  /\ (1e-9 <= zigUsd -> defaultAmount SideBuy zigUsd pools * zigUsd == 100)
  /\ defaultAmount SideSell zigUsd [] == defaultAmount SideBuy zigUsd []
  /\ (1e-9 <= zigUsd -> pools <> [] ->
      1e-12 <= sum_mid pools / inject_Z (Z.of_nat (length pools)) ->
      defaultAmount SideSell zigUsd pools
        * (sum_mid pools / inject_Z (Z.of_nat (length pools))) * zigUsd == 100).
Proof.
  assert (Hm : 0 < Num.max zigUsd 1e-9) by (apply max_floor_pos; reflexivity).
  assert (Hbuy : 0 < 100 / Num.max zigUsd 1e-9) by (apply Qlt_shift_div_l; lra).
  split; [exact Hbuy|]. split.
  { unfold defaultAmount. cbv zeta.
    set (avg := match pools with
                | [] => 1
                | _ => sum_mid pools / inject_Z (Z.of_nat (length pools))
                end).
    assert (Ha : 0 < Num.max avg 1e-12) by (apply max_floor_pos; reflexivity).
    apply Qlt_shift_div_l; lra. }
  split.
  { unfold defaultAmount. cbv zeta. apply Qle_shift_div_r; [exact Hm|].
    pose proof (NumFacts.max_ge_r zigUsd 1e-9) as H.
    apply Qle_trans with (100000000000 * 1e-9); [vm_compute; discriminate|].
    apply Qmult_le_l; [reflexivity | exact H]. }
  split.
  { intros Hz. unfold defaultAmount. cbv zeta. rewrite (max_above _ _ Hz).
    field. intros E. rewrite E in Hz. vm_compute in Hz. apply Hz. reflexivity. }
  split.
  { unfold defaultAmount. cbv zeta. change (Num.max 1 1e-12) with 1. field.
    intros E. rewrite E in Hm. apply (Qlt_irrefl 0). exact Hm. }
  intros Hz Hne Havg. unfold defaultAmount. cbv zeta.
  destruct pools as [|p0 rest]; [now destruct Hne|].
  set (avg := sum_mid (p0 :: rest) / inject_Z (Z.of_nat (length (p0 :: rest)))) in *.
  rewrite (max_above _ _ Hz), (max_above _ _ Havg).
  field. split.
  - intros E. rewrite E in Hz. vm_compute in Hz. apply Hz. reflexivity.
  - intros E. rewrite E in Havg. vm_compute in Havg. apply Havg. reflexivity.
Qed.

Lemma defaultAmount_positive_and_worth_100_witness :
  defaultAmount SideBuy 0.08 [] * 0.08 == 100.
Proof.
  apply (proj1 (proj2 (proj2 (proj2 (defaultAmount_positive_and_worth_100 0.08 []))))).
  discriminate.
Defined.

Lemma filter_nil_iff {A : Type} (f : A -> bool) (l : list A) :
  List.filter f l = [] <-> forall x, In x l -> f x = false.
Proof.
  split.
  - intros E x Hx. destruct (f x) eqn:Fx; [|reflexivity].
    assert (H : In x (List.filter f l)) by (apply filter_In; auto).
    rewrite E in H. destruct H.
  - intros H. destruct (List.filter f l) as [|y r] eqn:E; [reflexivity|].
    assert (Hy : In y (List.filter f l)) by (rewrite E; left; reflexivity).
    apply filter_In in Hy as [Hy Fy]. rewrite (H y Hy) in Fy. discriminate.
Qed.

(** X5. [bestSellPool] is null exactly when no loaded pool has a TVL of at
    least the minimum; otherwise the pool returned is a loaded pool with
    such a TVL, chosen by [pickBySimulation] for a token-to-native swap of
    the amount used, which is the caller's amount when there is one and a
    positive default otherwise. *)
Theorem bestSellPool_respects_min_tvl
    (loaded : list Pool) (amountIn : option Q) (minTvlZig zigUsd : Q) :
  (bestSellPool loaded amountIn minTvlZig zigUsd = None <->
     forall p, In p loaded -> tvlZig p < minTvlZig)
  /\ (forall r : BestPool,
        bestSellPool loaded amountIn minTvlZig zigUsd = Some r ->
        In (c_pool (b_pick r)) loaded
        /\ minTvlZig <= tvlZig (c_pool (b_pick r))
        /\ (forall a, amountIn = Some a -> amtUsed r = a)
        /\ (amountIn = None -> 0 < amtUsed r)
        /\ pickBySimulation
             (List.filter (fun p => Num.leb minTvlZig (tvlZig p)) loaded) false (amtUsed r)
           = Some (b_pick r)).
Proof.
  unfold bestSellPool.
  set (pools := List.filter (fun p => Num.leb minTvlZig (tvlZig p)) loaded).
  set (amt := match amountIn with
              | Some a => a
              | None => defaultAmount SideSell zigUsd pools
              end).
  assert (Hnil : pools = [] <-> forall p, In p loaded -> tvlZig p < minTvlZig).
  { unfold pools. rewrite filter_nil_iff. split; intros H p Hp.
    - apply NumFacts.leb_false. apply H, Hp.
    - apply NumFacts.leb_false. apply H, Hp. }
  destruct pools as [|p0 rest] eqn:Ep.
  - split; [split; [intros _; apply Hnil; reflexivity | reflexivity] | discriminate].
  - destruct (pickBySimulation (p0 :: rest) false amt) as [pick|] eqn:E.
    2:{ apply (proj1 (pickBySimulation_first_max _ _ _)) in E. discriminate. }
    split.
    + split; [discriminate|]. intros H. apply Hnil in H. discriminate.
    + intros r [= <-]. cbn [b_pick amtUsed].
      destruct (proj2 (pickBySimulation_first_max _ _ _) pick E)
        as (l1 & p & l2 & Epools & -> & _).
      assert (Hin : In p (List.filter (fun p => Num.leb minTvlZig (tvlZig p)) loaded)).
      { fold pools. rewrite Ep, Epools. apply in_or_app. right. left. reflexivity. }
      apply filter_In in Hin as [Hin Htvl]. apply NumFacts.leb_true in Htvl.
      cbn [c_pool candidate]. split; [exact Hin|]. split; [exact Htvl|].
      split; [|split; [|exact E]].
      * intros a ->. reflexivity.
      * intros ->. apply defaultAmount_pos_sell.
Qed.

Lemma bestSellPool_respects_min_tvl_witness :
  bestSellPool
    [mkPool 1 "zig1aaa" (Some "xyk") 0.2 50000 10000 500;
     mkPool 2 "zig1bbb" None 0.2 40000 9000 900]%string (Some 100) 1000 0.08
  = None.
Proof.
  apply (proj1 (bestSellPool_respects_min_tvl
                  [mkPool 1 "zig1aaa" (Some "xyk") 0.2 50000 10000 500;
                   mkPool 2 "zig1bbb" None 0.2 40000 9000 900]%string (Some 100) 1000 0.08)).
  intros p [<- | [<- | []]]; reflexivity.
Defined.

End PoolFacts.

(** ** The bucketing query *)

Section QueryFacts.

Variable stepSec : Z.
Hypothesis step_pos : 0 < stepSec.

Lemma tagSec_div (us : Z) : tagSec stepSec us = us / (1000000 * stepSec) * stepSec.
Proof.
  unfold tagSec. f_equal.
  rewrite Zdiv_Qdiv. apply Qfloor_comp.
  rewrite inject_Z_mult.
  assert (~ (inject_Z stepSec == 0)%Q).
  { intros E. unfold Qeq in E. simpl in E. lia. }
  field. assumption.
Qed.

Lemma tagSec_multiple (us : Z) : tagSec stepSec us mod stepSec = 0.
Proof. rewrite tagSec_div. apply Z_mod_mult. Qed.

(** A bar inside the requested range is tagged with a bucket between the
    aligned start and the aligned end. *)
Lemma tagSec_in_range (fromMs toMs us : Z) :
  fromMs * 1000 <= us < toMs * 1000 ->
  alignSec fromMs stepSec <= tagSec stepSec us <= alignSec toMs stepSec.
Proof.
  intros [Hlo Hhi]. rewrite tagSec_div, !alignSec_div by assumption.
  assert (E : forall ms, ms / (1000 * stepSec) = (ms * 1000) / (1000000 * stepSec)).
  { intros ms. replace (1000000 * stepSec) with ((1000 * stepSec) * 1000) by ring.
    rewrite Z.div_mul_cancel_r by lia. reflexivity. }
  rewrite !E.
  split; apply Z.mul_le_mono_nonneg_r; try lia; apply Z.div_le_mono; lia.
Qed.

Lemma insert_key_In (k x : Z) (l : list Z) :
  In x (insert_key k l) <-> x = k \/ In x l.
Proof.
  induction l as [|y l IH]; simpl.
  - intuition.
  - destruct (k <? y) eqn:E1; [simpl; intuition|].
    destruct (k =? y) eqn:E2.
    + apply Z.eqb_eq in E2. subst. simpl. intuition.
    + simpl. rewrite IH. intuition.
Qed.

Lemma insert_key_sorted (k : Z) (l : list Z) :
  StronglySorted Z.lt l -> StronglySorted Z.lt (insert_key k l).
Proof.
  induction l as [|y l IH]; intros Hs; simpl.
  - constructor; constructor.
  - inversion Hs as [|? ? Hs' Hall]; subst.
    destruct (k <? y) eqn:E1.
    + apply Z.ltb_lt in E1. constructor; [exact Hs|].
      constructor; [exact E1|]. eapply Forall_impl; [exact Hall|]. intros; simpl in *; lia.
    + destruct (k =? y) eqn:E2; [exact Hs|].
      apply Z.ltb_ge in E1. apply Z.eqb_neq in E2.
      constructor; [apply IH; exact Hs'|].
      apply Forall_forall. intros x Hx. apply list_elem_of_In, insert_key_In in Hx.
      destruct Hx as [-> | Hx]; [lia|].
      rewrite Forall_forall in Hall. apply Hall, list_elem_of_In, Hx.
Qed.

Lemma group_keys_In (src : list Candle1m) (k : Z) :
  In k (group_keys stepSec src) <-> exists o, In o src /\ tagSec stepSec (s_start o) = k.
Proof.
  induction src as [|o src IH]; simpl.
  - split; [tauto | intros (o & [] & _)].
  - rewrite insert_key_In, IH. split.
    + intros [-> | (o' & Ho' & E)]; eauto.
    + intros (o' & [<- | Ho'] & E); [left; symmetry; exact E | right; eauto].
Qed.

Lemma group_keys_sorted (src : list Candle1m) :
  StronglySorted Z.lt (group_keys stepSec src).
Proof.
  induction src as [|o src IH]; simpl; [constructor | apply insert_key_sorted, IH].
Qed.

Lemma bucket_query_keys (src : list Candle1m) :
  List.map sec (bucket_query stepSec src) = group_keys stepSec src.
Proof.
  unfold bucket_query. rewrite List.map_map. simpl. apply List.map_id.
Qed.

Lemma sorted_lt_NoDup (l : list Z) : StronglySorted Z.lt l -> List.NoDup l.
Proof.
  induction 1 as [|x l Hs IH Hall]; constructor; [|exact IH].
  intros Hin. rewrite Forall_forall in Hall. apply list_elem_of_In, Hall in Hin. lia.
Qed.

End QueryFacts.

(** [new Map(...)] over rows with distinct keys keeps every row. *)
Lemma bySec_of_snoc (rows : list Row) (r : Row) :
  bySec_of (rows ++ [r]) = <[sec r := r]> (bySec_of rows).
Proof. unfold bySec_of. rewrite foldl_app. reflexivity. Qed.

Lemma bySec_of_lookup_Some (rows : list Row) (k : Z) (r : Row) :
  bySec_of rows !! k = Some r -> In r rows /\ sec r = k.
Proof.
  induction rows as [|x rows IH] using rev_ind.
  - unfold bySec_of. simpl. rewrite lookup_empty. discriminate.
  - rewrite bySec_of_snoc. destruct (decide (sec x = k)) as [E|N].
    + rewrite <- E, lookup_insert_eq. intros [= <-].
      split; [apply in_or_app; right; left; reflexivity | reflexivity].
    + rewrite lookup_insert_ne by exact N. intros H. destruct (IH H) as [Hin Hk].
      split; [apply in_or_app; left; exact Hin | exact Hk].
Qed.

Lemma bySec_of_lookup_None (rows : list Row) (k : Z) :
  bySec_of rows !! k = None <-> ~ In k (List.map sec rows).
Proof.
  induction rows as [|x rows IH] using rev_ind.
  - unfold bySec_of. simpl. rewrite lookup_empty. tauto.
  - rewrite bySec_of_snoc, List.map_app, in_app_iff. simpl.
    destruct (decide (sec x = k)) as [E|N].
    + rewrite <- E, lookup_insert_eq. split; [discriminate | tauto].
    + rewrite lookup_insert_ne by exact N. rewrite IH. tauto.
Qed.

Lemma bySec_of_lookup_distinct (rows : list Row) (r : Row) :
  List.NoDup (List.map sec rows) -> In r rows -> bySec_of rows !! sec r = Some r.
Proof.
  induction rows as [|x rows IH] using rev_ind; [intros _ []|].
  rewrite bySec_of_snoc, List.map_app. simpl. intros Hnd Hin.
  apply NoDup_remove in Hnd as [Hnd Hx]. rewrite app_nil_r in Hnd, Hx.
  apply in_app_or in Hin as [Hin | [<- | []]].
  - rewrite lookup_insert_ne; [apply IH; assumption|].
    intros E. apply Hx. rewrite E. apply in_map. exact Hin.
  - apply lookup_insert_eq.
Qed.

Section AggregateFacts.

#[local] Open Scope Q_scope.

Lemma foldl_min_low (r : list Candle1m) :
  forall m : Q,
    let v := foldl (fun m x => Num.min m (s_low x)) m r in
    v <= m /\ (forall x, In x r -> v <= s_low x)
    /\ (v = m \/ exists x, In x r /\ v = s_low x).
Proof.
  induction r as [|y r IH]; intros m; cbn zeta.
  - simpl. split; [apply Qle_refl|]. split; [intros x []|left; reflexivity].
  - rewrite foldl_step. destruct (IH (Num.min m (s_low y))) as (H1 & H2 & H3).
    pose proof (NumFacts.min_le_l m (s_low y)) as Hl.
    pose proof (NumFacts.min_le_r m (s_low y)) as Hr.
    split; [lra|]. split.
    + intros x [<- | Hx]; [lra | apply H2, Hx].
    + destruct H3 as [E | (x & Hx & E)].
      * destruct (NumFacts.min_cases m (s_low y)) as [[_ Em] | [_ Em]].
        -- left. rewrite E. exact Em.
        -- right. exists y. split; [left; reflexivity | rewrite E; exact Em].
      * right. exists x. split; [right; exact Hx | exact E].
Qed.

Lemma foldl_max_high (r : list Candle1m) :
  forall m : Q,
    let v := foldl (fun m x => Num.max m (s_high x)) m r in
    m <= v /\ (forall x, In x r -> s_high x <= v)
    /\ (v = m \/ exists x, In x r /\ v = s_high x).
Proof.
  induction r as [|y r IH]; intros m; cbn zeta.
  - simpl. split; [apply Qle_refl|]. split; [intros x []|left; reflexivity].
  - rewrite foldl_step. destruct (IH (Num.max m (s_high y))) as (H1 & H2 & H3).
    pose proof (NumFacts.max_ge_l m (s_high y)) as Hl.
    pose proof (NumFacts.max_ge_r m (s_high y)) as Hr.
    split; [lra|]. split.
    + intros x [<- | Hx]; [lra | apply H2, Hx].
    + destruct H3 as [E | (x & Hx & E)].
      * destruct (NumFacts.max_cases m (s_high y)) as [[_ Em] | [_ Em]].
        -- right. exists y. split; [left; reflexivity | rewrite E; exact Em].
        -- left. rewrite E. exact Em.
      * right. exists x. split; [right; exact Hx | exact E].
Qed.

Lemma min_low_spec (g : list Candle1m) :
  g <> [] ->
  (forall o, In o g -> min_low g <= s_low o)
  /\ (exists o, In o g /\ min_low g = s_low o).
Proof.
  destruct g as [|o r]; [intros H; now destruct H|]. intros _.
  unfold min_low. destruct (foldl_min_low r (s_low o)) as (H1 & H2 & H3). split.
  - intros x [<- | Hx]; [exact H1 | apply H2, Hx].
  - destruct H3 as [E | (x & Hx & E)].
    + exists o. split; [left; reflexivity | exact E].
    + exists x. split; [right; exact Hx | exact E].
Qed.

Lemma max_high_spec (g : list Candle1m) :
  g <> [] ->
  (forall o, In o g -> s_high o <= max_high g)
  /\ (exists o, In o g /\ max_high g = s_high o).
Proof.
  destruct g as [|o r]; [intros H; now destruct H|]. intros _.
  unfold max_high. destruct (foldl_max_high r (s_high o)) as (H1 & H2 & H3). split.
  - intros x [<- | Hx]; [exact H1 | apply H2, Hx].
  - destruct H3 as [E | (x & Hx & E)].
    + exists o. split; [left; reflexivity | exact E].
    + exists x. split; [right; exact Hx | exact E].
Qed.

Lemma first_bar_spec (g : list Candle1m) :
  g <> [] ->
  exists o, first_bar g = Some o /\ In o g
            /\ forall o', In o' g -> (s_start o <= s_start o')%Z.
Proof.
  intros Hne. unfold first_bar.
  destruct (first_by_spec (fun a b => (s_start a <? s_start b)%Z)
              (fun a => Z.ltb_irrefl _)
              ltac:(intros a b c; rewrite !Z.ltb_lt; lia) g) as [Hn Hs].
  destruct (Sql.first_by _ g) as [o|] eqn:E; [|destruct Hne; apply Hn; reflexivity].
  destruct (Hs o eq_refl) as [Hin Hmin]. exists o. split; [reflexivity|]. split; [exact Hin|].
  intros o' Ho'. specialize (Hmin o' Ho'). apply Z.ltb_ge in Hmin. exact Hmin.
Qed.

Lemma last_bar_spec (g : list Candle1m) :
  g <> [] ->
  exists o, last_bar g = Some o /\ In o g
            /\ forall o', In o' g -> (s_start o' <= s_start o)%Z.
Proof.
  intros Hne. unfold last_bar.
  destruct (first_by_spec (fun a b => (s_start b <? s_start a)%Z)
              (fun a => Z.ltb_irrefl _)
              ltac:(intros a b c; rewrite !Z.ltb_lt; lia) g) as [Hn Hs].
  destruct (Sql.first_by _ g) as [o|] eqn:E; [|destruct Hne; apply Hn; reflexivity].
  destruct (Hs o eq_refl) as [Hin Hmin]. exists o. split; [reflexivity|]. split; [exact Hin|].
  intros o' Ho'. specialize (Hmin o' Ho'). apply Z.ltb_ge in Hmin. exact Hmin.
Qed.

Lemma group_of_In (stepSec : Z) (src : list Candle1m) (k : Z) (o : Candle1m) :
  In o (group_of stepSec src k) <-> In o src /\ tagSec stepSec (s_start o) = k.
Proof. unfold group_of. rewrite filter_In, Z.eqb_eq. reflexivity. Qed.

(** X6. A row of the bucketing query aggregates the bars of its bucket: its
    low is the least low and its high the greatest high of those bars
    (both attained), its open is the open of a bar with the earliest start
    and its close the close of a bar with the latest start; and when every
    bar of the bucket has its open and close between its low and high, so
    has the row. *)
Theorem bucket_row_aggregates (stepSec : Z) (src : list Candle1m) (k : Z) :
  In k (group_keys stepSec src) ->
  let r := bucket_row stepSec src k in
  let in_bucket o := In o src /\ tagSec stepSec (s_start o) = k in
  sec r = k
  /\ (forall o, in_bucket o -> r_low r <= s_low o /\ s_high o <= r_high r)
  /\ (exists o, in_bucket o /\ r_low r = s_low o)
  /\ (exists o, in_bucket o /\ r_high r = s_high o)
  /\ (exists o, in_bucket o /\ r_open r = s_open o
               /\ forall o', in_bucket o' -> (s_start o <= s_start o')%Z)
  /\ (exists o, in_bucket o /\ r_close r = s_close o
               /\ forall o', in_bucket o' -> (s_start o' <= s_start o)%Z)
  /\ ((forall o, in_bucket o -> candle_ok o) ->
      r_low r <= r_open r /\ r_open r <= r_high r
      /\ r_low r <= r_close r /\ r_close r <= r_high r).
Proof.
  intros Hk r in_bucket.
  assert (Hb : forall o, In o (group_of stepSec src k) <-> in_bucket o)
    by (intros o; apply group_of_In).
  assert (Hne : group_of stepSec src k <> []).
  { apply group_keys_In in Hk as (o & Ho & E).
    intros En. assert (H : In o (group_of stepSec src k)) by (apply Hb; split; assumption).
    rewrite En in H. destruct H. }
  destruct (min_low_spec _ Hne) as [Hmin (omin & Homin & Emin)].
  destruct (max_high_spec _ Hne) as [Hmax (omax & Homax & Emax)].
  destruct (first_bar_spec _ Hne) as (o1 & E1 & Ho1 & Hfirst).
  destruct (last_bar_spec _ Hne) as (o2 & E2 & Ho2 & Hlast).
  assert (Eopen : r_open r = s_open o1) by (unfold r, bucket_row; cbn; rewrite E1; reflexivity).
  assert (Eclose : r_close r = s_close o2) by (unfold r, bucket_row; cbn; rewrite E2; reflexivity).
  split; [reflexivity|]. split.
  { intros o Ho. apply Hb in Ho. split; [apply Hmin, Ho | apply Hmax, Ho]. }
  split; [exists omin; split; [apply Hb, Homin | exact Emin]|].
  split; [exists omax; split; [apply Hb, Homax | exact Emax]|].
  split.
  { exists o1. split; [apply Hb, Ho1|]. split; [exact Eopen|].
    intros o' Ho'. apply Hfirst, Hb, Ho'. }
  split.
  { exists o2. split; [apply Hb, Ho2|]. split; [exact Eclose|].
    intros o' Ho'. apply Hlast, Hb, Ho'. }
  intros Hok. rewrite Eopen, Eclose.
  destruct (Hok o1 (proj1 (Hb o1) Ho1)) as (A1 & A2 & _ & _).
  destruct (Hok o2 (proj1 (Hb o2) Ho2)) as (_ & _ & B1 & B2).
  pose proof (Hmin o1 Ho1). pose proof (Hmax o1 Ho1).
  pose proof (Hmin o2 Ho2). pose proof (Hmax o2 Ho2).
  change (r_low r) with (min_low (group_of stepSec src k)).
  change (r_high r) with (max_high (group_of stepSec src k)).
  repeat split; lra.
Qed.

Lemma bucket_row_aggregates_witness :
  r_low (bucket_row 300
           [mkCandle1m 4 0 1 2 0.5 1.5 10 2; mkCandle1m 4 60000000 1.5 3 1 2.5 5 1] 0)
  <= 0.5.
Proof.
  destruct (bucket_row_aggregates 300
              [mkCandle1m 4 0 1 2 0.5 1.5 10 2; mkCandle1m 4 60000000 1.5 3 1 2.5 5 1] 0)
    as (_ & H & _).
  - vm_compute. left. reflexivity.
  - apply (H (mkCandle1m 4 0 1 2 0.5 1.5 10 2)).
    split; [left; reflexivity | reflexivity].
Defined.

End AggregateFacts.

(** ** The bucket loop, for every positive step *)

Section LoopRange.

Variable fill : Fill.
Variable bySec : gmap Z Row.
Variable stepSec : Z.
Hypothesis step_pos : 0 < stepSec.

Lemma bucket_times_In (n : nat) (start t : Z) :
  In t (bucket_times n start stepSec) <->
  exists i : nat, (i < n)%nat /\ t = start + Z.of_nat i * stepSec.
Proof.
  revert start. induction n as [|n IH]; intros start.
  - split; [intros [] | intros (i & Hi & _); lia].
  - cbn [bucket_times In]. rewrite IH. split.
    + intros [<- | (i & Hi & ->)].
      * exists 0%nat. split; lia.
      * exists (S i). split; lia.
    + intros ([|i] & Hi & ->).
      * left. lia.
      * right. exists i. split; lia.
Qed.

Lemma bucket_times_sorted (n : nat) (start : Z) :
  StronglySorted Z.lt (bucket_times n start stepSec).
Proof.
  revert start. induction n as [|n IH]; intros start; cbn [bucket_times]; constructor.
  - apply IH.
  - apply Forall_forall. intros t Ht. apply list_elem_of_In, bucket_times_In in Ht.
    destruct Ht as (i & _ & ->). nia.
Qed.

(** For a positive step the loop ends within the fuel it is given, and is
    the body folded over the buckets from the start to the end. *)
Lemma bucket_loop_total (startSec endSec : Z) (st : LoopState) :
  bucket_loop fill bySec stepSec endSec (bucket_count startSec endSec stepSec) startSec st
  = Some (foldl (fun st t => bucket_body fill bySec t st) st
            (bucket_times (bucket_count startSec endSec stepSec) startSec stepSec)).
Proof.
  destruct (Z_le_gt_dec startSec endSec) as [Hle|Hgt].
  - apply (bucket_loop_run fill bySec stepSec step_pos); [lia|].
    apply bucket_count_range; assumption.
  - assert (E : bucket_count startSec endSec stepSec = 0%nat).
    { unfold bucket_count.
      assert ((endSec - startSec) / stepSec < 0) by (apply Z.div_lt_upper_bound; lia).
      lia. }
    rewrite E. simpl. assert (E' : (startSec <=? endSec) = false) by (apply Z.leb_gt; lia).
    rewrite E'. reflexivity.
Qed.

Lemma bucket_times_upto (startSec endSec t : Z) :
  In t (bucket_times (bucket_count startSec endSec stepSec) startSec stepSec) ->
  startSec <= t <= endSec.
Proof.
  intros Ht. apply bucket_times_In in Ht as (i & Hi & ->).
  destruct (Z_le_gt_dec startSec endSec) as [Hle|Hgt].
  - pose proof (bucket_count_range stepSec step_pos startSec endSec Hle) as Hr.
    cbv zeta in Hr. nia.
  - exfalso. unfold bucket_count in Hi.
    assert ((endSec - startSec) / stepSec < 0) by (apply Z.div_lt_upper_bound; lia).
    lia.
Qed.

Lemma sorted_drop_middle (l1 l2 : list Z) (x : Z) :
  StronglySorted Z.lt (l1 ++ x :: l2) -> StronglySorted Z.lt (l1 ++ l2).
Proof.
  rewrite !StronglySorted_app, StronglySorted_cons.
  intros (H1 & H2 & H3 & H4). split; [|split; assumption].
  intros a b Ha Hb. apply H1; [exact Ha | apply list_elem_of_further; exact Hb].
Qed.

(** The bars a run of the body adds come from the buckets it visits, at
    most one per bucket, in their order. *)
Lemma foldl_body_range (l : list Z) :
  forall (pc : option Q) (out : list Bar),
    StronglySorted Z.lt (List.map ts_sec out ++ l) ->
    let out' := snd (foldl (fun st t => bucket_body fill bySec t st) (pc, out) l) in
    StronglySorted Z.lt (List.map ts_sec out')
    /\ (forall b, In b out' -> In b out \/ In (ts_sec b) l)
    /\ (length out' <= length out + length l)%nat.
Proof.
  induction l as [|t l IH]; intros pc out Hs; cbv zeta.
  - simpl. rewrite app_nil_r in Hs. split; [exact Hs|]. split; [auto | lia].
  - rewrite foldl_step.
    destruct (bucket_body_cases fill bySec t pc out) as [(E & _) | (b & Hb & E)]; rewrite E.
    + destruct (IH pc out (sorted_drop_middle _ _ _ Hs)) as (H1 & H2 & H3).
      split; [exact H1|]. split.
      * intros b Hb. destruct (H2 b Hb); [left | right; right]; assumption.
      * simpl. lia.
    + pose proof (emits_ts fill bySec _ _ _ Hb) as Ets.
      destruct (IH (Some (close b)) (out ++ [b])) as (H1 & H2 & H3).
      { rewrite List.map_app. simpl. rewrite Ets, <- app_assoc. exact Hs. }
      split; [exact H1|]. split.
      * intros b' Hb'. destruct (H2 b' Hb') as [Hin | Hin].
        -- apply in_app_or in Hin as [Hin | [<- | []]]; [left; exact Hin|].
           right. left. symmetry. exact Ets.
        -- right. right. exact Hin.
      * rewrite length_app in H3. simpl in *. lia.
Qed.

End LoopRange.

Section SeriesRange.

(** The series is the body folded over the buckets of the aligned
    range. *)
Lemma ohlcv_series_fold (fill : Fill) (seed : option Q) (rows : list Row)
    (fromMs toMs stepSec : Z) :
  0 < stepSec ->
  ohlcv_series fill seed rows fromMs toMs stepSec
  = Some (snd (foldl (fun st t => bucket_body fill (bySec_of rows) t st)
                 (match seed with
                  | Some s => if Fill_eqb fill FillPrev && Num.isFinite s then Some s else None
                  | None => None
                  end, [])
                 (bucket_times
                    (bucket_count (alignSec fromMs stepSec) (alignSec toMs stepSec) stepSec)
                    (alignSec fromMs stepSec) stepSec))).
Proof.
  intros Hs. unfold ohlcv_series. cbv zeta.
  rewrite (bucket_loop_total fill (bySec_of rows) stepSec Hs). reflexivity.
Qed.

(** X7. For every request with a positive step the bucket loop ends, and
    the bars it emits have strictly increasing timestamps, each a multiple
    of the step between the aligned start and the aligned end inclusive;
    there is at most one bar per bucket. *)
Theorem ohlcv_series_ends_within_aligned_range
    (fill : Fill) (seed : option Q) (rows : list Row) (fromMs toMs stepSec : Z) :
  0 < stepSec ->
  exists out : list Bar,
    ohlcv_series fill seed rows fromMs toMs stepSec = Some out
    /\ StronglySorted Z.lt (List.map ts_sec out)
    /\ (forall b : Bar, In b out ->
          alignSec fromMs stepSec <= ts_sec b <= alignSec toMs stepSec
          /\ ts_sec b mod stepSec = 0)
    /\ (length out <=
        bucket_count (alignSec fromMs stepSec) (alignSec toMs stepSec) stepSec)%nat.
Proof.
  intros Hs. rewrite (ohlcv_series_fold fill seed rows fromMs toMs stepSec Hs).
  eexists. split; [reflexivity|].
  match goal with
  | |- context [foldl _ (?pc, []) ?l] =>
      destruct (foldl_body_range fill (bySec_of rows) l pc []) as (H1 & H2 & H3)
  end.
  { simpl. apply bucket_times_sorted. exact Hs. }
  split; [exact H1|]. split.
  - intros b Hb. destruct (H2 b Hb) as [[] | Hin]. split.
    + apply (bucket_times_upto stepSec Hs _ _ _ Hin).
    + pose proof (bucket_times_multiple
                    (bucket_count (alignSec fromMs stepSec) (alignSec toMs stepSec) stepSec)
                    (alignSec fromMs stepSec) stepSec Hs
                    (alignSec_multiple fromMs stepSec Hs)) as Hm.
      rewrite Forall_forall in Hm. apply Hm, list_elem_of_In, Hin.
  - rewrite bucket_times_length in H3. simpl in H3. exact H3.
Qed.

Lemma ohlcv_series_ends_within_aligned_range_witness :
  exists out : list Bar,
    ohlcv_series FillPrev None [mkRow 300 1 2 1 2 10 3] 0 900000 300 = Some out
    /\ (length out <= 4)%nat.
Proof.
  destruct (ohlcv_series_ends_within_aligned_range FillPrev None
              [mkRow 300 1 2 1 2 10 3] 0 900000 300 eq_refl)
    as (out & E & _ & _ & Hlen).
  exists out. split; [exact E | exact Hlen].
Defined.

End SeriesRange.

Section SeriesContent.

#[local] Open Scope Q_scope.

Lemma foldl_body_prefix (fill : Fill) (bySec : gmap Z Row) (l : list Z) :
  forall (pc : option Q) (out : list Bar),
    exists ext : list Bar,
      snd (foldl (fun st t => bucket_body fill bySec t st) (pc, out) l) = out ++ ext.
Proof.
  induction l as [|t l IH]; intros pc out.
  - exists []. simpl. rewrite app_nil_r. reflexivity.
  - rewrite foldl_step.
    destruct (bucket_body_cases fill bySec t pc out) as [(E & _) | (b & Hb & E)]; rewrite E.
    + apply IH.
    + destruct (IH (Some (close b)) (out ++ [b])) as (ext & ->).
      exists (b :: ext). rewrite <- app_assoc. reflexivity.
Qed.

(** X8. With a positive step, zero fill, or flat fill with a seed close,
    emits exactly one bar for every bucket from the aligned start to the
    aligned end inclusive; under flat fill the first bar opens at the
    seed. *)
Theorem ohlcv_series_dense_fill
    (fill : Fill) (seed : option Q) (rows : list Row) (fromMs toMs stepSec : Z) :
  (0 < stepSec)%Z ->
  fill = FillZero \/ (fill = FillPrev /\ is_Some seed) ->
  exists out : list Bar,
    ohlcv_series fill seed rows fromMs toMs stepSec = Some out
    /\ List.map ts_sec out
       = bucket_times
           (bucket_count (alignSec fromMs stepSec) (alignSec toMs stepSec) stepSec)
           (alignSec fromMs stepSec) stepSec
    /\ (forall (s : Q) (b : Bar),
          fill = FillPrev -> seed = Some s -> head out = Some b -> open b = s).
Proof.
  intros Hs Hfill. rewrite (ohlcv_series_fold fill seed rows fromMs toMs stepSec Hs).
  eexists. split; [reflexivity|].
  set (pc0 := match seed with
              | Some s => if Fill_eqb fill FillPrev && Num.isFinite s then Some s else None
              | None => None
              end).
  set (l := bucket_times _ _ _).
  split.
  - rewrite (foldl_emit_all fill (bySec_of rows) l pc0 []); [reflexivity|].
    destruct Hfill as [Hz | [Hp [s Es]]]; [left; exact Hz | right].
    split; [exact Hp|]. unfold pc0. rewrite Es, Hp. simpl. eauto.
  - intros s b Hp Es. assert (Epc : pc0 = Some s) by (unfold pc0; rewrite Es, Hp; reflexivity).
    rewrite Epc. destruct l as [|t l']; [discriminate|].
    rewrite foldl_step.
    destruct (bucket_body_cases fill (bySec_of rows) t (Some s) []) as [(E & _ & Hc) | (b0 & Hb0 & E)];
      rewrite E.
    + exfalso. destruct Hc as [Hn | [_ Hn]]; congruence.
    + destruct (foldl_body_prefix fill (bySec_of rows) l' (Some (close b0)) ([] ++ [b0]))
        as (ext & ->).
      simpl. intros [= <-].
      destruct (emits_open fill (bySec_of rows) s t b0 Hb0) as [Ho _].
      apply Ho. right. rewrite Hp. discriminate.
Qed.

Lemma ohlcv_series_dense_fill_witness :
  exists out : list Bar,
    ohlcv_series FillPrev (Some 7) [mkRow 300 1 2 1 2 10 3] 0 900000 300 = Some out
    /\ List.map ts_sec out = [0; 300; 600; 900]%Z.
Proof.
  destruct (ohlcv_series_dense_fill FillPrev (Some 7) [mkRow 300 1 2 1 2 10 3] 0 900000 300)
    as (out & E & Hts & _).
  - reflexivity.
  - right. split; [reflexivity | eauto].
  - exists out. split; [exact E | exact Hts].
Defined.

End SeriesContent.

Section SparseSeries.

#[local] Open Scope Q_scope.

Lemma sorted_lt_ext (l1 l2 : list Z) :
  StronglySorted Z.lt l1 -> StronglySorted Z.lt l2 ->
  (forall x, In x l1 <-> In x l2) -> l1 = l2.
Proof.
  revert l2. induction l1 as [|x l1 IH]; intros l2 H1 H2 Hext.
  - destruct l2 as [|y l2]; [reflexivity|].
    destruct (proj2 (Hext y) (or_introl eq_refl)).
  - destruct l2 as [|y l2]; [destruct (proj1 (Hext x) (or_introl eq_refl))|].
    apply StronglySorted_cons in H1 as [Hx H1]. apply StronglySorted_cons in H2 as [Hy H2].
    rewrite Forall_forall in Hx, Hy.
    assert (Exy : x = y).
    { destruct (proj1 (Hext x) (or_introl eq_refl)) as [E | Hin]; [symmetry; exact E|].
      destruct (proj2 (Hext y) (or_introl eq_refl)) as [E | Hin']; [exact E|].
      apply list_elem_of_In, Hy in Hin. apply list_elem_of_In, Hx in Hin'. lia. }
    subst y. f_equal. apply IH; [exact H1 | exact H2|].
    intros z. split; intros Hz.
    + destruct (proj1 (Hext z) (or_intror Hz)) as [E | Hin]; [|exact Hin].
      apply list_elem_of_In, Hx in Hz. lia.
    + destruct (proj2 (Hext z) (or_intror Hz)) as [E | Hin]; [|exact Hin].
      apply list_elem_of_In, Hy in Hz. lia.
Qed.

Lemma sorted_lt_filter (f : Z -> bool) (l : list Z) :
  StronglySorted Z.lt l -> StronglySorted Z.lt (List.filter f l).
Proof.
  induction l as [|x l IH]; intros Hs; [constructor|].
  apply StronglySorted_cons in Hs as [Hx Hs]. simpl.
  destruct (f x); [|apply IH, Hs].
  apply StronglySorted_cons. split; [|apply IH, Hs].
  rewrite Forall_forall in *. intros y Hy. apply Hx.
  apply list_elem_of_In. apply list_elem_of_In, filter_In in Hy. tauto.
Qed.

Lemma has_row_true (rows : list Row) (t : Z) :
  has_row (bySec_of rows) t = true <-> In t (List.map sec rows).
Proof.
  unfold has_row. destruct (bySec_of rows !! t) as [r|] eqn:E.
  - split; [intros _ | reflexivity].
    apply bySec_of_lookup_Some in E as [Hin <-]. apply in_map. exact Hin.
  - split; [discriminate|]. intros Hin. apply bySec_of_lookup_None in E. tauto.
Qed.

(** The buckets of a sorted list that have a row are the keys of the
    rows, when every key is in the list. *)
Lemma filter_has_row_keys (rows : list Row) (l : list Z) :
  StronglySorted Z.lt (List.map sec rows) -> StronglySorted Z.lt l ->
  (forall k, In k (List.map sec rows) -> In k l) ->
  List.filter (has_row (bySec_of rows)) l = List.map sec rows.
Proof.
  intros Hk Hl Hsub. apply sorted_lt_ext; [apply sorted_lt_filter, Hl | exact Hk|].
  intros t. rewrite filter_In, has_row_true. split; [tauto|]. intros H. split; [apply Hsub, H | exact H].
Qed.

(** Without fill the loop emits a bar exactly at the buckets that have a
    row. *)
Lemma foldl_none_ts (bySec : gmap Z Row) (l : list Z) :
  forall (pc : option Q) (out : list Bar),
    List.map ts_sec (snd (foldl (fun st t => bucket_body FillNone bySec t st) (pc, out) l))
    = List.map ts_sec out ++ List.filter (has_row bySec) l.
Proof.
  induction l as [|t l IH]; intros pc out.
  - simpl. rewrite app_nil_r. reflexivity.
  - rewrite foldl_step. cbn [List.filter].
    destruct (bucket_body_cases FillNone bySec t pc out) as [(E & Hn & _) | (b & Hb & E)];
      rewrite E, IH.
    + assert (Hr : has_row bySec t = false) by (unfold has_row; rewrite Hn; reflexivity).
      rewrite Hr. reflexivity.
    + inversion Hb as [r Er Eb | pc' En Ef Epc Eb | En Ef Eb]; try discriminate.
      assert (Hr : has_row bySec t = true) by (unfold has_row; rewrite Er; reflexivity).
      rewrite Hr, List.map_app. simpl. rewrite <- app_assoc. reflexivity.
Qed.

(** Every bucket with a row adds the volume and the trades of the row;
    a filled bar adds none. *)
Lemma foldl_body_volume (fill : Fill) (bySec : gmap Z Row) (l : list Z) :
  forall (pc : option Q) (out : list Bar),
    let out' := snd (foldl (fun st t => bucket_body fill bySec t st) (pc, out) l) in
    Qsum (List.map volume out')
    == Qsum (List.map volume out) + Qsum (List.map (volume_at bySec) l)
    /\ Qsum (List.map trades out')
       == Qsum (List.map trades out) + Qsum (List.map (trades_at bySec) l).
Proof.
  assert (Hsnoc : forall (f : Bar -> Q) (o : list Bar) (b : Bar),
             Qsum (List.map f (o ++ [b])) == Qsum (List.map f o) + f b).
  { intros f o b. induction o as [|x o IHo]; simpl; [ring|]. rewrite IHo. ring. }
  induction l as [|t l IH]; intros pc out; cbv zeta.
  - simpl. split; ring.
  - rewrite foldl_step.
    change (Qsum (List.map (volume_at bySec) (t :: l)))
      with (volume_at bySec t + Qsum (List.map (volume_at bySec) l)).
    change (Qsum (List.map (trades_at bySec) (t :: l)))
      with (trades_at bySec t + Qsum (List.map (trades_at bySec) l)).
    destruct (bucket_body_cases fill bySec t pc out) as [(E & Hn & _) | (b & Hb & E)]; rewrite E.
    + destruct (IH pc out) as [H1 H2]. rewrite H1, H2.
      assert (Ev : volume_at bySec t = 0) by (unfold volume_at; rewrite Hn; reflexivity).
      assert (Et : trades_at bySec t = 0) by (unfold trades_at; rewrite Hn; reflexivity).
      rewrite Ev, Et. split; ring.
    + destruct (IH (Some (close b)) (out ++ [b])) as [H1 H2].
      rewrite H1, H2, !Hsnoc.
      assert (Ev : volume b = volume_at bySec t /\ trades b = trades_at bySec t).
      { unfold volume_at, trades_at.
        inversion Hb as [r Er Eb | pc' En Ef Epc Eb | En Ef Eb].
        - rewrite Er. split; reflexivity.
        - rewrite En. split; reflexivity.
        - rewrite En. split; reflexivity. }
      destruct Ev as [-> ->]. split; ring.
Qed.

End SparseSeries.

Section PoolSeries.

#[local] Open Scope Q_scope.

Variable stepSec : Z.
Hypothesis step_pos : (0 < stepSec)%Z.

Lemma src_of_pool_In (table : list Candle1m) (pool fromMs toMs : Z) (o : Candle1m) :
  In o (src_of_pool table pool fromMs toMs) <->
  In o table /\ s_pool o = pool /\ (fromMs * 1000 <= s_start o < toMs * 1000)%Z.
Proof.
  unfold src_of_pool. rewrite filter_In, !andb_true_iff, Z.eqb_eq, Z.leb_le, Z.ltb_lt.
  tauto.
Qed.

(** The key of every row of a pool's query is a bucket the loop visits. *)
Lemma pool_keys_visited (table : list Candle1m) (pool fromMs toMs k : Z) :
  In k (group_keys stepSec (src_of_pool table pool fromMs toMs)) ->
  In k (bucket_times
          (bucket_count (alignSec fromMs stepSec) (alignSec toMs stepSec) stepSec)
          (alignSec fromMs stepSec) stepSec).
Proof.
  intros Hk. apply (group_keys_In stepSec) in Hk as (o & Ho & <-).
  apply src_of_pool_In in Ho as (_ & _ & Hr).
  pose proof (tagSec_in_range stepSec step_pos fromMs toMs _ Hr) as [Hlo Hhi].
  pose proof (tagSec_multiple stepSec step_pos (s_start o)) as Hm.
  pose proof (alignSec_multiple fromMs stepSec step_pos) as Hm0.
  set (k := tagSec stepSec (s_start o)) in *.
  set (a := alignSec fromMs stepSec) in *. set (e := alignSec toMs stepSec) in *.
  apply (bucket_times_In stepSec).
  apply Z.mod_divide in Hm; [|lia]. apply Z.mod_divide in Hm0; [|lia].
  destruct Hm as [q Hq]. destruct Hm0 as [q0 Hq0].
  exists (Z.to_nat (q - q0)).
  assert (Hq' : (q0 <= q)%Z) by nia.
  pose proof (bucket_count_range stepSec step_pos a e ltac:(lia)) as Hc. cbv zeta in Hc.
  split; [|rewrite Z2Nat.id by lia; lia].
  assert (Z.of_nat (Z.to_nat (q - q0)) < Z.of_nat (bucket_count a e stepSec))%Z; [|lia].
  rewrite Z2Nat.id by lia. nia.
Qed.

Lemma pool_rows_filter (table : list Candle1m) (pool fromMs toMs : Z) :
  let rows := bucket_query stepSec (src_of_pool table pool fromMs toMs) in
  List.filter (has_row (bySec_of rows))
    (bucket_times
       (bucket_count (alignSec fromMs stepSec) (alignSec toMs stepSec) stepSec)
       (alignSec fromMs stepSec) stepSec)
  = List.map sec rows.
Proof.
  intros rows. apply filter_has_row_keys.
  - unfold rows. rewrite bucket_query_keys. apply group_keys_sorted.
  - apply bucket_times_sorted. exact step_pos.
  - unfold rows. rewrite bucket_query_keys. apply pool_keys_visited.
Qed.

(** X9. The rows of the bucketing query of a pool come in strictly
    increasing [ts_sec], each a multiple of the step between the aligned
    start and the aligned end of the range; a bucket has a row exactly
    when a bar of the pool inside the range is tagged with it; and the map
    built from the rows returns every row at its key. *)
Theorem bucket_query_rows_keyed_by_bucket (table : list Candle1m) (pool fromMs toMs : Z) :
  let src := src_of_pool table pool fromMs toMs in
  let rows := bucket_query stepSec src in
  StronglySorted Z.lt (List.map sec rows)
  /\ (forall r : Row, In r rows ->
        (sec r mod stepSec = 0)%Z
        /\ (alignSec fromMs stepSec <= sec r <= alignSec toMs stepSec)%Z
        /\ bySec_of rows !! sec r = Some r)
  /\ (forall k : Z,
        is_Some (bySec_of rows !! k) <->
        exists o : Candle1m,
          In o table /\ s_pool o = pool
          /\ (fromMs * 1000 <= s_start o < toMs * 1000)%Z
          /\ tagSec stepSec (s_start o) = k).
Proof.
  intros src rows.
  assert (Hkeys : List.map sec rows = group_keys stepSec src) by apply bucket_query_keys.
  assert (Hsorted : StronglySorted Z.lt (List.map sec rows))
    by (rewrite Hkeys; apply group_keys_sorted).
  split; [exact Hsorted|]. split.
  - intros r Hr.
    assert (Hk : In (sec r) (group_keys stepSec src)) by (rewrite <- Hkeys; apply in_map, Hr).
    apply (group_keys_In stepSec) in Hk as (o & Ho & E).
    apply src_of_pool_In in Ho as (_ & _ & Hrange).
    rewrite <- E. split; [apply tagSec_multiple; exact step_pos|].
    split; [apply tagSec_in_range; assumption|].
    rewrite E. apply bySec_of_lookup_distinct; [apply sorted_lt_NoDup, Hsorted | exact Hr].
  - intros k.
    assert (Hiff : is_Some (bySec_of rows !! k) <-> In k (List.map sec rows)).
    { rewrite <- has_row_true. unfold has_row.
      destruct (bySec_of rows !! k); split; eauto; try discriminate.
      intros [x Hx]. discriminate. }
    rewrite Hiff, Hkeys, (group_keys_In stepSec). split.
    + intros (o & Ho & E). apply src_of_pool_In in Ho. exists o. tauto.
    + intros (o & H1 & H2 & H3 & E). exists o. split; [apply src_of_pool_In; tauto | exact E].
Qed.

End PoolSeries.

Lemma bucket_query_rows_keyed_by_bucket_witness :
  bySec_of (bucket_query 300
              (src_of_pool [mkCandle1m 4 0 1 2 0.5 1.5 10 2;
                            mkCandle1m 4 360000000 1.5 3 1 2.5 5 1;
                            mkCandle1m 9 0 8 8 8 8 1 1] 4 0 600000)) !! 300
  = Some (mkRow 300 1.5 3 1 2.5 5 1).
Proof.
  apply (proj1 (proj2 (bucket_query_rows_keyed_by_bucket 300 eq_refl
                  [mkCandle1m 4 0 1 2 0.5 1.5 10 2;
                   mkCandle1m 4 360000000 1.5 3 1 2.5 5 1;
                   mkCandle1m 9 0 8 8 8 8 1 1] 4 0 600000))
           (mkRow 300 1.5 3 1 2.5 5 1)).
  vm_compute. right. left. reflexivity.
Defined.

Section PoolSeriesContent.

#[local] Open Scope Q_scope.

Variable stepSec : Z.
Hypothesis step_pos : (0 < stepSec)%Z.

(** What a bar emitted by the body carries. *)
Lemma foldl_body_payload (fill : Fill) (bySec : gmap Z Row) (l : list Z) :
  forall (pc : option Q) (out : list Bar) (b : Bar),
    In b (snd (foldl (fun st t => bucket_body fill bySec t st) (pc, out) l)) ->
    In b out
    \/ (In (ts_sec b) l
        /\ (forall r, bySec !! ts_sec b = Some r ->
              close b = r_close r /\ volume b = r_volume r /\ trades b = r_trades r)
        /\ (bySec !! ts_sec b = None ->
              volume b = 0 /\ trades b = 0
              /\ open b = close b /\ high b = close b /\ low b = close b)).
Proof.
  induction l as [|t l IH]; intros pc out b Hb.
  - left. exact Hb.
  - rewrite foldl_step in Hb.
    destruct (bucket_body_cases fill bySec t pc out) as [(E & _) | (b0 & Hb0 & E)];
      rewrite E in Hb.
    + destruct (IH _ _ _ Hb) as [H | (H1 & H2)]; [left; exact H | right].
      split; [right; exact H1 | exact H2].
    + destruct (IH _ _ _ Hb) as [H | (H1 & H2)].
      * apply in_app_or in H as [H | [<- | []]]; [left; exact H | right].
        pose proof (emits_ts fill bySec _ _ _ Hb0) as Ets.
        split; [left; symmetry; exact Ets|]. rewrite Ets.
        inversion Hb0 as [r Er Eb | pc' En Ef Epc Eb | En Ef Eb].
        -- split; [|intros En; rewrite En in Er; discriminate].
           intros r' Er'. rewrite Er in Er'. injection Er' as <-. cbn. auto.
        -- split; [intros r Er; rewrite En in Er; discriminate|].
           intros _. cbn. auto.
        -- split; [intros r Er; rewrite En in Er; discriminate|].
           intros _. cbn. auto.
      * right. split; [right; exact H1 | exact H2].
Qed.

(** X10. Without fill, the series of a pool has exactly one bar for every
    bucket that holds a bar of the pool inside the range and none for the
    others, in ascending order; each bar carries the close, the volume and
    the trade count of the row of its bucket. *)
Theorem ohlcv_of_pool_sparse_one_bar_per_bucket
    (table : list Candle1m) (pool fromMs toMs : Z) :
  let src := src_of_pool table pool fromMs toMs in
  exists out : list Bar,
    ohlcv_of_pool FillNone table pool fromMs toMs stepSec = Some out
    /\ List.map ts_sec out = group_keys stepSec src
    /\ (forall b : Bar, In b out ->
          close b = r_close (bucket_row stepSec src (ts_sec b))
          /\ volume b = r_volume (bucket_row stepSec src (ts_sec b))
          /\ trades b = r_trades (bucket_row stepSec src (ts_sec b))).
Proof.
  intros src. unfold ohlcv_of_pool. rewrite ohlcv_series_fold by exact step_pos.
  fold src. set (rows := bucket_query stepSec src).
  eexists. split; [reflexivity|].
  assert (Hts : forall pc l,
             l = bucket_times
                   (bucket_count (alignSec fromMs stepSec) (alignSec toMs stepSec) stepSec)
                   (alignSec fromMs stepSec) stepSec ->
             List.map ts_sec
               (snd (foldl (fun st t => bucket_body FillNone (bySec_of rows) t st) (pc, []) l))
             = group_keys stepSec src).
  { intros pc l ->. rewrite foldl_none_ts. simpl.
    unfold rows, src. rewrite (pool_rows_filter stepSec step_pos).
    apply bucket_query_keys. }
  split; [apply Hts; reflexivity|].
  intros b Hb.
  pose proof (in_map ts_sec _ _ Hb) as Hk. rewrite (Hts _ _ eq_refl) in Hk.
  destruct (foldl_body_payload _ _ _ _ _ _ Hb) as [[] | (_ & Hrow & _)].
  apply Hrow.
  assert (Hin : In (bucket_row stepSec src (ts_sec b)) rows)
    by (unfold rows, bucket_query; apply in_map; exact Hk).
  change (ts_sec b) with (sec (bucket_row stepSec src (ts_sec b))) at 1.
  apply bySec_of_lookup_distinct; [|exact Hin].
  unfold rows. rewrite bucket_query_keys. apply sorted_lt_NoDup, group_keys_sorted.
Qed.

End PoolSeriesContent.

Lemma ohlcv_of_pool_sparse_one_bar_per_bucket_witness :
  exists out : list Bar,
    ohlcv_of_pool FillNone
      [mkCandle1m 4 0 1 2 0.5 1.5 10 2; mkCandle1m 4 660000000 1.5 3 1 2.5 5 1]
      4 0 900000 300 = Some out
    /\ List.map ts_sec out = [0; 600]%Z.
Proof.
  destruct (ohlcv_of_pool_sparse_one_bar_per_bucket 300 eq_refl
              [mkCandle1m 4 0 1 2 0.5 1.5 10 2; mkCandle1m 4 660000000 1.5 3 1 2.5 5 1]
              4 0 900000) as (out & E & Hts & _).
  exists out. split; [exact E | exact Hts].
Defined.

Section VolumeConservation.

#[local] Open Scope Q_scope.

Lemma Qsum_cons (x : Q) (l : list Q) : Qsum (x :: l) = x + Qsum l.
Proof. reflexivity. Qed.

Lemma Qsum_map_ext_in {A : Type} (f g : A -> Q) (l : list A) :
  (forall x, In x l -> f x == g x) -> Qsum (List.map f l) == Qsum (List.map g l).
Proof.
  induction l as [|x l IH]; intros H; [reflexivity|].
  simpl List.map. rewrite !Qsum_cons, (H x (or_introl eq_refl)), IH; [reflexivity|].
  intros y Hy. apply H. right. exact Hy.
Qed.

Lemma Qsum_map_zero {A : Type} (f : A -> Q) (l : list A) :
  (forall x, f x == 0) -> Qsum (List.map f l) == 0.
Proof.
  intros H. induction l as [|x l IH]; [reflexivity|].
  simpl List.map. rewrite Qsum_cons, IH, (H x). ring.
Qed.

Lemma Qsum_map_plus {A : Type} (f g : A -> Q) (l : list A) :
  Qsum (List.map (fun x => f x + g x) l) == Qsum (List.map f l) + Qsum (List.map g l).
Proof.
  induction l as [|x l IH]; [reflexivity|].
  simpl List.map. rewrite !Qsum_cons, IH. ring.
Qed.

Lemma Qsum_indicator (x : Z) (v : Q) (keys : list Z) :
  List.NoDup keys ->
  (In x keys -> Qsum (List.map (fun k => if (x =? k)%Z then v else 0) keys) == v)
  /\ (~ In x keys -> Qsum (List.map (fun k => if (x =? k)%Z then v else 0) keys) == 0).
Proof.
  induction 1 as [|k keys Hk Hnd [IH1 IH2]]; [split; [intros [] | reflexivity]|].
  simpl List.map. rewrite Qsum_cons.
  destruct (Z.eqb_spec x k) as [->|N]; split.
  - intros _. rewrite (IH2 Hk). ring.
  - intros H. destruct H. left. reflexivity.
  - intros [E | H]; [now destruct N|]. rewrite (IH1 H). ring.
  - intros H. rewrite IH2; [ring|]. intros H'. apply H. right. exact H'.
Qed.

Lemma sum_of_from (f : Candle1m -> Q) (g : list Candle1m) :
  forall a : Q, foldl (fun s x => s + f x) a g == a + sum_of f g.
Proof.
  unfold sum_of. induction g as [|x g IH]; intros a.
  - simpl. ring.
  - rewrite !foldl_step, (IH (a + f x)), (IH (0 + f x)). ring.
Qed.

Lemma sum_of_cons (f : Candle1m -> Q) (x : Candle1m) (g : list Candle1m) :
  sum_of f (x :: g) == f x + sum_of f g.
Proof. unfold sum_of at 1. rewrite foldl_step, sum_of_from. ring. Qed.

(** Summing the groups of distinct keys that cover every bar sums every
    bar once. *)
Lemma sum_of_groups (stepSec : Z) (f : Candle1m -> Q) (keys : list Z) (src : list Candle1m) :
  List.NoDup keys ->
  (forall o, In o src -> In (tagSec stepSec (s_start o)) keys) ->
  Qsum (List.map (fun k => sum_of f (group_of stepSec src k)) keys)
  == Qsum (List.map f src).
Proof.
  intros Hnd. induction src as [|o src IH]; intros Hcov.
  - apply Qsum_map_zero. intros k. reflexivity.
  - simpl List.map at 2. rewrite Qsum_cons.
    rewrite <- IH by (intros o' Ho'; apply Hcov; right; exact Ho').
    rewrite (Qsum_map_ext_in _
               (fun k => (if (tagSec stepSec (s_start o) =? k)%Z then f o else 0)
                         + sum_of f (group_of stepSec src k))).
    + rewrite Qsum_map_plus.
      rewrite (proj1 (Qsum_indicator _ _ _ Hnd)) by (apply Hcov; left; reflexivity).
      reflexivity.
    + intros k _. unfold group_of. cbn [List.filter].
      destruct (tagSec stepSec (s_start o) =? k)%Z; [apply sum_of_cons | ring].
Qed.

Lemma Qsum_filter_zero {A : Type} (f : A -> Q) (p : A -> bool) (l : list A) :
  (forall x, p x = false -> f x == 0) ->
  Qsum (List.map f l) == Qsum (List.map f (List.filter p l)).
Proof.
  intros Hz. induction l as [|x l IH]; [reflexivity|].
  cbn [List.filter]. destruct (p x) eqn:E.
  - cbn [List.map]. rewrite !Qsum_cons, IH. reflexivity.
  - cbn [List.map]. rewrite Qsum_cons, IH, (Hz x E). ring.
Qed.

Variable stepSec : Z.
Hypothesis step_pos : (0 < stepSec)%Z.

(** The volume and the trades the loop can pick up over the aligned range
    are those of the bars of the pool inside the requested range. *)
Lemma pool_volume_visited (table : list Candle1m) (pool fromMs toMs : Z) :
  let src := src_of_pool table pool fromMs toMs in
  let rows := bucket_query stepSec src in
  let l := bucket_times
             (bucket_count (alignSec fromMs stepSec) (alignSec toMs stepSec) stepSec)
             (alignSec fromMs stepSec) stepSec in
  Qsum (List.map (volume_at (bySec_of rows)) l) == Qsum (List.map s_volume src)
  /\ Qsum (List.map (trades_at (bySec_of rows)) l) == Qsum (List.map s_trades src).
Proof.
  intros src rows l.
  assert (Hkeys : List.map sec rows = group_keys stepSec src) by apply bucket_query_keys.
  assert (Hnd : List.NoDup (group_keys stepSec src))
    by apply sorted_lt_NoDup, group_keys_sorted.
  assert (Hcov : forall o, In o src -> In (tagSec stepSec (s_start o)) (group_keys stepSec src)).
  { intros o Ho. apply (group_keys_In stepSec). eauto. }
  assert (Hlook : forall k, In k (group_keys stepSec src) ->
                    bySec_of rows !! k = Some (bucket_row stepSec src k)).
  { intros k Hk.
    change k with (sec (bucket_row stepSec src k)) at 1.
    apply bySec_of_lookup_distinct; [rewrite Hkeys; exact Hnd|].
    unfold rows, bucket_query. apply in_map. exact Hk. }
  assert (Hfilter : List.filter (has_row (bySec_of rows)) l = group_keys stepSec src).
  { unfold l, rows, src. rewrite (pool_rows_filter stepSec step_pos). apply bucket_query_keys. }
  split.
  - rewrite (Qsum_filter_zero (volume_at (bySec_of rows)) (has_row (bySec_of rows)) l).
    + rewrite Hfilter, <- (sum_of_groups stepSec s_volume _ src Hnd Hcov).
      apply Qsum_map_ext_in. intros k Hk. unfold volume_at. rewrite (Hlook k Hk). reflexivity.
    + intros t Ht. unfold has_row in Ht. unfold volume_at.
      destruct (bySec_of rows !! t); [discriminate | reflexivity].
  - rewrite (Qsum_filter_zero (trades_at (bySec_of rows)) (has_row (bySec_of rows)) l).
    + rewrite Hfilter, <- (sum_of_groups stepSec s_trades _ src Hnd Hcov).
      apply Qsum_map_ext_in. intros k Hk. unfold trades_at. rewrite (Hlook k Hk). reflexivity.
    + intros t Ht. unfold has_row in Ht. unfold trades_at.
      destruct (bySec_of rows !! t); [discriminate | reflexivity].
Qed.

(** X11. Whatever the fill, the series of a pool conserves volume and
    trade count: the volumes of its bars add up to the volumes of the
    1-minute bars of the pool inside the requested range, and so do the
    trade counts. *)
Theorem ohlcv_of_pool_conserves_volume
    (fill : Fill) (table : list Candle1m) (pool fromMs toMs : Z) :
  exists out : list Bar,
    ohlcv_of_pool fill table pool fromMs toMs stepSec = Some out
    /\ Qsum (List.map volume out)
       == Qsum (List.map s_volume (src_of_pool table pool fromMs toMs))
    /\ Qsum (List.map trades out)
       == Qsum (List.map s_trades (src_of_pool table pool fromMs toMs)).
Proof.
  unfold ohlcv_of_pool. rewrite ohlcv_series_fold by exact step_pos.
  eexists. split; [reflexivity|].
  match goal with
  | |- context [foldl _ (?pc, []) ?l] =>
      destruct (foldl_body_volume fill
                  (bySec_of (bucket_query stepSec (src_of_pool table pool fromMs toMs)))
                  l pc []) as [Hv Ht]
  end.
  destruct (pool_volume_visited table pool fromMs toMs) as [Hv' Ht'].
  cbv zeta in Hv', Ht'.
  rewrite Hv, Ht, Hv', Ht'. simpl. split; ring.
Qed.

End VolumeConservation.

Lemma ohlcv_of_pool_conserves_volume_witness :
  exists out : list Bar,
    ohlcv_of_pool FillZero
      [mkCandle1m 4 0 1 2 0.5 1.5 10 2; mkCandle1m 4 60000000 1.5 3 1 2.5 5 1]
      4 0 900000 300 = Some out
    /\ (Qsum (List.map volume out) == 15)%Q.
Proof.
  destruct (ohlcv_of_pool_conserves_volume 300 eq_refl FillZero
              [mkCandle1m 4 0 1 2 0.5 1.5 10 2; mkCandle1m 4 60000000 1.5 3 1 2.5 5 1]
              4 0 900000) as (out & E & Hv & _).
  exists out. split; [exact E|]. rewrite Hv. reflexivity.
Defined.

(** ** Price change: the two bars compared *)

Section ChangeRows.

#[local] Open Scope Q_scope.

Variable ohlcv_1m : list Ohlcv1m.
Variable now : Z.

Lemma cte_last_spec (poolId : Z) (l : Ohlcv1m) :
  cte_last ohlcv_1m poolId = Some l ->
  In l ohlcv_1m /\ o_pool_id l = poolId
  /\ forall o, In o ohlcv_1m -> o_pool_id o = poolId -> (bucket_start o <= bucket_start l)%Z.
Proof.
  unfold cte_last. intros H.
  destruct (proj2 (latest_spec _) l H) as [Hin Hmax].
  apply filter_In in Hin as [Hin Hp]. apply Z.eqb_eq in Hp.
  split; [exact Hin|]. split; [exact Hp|].
  intros o Ho Hpo. apply Hmax. apply filter_In. split; [exact Ho | apply Z.eqb_eq, Hpo].
Qed.

Lemma cte_prev_spec (poolId minutes : Z) (p : Ohlcv1m) :
  cte_prev ohlcv_1m now poolId minutes = Some p ->
  In p ohlcv_1m /\ o_pool_id p = poolId
  /\ (bucket_start p <= now - minutes * 60000000)%Z
  /\ forall o, In o ohlcv_1m -> o_pool_id o = poolId ->
       (bucket_start o <= now - minutes * 60000000)%Z ->
       (bucket_start o <= bucket_start p)%Z.
Proof.
  unfold cte_prev. intros H.
  destruct (proj2 (latest_spec _) p H) as [Hin Hmax].
  apply filter_In in Hin as [Hin Hp]. apply andb_prop in Hp as [Hp Hc].
  apply Z.eqb_eq in Hp. apply Z.leb_le in Hc.
  split; [exact Hin|]. split; [exact Hp|]. split; [exact Hc|].
  intros o Ho Hpo Hco. apply Hmax. apply filter_In. split; [exact Ho|].
  apply andb_true_intro. split; [apply Z.eqb_eq, Hpo | apply Z.leb_le, Hco].
Qed.

(** X12. The change query compares two bars of the pool: the latest bar,
    and the latest bar that starts at or before [now - minutes].  The
    second never starts after the first; and the query has a row exactly
    when the pool has a bar at or before [now - minutes]. *)
Theorem change_query_compares_latest_with_window_start (poolId minutes : Z) :
  (forall l p : Ohlcv1m,
     cte_last ohlcv_1m poolId = Some l ->
     cte_prev ohlcv_1m now poolId minutes = Some p ->
     o_pool_id l = poolId /\ o_pool_id p = poolId
     /\ (bucket_start p <= now - minutes * 60000000)%Z
     /\ (bucket_start p <= bucket_start l)%Z
     /\ (forall o, In o ohlcv_1m -> o_pool_id o = poolId ->
           (bucket_start o <= bucket_start l)%Z
           /\ ((bucket_start o <= now - minutes * 60000000)%Z ->
               (bucket_start o <= bucket_start p)%Z)))
  /\ (is_Some (change_query ohlcv_1m now poolId minutes) <->
      exists o, In o ohlcv_1m /\ o_pool_id o = poolId
                /\ (bucket_start o <= now - minutes * 60000000)%Z).
Proof.
  split.
  - intros l p Hl Hp.
    destruct (cte_last_spec _ _ Hl) as (Hlin & Hlp & Hlmax).
    destruct (cte_prev_spec _ _ _ Hp) as (Hpin & Hpp & Hpc & Hpmax).
    split; [exact Hlp|]. split; [exact Hpp|]. split; [exact Hpc|].
    split; [apply Hlmax; assumption|].
    intros o Ho Hpo. split; [apply Hlmax; assumption|]. intros Hc. apply Hpmax; assumption.
  - unfold change_query. split.
    + intros [r Hr].
      destruct (cte_last ohlcv_1m poolId) as [l|]; [|discriminate].
      destruct (cte_prev ohlcv_1m now poolId minutes) as [p|] eqn:Ep; [|discriminate].
      destruct (cte_prev_spec _ _ _ Ep) as (Hpin & Hpp & Hpc & _). eauto.
    + intros (o & Ho & Hpo & Hc).
      assert (H1 : cte_last ohlcv_1m poolId <> None).
      { unfold cte_last. intros E. apply (proj1 (latest_spec _)) in E.
        assert (Hin : In o (List.filter (fun o => (o_pool_id o =? poolId)%Z) ohlcv_1m))
          by (apply filter_In; split; [exact Ho | apply Z.eqb_eq, Hpo]).
        rewrite E in Hin. destruct Hin. }
      assert (H2 : cte_prev ohlcv_1m now poolId minutes <> None).
      { unfold cte_prev. intros E. apply (proj1 (latest_spec _)) in E.
        assert (Hin : In o (List.filter
                              (fun o => (o_pool_id o =? poolId)%Z
                                        && (bucket_start o <=? now - minutes * 60000000)%Z)
                              ohlcv_1m)).
        { apply filter_In. split; [exact Ho|].
          apply andb_true_intro. split; [apply Z.eqb_eq, Hpo | apply Z.leb_le, Hc]. }
        rewrite E in Hin. destruct Hin. }
      destruct (cte_last ohlcv_1m poolId); [|now destruct H1].
      destruct (cte_prev ohlcv_1m now poolId minutes); [|now destruct H2].
      eauto.
Qed.

(** X13. [zigChangeFromUsdcPool] is [changePctForMinutes] with inversion,
    without the test for finite values.  It is null exactly when a close
    is absent or zero, and then the inverted change is null too.  When the
    inverted change is [p] percent and no operation on the way overflows
    or underflows, it returns [p].  When both closes are present and not
    zero but the inverted change is null, because a reciprocal is not
    finite, it returns a value that is not a finite number. *)
Theorem zigChangeFromUsdcPool_is_inverted_change (poolId minutes : Z) :
  (zigChangeFromUsdcPool ohlcv_1m now poolId minutes = None <->
   falsy_num (match change_query ohlcv_1m now poolId minutes with
              | Some r => last_close r | None => None end)
   || falsy_num (match change_query ohlcv_1m now poolId minutes with
                 | Some r => prev_close r | None => None end) = true)
  /\ (zigChangeFromUsdcPool ohlcv_1m now poolId minutes = None ->
      changePctForMinutes ohlcv_1m now poolId minutes true = None)
  /\ (forall (r : CloseRow) (lc pc p : Q),
        change_query ohlcv_1m now poolId minutes = Some r ->
        last_close r = Some lc -> prev_close r = Some pc ->
        changePctForMinutes ohlcv_1m now poolId minutes true = Some p ->
        Qabs (1 / lc - 1 / pc) < Flt.huge ->
        Qabs p < Flt.huge ->
        p == 0 \/ 100 * Flt.small < Qabs p ->
        exists v : Q,
          zigChangeFromUsdcPool ohlcv_1m now poolId minutes = Some (Flt.Fin v) /\ v == p)
  /\ (forall z : Flt.t,
        zigChangeFromUsdcPool ohlcv_1m now poolId minutes = Some z ->
        changePctForMinutes ohlcv_1m now poolId minutes true = None ->
        Flt.isFinite z = false).
Proof.
  unfold zigChangeFromUsdcPool, changePctForMinutes, changePct_of_row.
  destruct (change_query ohlcv_1m now poolId minutes) as [r|].
  2:{ cbn. repeat split; try reflexivity; try discriminate. }
  destruct (last_close r) as [lc|] eqn:Elc.
  2:{ cbn. repeat split; try reflexivity; try discriminate. }
  destruct (prev_close r) as [pc|] eqn:Epc.
  2:{ cbn [falsy_num]. rewrite orb_true_r.
      repeat split; try reflexivity; try discriminate. }
  cbn [falsy_num].
  destruct (Num.falsy lc) eqn:Fl.
  { cbn. repeat split; try reflexivity; try discriminate. }
  destruct (Num.falsy pc) eqn:Fp.
  { cbn. repeat split; try reflexivity; try discriminate. }
  apply NumFacts.falsy_false in Fl, Fp. cbn [orb]. cbv zeta.
  split; [split; discriminate|]. split; [discriminate|]. split.
  - intros r' lc' pc' p [= <-] Hlc Hpc H Hd Hp Hs.
    rewrite Elc in Hlc. rewrite Epc in Hpc. injection Hlc as <-. injection Hpc as <-.
    destruct (Flt.recip lc) as [| | |li] eqn:El; cbn [Flt.finite] in H; try discriminate H.
    destruct (Flt.recip pc) as [| | |pi] eqn:Ep; cbn [Flt.finite] in H; try discriminate H.
    destruct (Qeq_bool pi 0) eqn:Ez; [discriminate H|].
    injection H as <-.
    destruct (recip_fin _ _ Fl El) as [-> _].
    destruct (recip_fin _ _ Fp Ep) as [-> _].
    set (li := 1 / lc) in *. set (pi := 1 / pc) in *.
    assert (Hpi : ~ pi == 0) by (apply inv_nonzero; exact Fp).
    cbn [Flt.sub]. rewrite (FltFacts.overflow_fin (li - pi))
      by (apply Qabs_Qlt_condition in Hd; tauto).
    cbn [Flt.div]. rewrite Ez.
    assert (Habs : Qabs ((li - pi) / pi * 100) == Qabs ((li - pi) / pi) * 100).
    { rewrite Qabs_Qmult. reflexivity. }
    pose proof FltFacts.small_pos as Hsp.
    assert (Hq0 : 0 <= Qabs ((li - pi) / pi)) by apply Qabs_nonneg.
    destruct Hs as [Hs | Hs].
    + assert (Hq : (li - pi) / pi == 0).
      { assert (E : (li - pi) / pi == ((li - pi) / pi * 100) / 100) by (field; exact Hpi).
        rewrite E, Hs. reflexivity. }
      assert (Er : Flt.round ((li - pi) / pi) = Flt.Fin 0).
      { destruct (FltFacts.round_cases ((li - pi) / pi)) as [[_ E] | [H _]]; [exact E|].
        rewrite Hq in H. change (Qabs 0) with 0 in H. lra. }
      rewrite Er. cbn [Flt.mul]. exists 0. split; [|symmetry; exact Hs].
      reflexivity.
    + rewrite Habs in Hs, Hp.
      assert (Er : Flt.round ((li - pi) / pi) = Flt.Fin ((li - pi) / pi)).
      { apply FltFacts.round_fits. apply FltFacts.fits_spec. split; lra. }
      rewrite Er. cbn [Flt.mul].
      assert (Er2 : Flt.round ((li - pi) / pi * 100) = Flt.Fin ((li - pi) / pi * 100)).
      { apply FltFacts.round_fits. apply FltFacts.fits_spec. rewrite Habs. split; lra. }
      rewrite Er2. eexists. split; reflexivity.
  - intros z [= <-] H.
    apply pct_not_finite.
    + destruct (Flt.recip lc) as [| | |li] eqn:El; try (left; reflexivity).
      destruct (Flt.recip pc) as [| | |pi] eqn:Ep; try (right; reflexivity).
      exfalso. cbn [Flt.finite] in H.
      pose proof (recip_not_zero _ Fp) as Hz. rewrite Ep in Hz. cbn [Flt.is_zero] in Hz.
      rewrite Hz in H. discriminate H.
    + destruct (recip_cases _ Fl) as [[_ ->] | [_ [-> | ->]]]; discriminate.
    + destruct (recip_cases _ Fp) as [[_ ->] | [_ [-> | ->]]]; discriminate.
Qed.


End ChangeRows.

Lemma change_query_compares_latest_with_window_start_witness :
  is_Some (change_query [mkOhlcv1m 4 0 (Some 2%Q); mkOhlcv1m 4 3600000000 (Some 3%Q)]
             3600000000 4 60).
Proof.
  apply (proj2 (change_query_compares_latest_with_window_start
                  [mkOhlcv1m 4 0 (Some 2%Q); mkOhlcv1m 4 3600000000 (Some 3%Q)]
                  3600000000 4 60)).
  exists (mkOhlcv1m 4 0 (Some 2%Q)). split; [left; reflexivity|]. split; [reflexivity|].
  vm_compute. discriminate.
Defined.

Lemma zigChangeFromUsdcPool_is_inverted_change_witness :
  exists v : Q,
    zigChangeFromUsdcPool [mkOhlcv1m 4 0 (Some 2%Q); mkOhlcv1m 4 3600000000 (Some 3%Q)]
      3600000000 4 60 = Some (Flt.Fin v)
    /\ (v == ((1 / 3 - 1 / 2) / (1 / 2)) * 100)%Q.
Proof.
  apply (proj1 (proj2 (proj2 (zigChangeFromUsdcPool_is_inverted_change
                  [mkOhlcv1m 4 0 (Some 2%Q); mkOhlcv1m 4 3600000000 (Some 3%Q)]
                  3600000000 4 60)))
           (mkCloseRow (Some 3%Q) (Some 2%Q)) 3%Q 2%Q).
  - vm_compute. reflexivity.
  - reflexivity.
  - reflexivity.
  - reflexivity.
  - vm_compute. reflexivity.
  - vm_compute. reflexivity.
  - right. vm_compute. reflexivity.
Defined.


Section StalePool.

#[local] Open Scope Q_scope.

(** X15. When a pool has one bar per start and its latest bar already
    starts at or before [now - minutes], the two bars compared are the same
    bar.  Provided its close is present and not 0, the direct change is 0
    (not null); the inverted change is 0 when the reciprocal of the close
    is finite, and null when it is not. *)
Theorem changePct_stale_pool_is_zero
    (ohlcv_1m : list Ohlcv1m) (now poolId minutes : Z)
    (l : Ohlcv1m) (c : Q) :
  (forall a b, In a ohlcv_1m -> In b ohlcv_1m ->
     o_pool_id a = o_pool_id b -> bucket_start a = bucket_start b -> a = b) ->
  cte_last ohlcv_1m poolId = Some l ->
  (bucket_start l <= now - minutes * 60000000)%Z ->
  o_close l = Some c -> ~ c == 0 ->
  (exists p : Q,
     changePctForMinutes ohlcv_1m now poolId minutes false = Some p /\ p == 0)
  /\ (Qabs (1 / c) < Flt.huge ->
      exists p : Q,
        changePctForMinutes ohlcv_1m now poolId minutes true = Some p /\ p == 0)
  /\ (Flt.huge <= Qabs (1 / c) ->
      changePctForMinutes ohlcv_1m now poolId minutes true = None).
Proof.
  intros Hpk Hl Hstale Hc Hnz.
  destruct (cte_last_spec _ _ _ Hl) as (Hlin & Hlp & Hlmax).
  destruct (cte_prev ohlcv_1m now poolId minutes) as [pr|] eqn:Ep.
  2:{ exfalso. unfold cte_prev in Ep. apply (proj1 (latest_spec _)) in Ep.
      assert (Hin : In l (List.filter
                            (fun o => (o_pool_id o =? poolId)%Z
                                      && (bucket_start o <=? now - minutes * 60000000)%Z)
                            ohlcv_1m)).
      { apply filter_In. split; [exact Hlin|].
        apply andb_true_intro. split; [apply Z.eqb_eq, Hlp | apply Z.leb_le, Hstale]. }
      rewrite Ep in Hin. destruct Hin. }
  destruct (cte_prev_spec _ _ _ _ _ Ep) as (Hpin & Hpp & Hpc & Hpmax).
  assert (E : pr = l).
  { apply Hpk; [exact Hpin | exact Hlin | congruence|].
    pose proof (Hlmax pr Hpin Hpp). pose proof (Hpmax l Hlin Hlp Hstale). lia. }
  subst pr.
  unfold changePctForMinutes, change_query, changePct_of_row. rewrite Hl, Ep.
  cbn [last_close prev_close]. rewrite Hc. cbn [falsy_num].
  rewrite (proj2 (NumFacts.falsy_false c) Hnz). cbn [orb]. cbv zeta.
  split; [|split].
  - cbn [Flt.finite].
    rewrite (proj1 (not_true_iff_false _) (fun E => Hnz (proj1 (Qeq_bool_iff _ _) E))).
    eexists. split; [reflexivity|]. field. exact Hnz.
  - intro Hfin. destruct (recip_cases c Hnz) as [[_ E] | [H _]]; [|lra].
    pose proof (recip_not_zero c Hnz) as Hz. rewrite E in Hz.
    cbn [Flt.is_zero] in Hz. rewrite E. cbn [Flt.finite]. rewrite Hz.
    eexists. split; [reflexivity|]. field. exact Hnz.
  - intro Hinf. destruct (recip_cases c Hnz) as [[H _] | [_ [E | E]]]; [lra| |];
      rewrite E; reflexivity.
Qed.

Lemma changePct_stale_pool_is_zero_witness :
  (exists p : Q,
     changePctForMinutes [mkOhlcv1m 4 0 (Some 2); mkOhlcv1m 7 60000000 (Some 5)]
       7200000000 4 60 false = Some p
     /\ p == 0)
  /\ (exists p : Q,
        changePctForMinutes [mkOhlcv1m 4 0 (Some 2); mkOhlcv1m 7 60000000 (Some 5)]
          7200000000 4 60 true = Some p
        /\ p == 0).
Proof.
  destruct (changePct_stale_pool_is_zero
              [mkOhlcv1m 4 0 (Some 2); mkOhlcv1m 7 60000000 (Some 5)]
              7200000000 4 60 (mkOhlcv1m 4 0 (Some 2)) 2) as (H1 & H2 & _).
  - intros a b [<- | [<- | []]] [<- | [<- | []]]; simpl; intros; congruence || lia.
  - reflexivity.
  - vm_compute. discriminate.
  - reflexivity.
  - discriminate.
  - split; [exact H1|]. apply H2. vm_compute. reflexivity.
Defined.

End StalePool.

(** ** Inversion and conversion of bars *)

Section BarTransforms.

#[local] Open Scope Q_scope.

Lemma inv_le (a b : Q) : 0 < a -> a <= b -> 1 / b <= 1 / a.
Proof.
  intros Ha Hab. apply div_le_cross; lra.
Qed.

(** X16. Inversion swaps and inverts low and high, so a bar with positive
    low whose open and close lie between low and high stays so after
    inversion; a bar whose low is 0 and whose open is positive does not:
    its inverted high is 0, below its inverted open. *)
Theorem invertBar_keeps_open_within_low_high (b : Bar) :
  (0 < low b -> low b <= open b -> open b <= high b ->
   low b <= close b -> close b <= high b ->
   low (invertBar b) <= open (invertBar b) /\ open (invertBar b) <= high (invertBar b)
   /\ low (invertBar b) <= close (invertBar b) /\ close (invertBar b) <= high (invertBar b)
   /\ 0 < low (invertBar b))
  /\ (low b <= 0 -> 0 < open b ->
      high (invertBar b) = 0 /\ high (invertBar b) < open (invertBar b)).
Proof.
  split.
  - intros Hl H1 H2 H3 H4. unfold invertBar. cbn.
    rewrite !invert_pos by lra.
    repeat split; try (apply inv_le; lra).
    apply Qlt_shift_div_l; lra.
  - intros Hl Ho. unfold invertBar. cbn.
    rewrite (invert_nonpos _ Hl), (invert_pos _ Ho).
    split; [reflexivity|]. apply Qlt_shift_div_l; lra.
Qed.

Lemma invertBar_keeps_open_within_low_high_witness :
  low (invertBar (mkBar 60 2 4 1 3 10 3)) <= open (invertBar (mkBar 60 2 4 1 3 10 3)).
Proof.
  destruct (invertBar_keeps_open_within_low_high (mkBar 60 2 4 1 3 10 3)) as [H _].
  apply H; reflexivity || discriminate.
Defined.

(** X17. The unit factor of [ohlcvAdvanced] is 1 for both units, so
    [convert] leaves a bar as it is in price mode, and in market-cap mode
    with no circulating supply; with a supply it multiplies open, high, low
    and close by it, which keeps low <= open <= high when the supply is
    not negative. *)
Theorem convertBar_scales_by_supply_only
    (unitIsUsd modeIsMcap : bool) (zigUsd : Q) (circ : option Q) (b : Bar) :
  zigUsdFactor unitIsUsd zigUsd = 1
  /\ (let b' := convertBar modeIsMcap circ (zigUsdFactor unitIsUsd zigUsd) b in
      ts_sec b' = ts_sec b /\ trades b' = trades b /\ volume b' == volume b
      /\ ((modeIsMcap = false \/ circ = None) ->
          open b' == open b /\ high b' == high b /\ low b' == low b /\ close b' == close b)
      /\ (forall c, modeIsMcap = true -> circ = Some c ->
            open b' == open b * c /\ high b' == high b * c
            /\ low b' == low b * c /\ close b' == close b * c
            /\ (0 <= c -> low b <= open b -> open b <= high b ->
                low b' <= open b' /\ open b' <= high b'))).
Proof.
  assert (Ef : zigUsdFactor unitIsUsd zigUsd = 1) by (destruct unitIsUsd; reflexivity).
  split; [exact Ef|]. rewrite Ef. cbv zeta.
  split; [unfold convertBar; destruct modeIsMcap, circ; reflexivity|].
  split; [unfold convertBar; destruct modeIsMcap, circ; reflexivity|].
  split; [unfold convertBar; destruct modeIsMcap, circ; cbn; ring|].
  split.
  - intros H. unfold convertBar.
    destruct modeIsMcap; [destruct circ as [c|]; [destruct H; discriminate|]|];
      cbn; repeat split; ring.
  - intros c -> ->. unfold convertBar. cbn.
    split; [ring|]. split; [ring|]. split; [ring|]. split; [ring|].
    intros Hc H1 H2. split; nra.
Qed.

Lemma convertBar_scales_by_supply_only_witness :
  open (convertBar true (Some 1000) (zigUsdFactor true 0.08) (mkBar 60 2 4 1 3 10 3))
  == 2 * 1000.
Proof.
  destruct (convertBar_scales_by_supply_only true true 0.08 (Some 1000)
              (mkBar 60 2 4 1 3 10 3)) as (_ & _ & _ & _ & _ & H).
  destruct (H 1000 eq_refl eq_refl) as (Ho & _). exact Ho.
Defined.

End BarTransforms.


(** ** The SQL worth and the listed worth *)

Section WorthFacts.

#[local] Open Scope Q_scope.

(** The worth the query computes is the worth the listing computes from the
    shaped row, when the native leg has exponent 6 (or none) in the tokens
    table and the offer leg, if native on both sides, has an amount
    whenever the ask leg has one. *)
Lemma worth_sql_shapeRow (r : TradeRow) (unit : Unit_) (zigUsd : Q) :
  (denom_is_uzig (offer_asset_denom r) = true ->
   offer_exp r = None \/ offer_exp r = Some 6%Z) ->
  (denom_is_uzig (ask_asset_denom r) = true ->
   ask_exp r = None \/ ask_exp r = Some 6%Z) ->
  (denom_is_uzig (offer_asset_denom r) = true ->
   denom_is_uzig (ask_asset_denom r) = true ->
   offer_amount_base r = None -> ask_amount_base r = None) ->
  worth_sql unit r zigUsd = worthForClass (shapeRow r unit zigUsd) unit zigUsd.
Proof.
  intros Ho Ha Hn.
  unfold worth_sql, worthUsd, worthZig, worthForClass, shapeRow, sql_mul, coalesce,
    sql_scaled, scale, exp_or.
  cbn [zigLegAmount valueNative zig_usd_at_trade].
  destruct (denom_is_uzig (offer_asset_denom r)) eqn:Eo;
    destruct (denom_is_uzig (ask_asset_denom r)) eqn:Ea.
  all: try (destruct (Ho eq_refl) as [Ho' | Ho']; rewrite Ho'; clear Ho').
  all: try (destruct (Ha eq_refl) as [Ha' | Ha']; rewrite Ha'; clear Ha').
  all: destruct (offer_amount_base r) as [oa|] eqn:Eoa.
  all: destruct (ask_amount_base r) as [aa|] eqn:Eaa.
  all: try (specialize (Hn eq_refl eq_refl eq_refl); discriminate Hn).
  all: destruct unit; destruct (fx_zig_usd r) as [fx|]; try reflexivity.
  all: destruct (is_dir r Buy); destruct (is_uzig_quote r);
    destruct (return_amount_base r) as [ra|];
    destruct (pq_price_in_zig r) as [pq|];
    destruct (qexp r) as [qe|]; reflexivity.
Qed.

(** X18. The worth that the paged query filters and ranks on is the worth
    that the listing shows for the same row: both take the native leg
    first, then the value of the quote leg.  This holds when the native
    denomination has exponent 6 (or no row) in the tokens table and no row
    has a native offer leg without an amount next to a native ask leg with
    one. *)
Theorem worth_sql_is_listed_worth (r : TradeRow) (unit : Unit_) (zigUsd : Q) :
  (denom_is_uzig (offer_asset_denom r) = true ->
   offer_exp r = None \/ offer_exp r = Some 6%Z) ->
  (denom_is_uzig (ask_asset_denom r) = true ->
   ask_exp r = None \/ ask_exp r = Some 6%Z) ->
  (denom_is_uzig (offer_asset_denom r) = true ->
   denom_is_uzig (ask_asset_denom r) = true ->
   offer_amount_base r = None -> ask_amount_base r = None) ->
  worth_sql unit r zigUsd = worthForClass (shapeRow r unit zigUsd) unit zigUsd.
Proof. exact (worth_sql_shapeRow r unit zigUsd). Qed.

Lemma worth_sql_is_listed_worth_witness :
  let r := mkTradeRow (Some Sell) (Some "utoken"%string) (Some "uzig"%string)
             (Some 5000000) (Some 2500000000) (Some 2400000000)
             (Some 6%Z) None (Some 6%Z) (Some 6%Z) true None (Some 0.02) in
  worth_sql UnitUsd r 0.03 = worthForClass (shapeRow r UnitUsd 0.03) UnitUsd 0.03
  /\ worth_sql UnitUsd r 0.03 = Some (2500000000 / Qpower 10 6 * 0.02).
Proof.
  intro r. split.
  - apply (worth_sql_is_listed_worth r UnitUsd 0.03).
    + intro H. vm_compute in H. discriminate H.
    + intros _. left. reflexivity.
    + intro H. vm_compute in H. discriminate H.
  - reflexivity.
Defined.

Lemma classify_filter (k : Class) (w : Q) :
  classifyByThreshold w = k <->
  match k with
  | shrimp => Num.ltb w 1000
  | shark => Num.leb 1000 w && Num.leb w 10000
  | whale => Num.gtb w 10000
  end = true.
Proof.
  unfold classifyByThreshold, Num.ltb, Num.leb, Num.gtb.
  destruct (Qle_bool 1000 w) eqn:A; destruct (Qle_bool w 10000) eqn:B;
    destruct k; simpl; split; intro H; try discriminate H; try reflexivity.
  all: exfalso.
  all: assert (A' : ~ 1000 <= w) by (intro Hc; apply Qle_bool_iff in Hc; congruence).
  all: assert (B' : ~ w <= 10000) by (intro Hc; apply Qle_bool_iff in Hc; congruence).
  all: lra.
Qed.

(** X19. The class filter of the paged query keeps exactly the rows that
    the listing labels with that class: a row passes the filter for
    shrimp, shark or whale if and only if its [class] is that one; a row
    without a worth passes none and has no class.  Same preconditions on
    the native leg as for the worth. *)
Theorem class_filter_selects_rows_of_that_class
  (k : Class) (r : TradeRow) (unit : Unit_) (zigUsd : Q) :
  (denom_is_uzig (offer_asset_denom r) = true ->
   offer_exp r = None \/ offer_exp r = Some 6%Z) ->
  (denom_is_uzig (ask_asset_denom r) = true ->
   ask_exp r = None \/ ask_exp r = Some 6%Z) ->
  (denom_is_uzig (offer_asset_denom r) = true ->
   denom_is_uzig (ask_asset_denom r) = true ->
   offer_amount_base r = None -> ask_amount_base r = None) ->
  class_filter k unit r zigUsd = true <->
  classOf (shapeRow r unit zigUsd) unit zigUsd = Some k.
Proof.
  intros Ho Ha Hn. unfold class_filter, classOf.
  rewrite (worth_sql_shapeRow r unit zigUsd Ho Ha Hn).
  destruct (worthForClass (shapeRow r unit zigUsd) unit zigUsd) as [w|].
  - rewrite <- (classify_filter k w). split; intro H.
    + rewrite H. reflexivity.
    + injection H as H. exact H.
  - split; intro H; discriminate H.
Qed.

Lemma class_filter_selects_rows_of_that_class_witness :
  let r := mkTradeRow (Some Buy) (Some "uzig"%string) (Some "utoken"%string)
             (Some 2500000000) (Some 7000000) (Some 6900000)
             None (Some 6%Z) (Some 6%Z) (Some 6%Z) true None None in
  class_filter shark UnitZig r 0.03 = true
  /\ classOf (shapeRow r UnitZig 0.03) UnitZig 0.03 = Some shark.
Proof.
  intro r.
  assert (E : class_filter shark UnitZig r 0.03 = true <->
              classOf (shapeRow r UnitZig 0.03) UnitZig 0.03 = Some shark).
  { apply (class_filter_selects_rows_of_that_class shark r UnitZig 0.03).
    - intros _. left. reflexivity.
    - intro H. vm_compute in H. discriminate H.
    - intros _ H. vm_compute in H. discriminate H. }
  split.
  - reflexivity.
  - apply E. reflexivity.
Defined.

End WorthFacts.


(** ** Pages of a listing *)

Section PagingFacts.

Lemma parseLimit_cases (q : option Q) :
  parseLimit q = 100 \/ parseLimit q = 500 \/ parseLimit q = 1000.
Proof.
  unfold parseLimit. destruct q as [n|]; [|left; reflexivity].
  destruct (Qeq_bool n 100); [left; reflexivity|].
  destruct (Qeq_bool n 500); [right; left; reflexivity|].
  destruct (Qeq_bool n 1000); [right; right; reflexivity|left; reflexivity].
Qed.

Lemma parsePage_ge_1 (q : option Q) : 1 <= parsePage q.
Proof.
  unfold parsePage. destruct q as [n|]; [|lia].
  unfold Num.leb. destruct (Qle_bool 1 n) eqn:E; [|lia].
  apply Qle_bool_iff in E.
  change 1 with (Qfloor (inject_Z 1)) at 1.
  apply Qfloor_resp_le. exact E.
Qed.

Lemma pages_cover (total limit : Z) :
  0 < limit -> total <= pages total limit * limit.
Proof.
  intro Hl. unfold pages.
  pose proof (Qle_ceiling (inject_Z total / inject_Z limit)) as Hc.
  set (c := Qceiling (inject_Z total / inject_Z limit)) in *. clearbody c.
  assert (HlQ : (0 < inject_Z limit)%Q).
  { change 0%Q with (inject_Z 0). rewrite <- Zlt_Qlt. exact Hl. }
  assert (Hm : (inject_Z total <= inject_Z c * inject_Z limit)%Q).
  { setoid_replace (inject_Z total)
      with (inject_Z total / inject_Z limit * inject_Z limit)%Q using relation Qeq
      by (field; intro E; rewrite E in HlQ; discriminate HlQ).
    apply Qmult_le_compat_r; [exact Hc|].
    apply Qlt_le_weak. exact HlQ. }
  rewrite <- inject_Z_mult in Hm. rewrite <- Zle_Qle in Hm.
  nia.
Qed.

Lemma page_rows_chunks {A : Type} (ranked : list A) (limit : Z) (k : nat) :
  0 < limit ->
  concat (List.map (fun p => page_rows ranked (Z.of_nat p) limit) (seq 1 k))
  = take (k * Z.to_nat limit) ranked.
Proof.
  intro Hl. induction k as [|k IH].
  - reflexivity.
  - rewrite seq_S, List.map_app, concat_app, IH.
    cbn [List.map concat]. rewrite app_nil_r.
    unfold page_rows, offset.
    replace (Z.to_nat ((Z.of_nat (1 + k) - 1) * limit)) with (k * Z.to_nat limit)%nat
      by nia.
    rewrite take_take_drop. f_equal. lia.
Qed.

(** X20. Paging loses and repeats nothing: with the limit [parseLimit]
    accepts, the pages 1 to [pages], each read with its [offset], put one
    after the other give the ranked rows back; a page after the last is
    empty; and the page number [parsePage] returns is at least 1, so its
    offset is never negative. *)
Theorem pages_partition_the_listing {A : Type} (ranked : list A) (qLimit qPage : option Q) :
  concat (List.map (fun p => page_rows ranked (Z.of_nat p) (parseLimit qLimit))
            (seq 1 (Z.to_nat (pages (Z.of_nat (length ranked)) (parseLimit qLimit)))))
  = ranked
  /\ (forall p, pages (Z.of_nat (length ranked)) (parseLimit qLimit) < p ->
        page_rows ranked p (parseLimit qLimit) = [])
  /\ 0 <= offset (parsePage qPage) (parseLimit qLimit).
Proof.
  assert (Hl : 0 < parseLimit qLimit).
  { destruct (parseLimit_cases qLimit) as [E | [E | E]]; rewrite E; lia. }
  pose proof (pages_cover (Z.of_nat (length ranked)) (parseLimit qLimit) Hl) as Hc.
  assert (Hp : 1 <= pages (Z.of_nat (length ranked)) (parseLimit qLimit)).
  { unfold pages. lia. }
  set (L := parseLimit qLimit) in *.
  set (P := pages (Z.of_nat (length ranked)) L) in *.
  clearbody P. clearbody L.
  split; [|split].
  - rewrite (page_rows_chunks ranked L (Z.to_nat P) Hl).
    apply take_ge. nia.
  - intros p Hlt. unfold page_rows, offset.
    rewrite drop_ge; [destruct (Z.to_nat L); reflexivity|].
    nia.
  - pose proof (parsePage_ge_1 qPage). unfold offset. nia.
Qed.

Lemma pages_partition_the_listing_witness :
  let ranked := List.map Z.of_nat (seq 0 250) in
  pages (Z.of_nat (length ranked)) (parseLimit (Some 100%Q)) = 3
  /\ concat (List.map (fun p => page_rows ranked (Z.of_nat p) (parseLimit (Some 100%Q)))
               (seq 1 (Z.to_nat (pages (Z.of_nat (length ranked)) (parseLimit (Some 100%Q))))))
     = ranked
  /\ (forall p, pages (Z.of_nat (length ranked)) (parseLimit (Some 100%Q)) < p ->
        page_rows ranked p (parseLimit (Some 100%Q)) = [])
  /\ 0 <= offset (parsePage (Some 2.5%Q)) (parseLimit (Some 100%Q)).
Proof.
  intro ranked. split; [reflexivity|].
  exact (pages_partition_the_listing ranked (Some 100%Q) (Some 2.5%Q)).
Defined.

End PagingFacts.


(** ** Routes *)

Section RouteFacts.

#[local] Open Scope Q_scope.

(** What a picked pool is, for either direction. *)
Lemma best_pool_pick (fromIsZig : bool) (side : Side)
    (loaded : list Pool) (amountIn : option Q) (minTvlZig zigUsd : Q) (r : BestPool) :
  (let pools := List.filter (fun p => Num.leb minTvlZig (tvlZig p)) loaded in
   match pools with
   | [] => None
   | _ =>
       let amt :=
         match amountIn with
         | Some a => a
         | None => defaultAmount side zigUsd pools
         end in
       match pickBySimulation pools fromIsZig amt with
       | None => None
       | Some pick => Some (mkBestPool pick amt)
       end
   end) = Some r ->
  exists p, In p loaded
    /\ minTvlZig <= tvlZig p
    /\ b_pick r = candidate fromIsZig (amtUsed r) p
    /\ amtUsed r =
       match amountIn with
       | Some a => a
       | None =>
           defaultAmount side zigUsd
             (List.filter (fun p => Num.leb minTvlZig (tvlZig p)) loaded)
       end.
Proof.
  cbv zeta.
  set (pools := List.filter (fun p => Num.leb minTvlZig (tvlZig p)) loaded).
  set (amt := match amountIn with
              | Some a => a
              | None => defaultAmount side zigUsd pools
              end).
  intro H.
  assert (H' : pickBySimulation pools fromIsZig amt = Some (b_pick r) /\ amtUsed r = amt).
  { destruct pools as [|p0 rest]; [discriminate H|].
    destruct (pickBySimulation (p0 :: rest) fromIsZig amt) as [pick|]; [|discriminate H].
    injection H as <-. split; reflexivity. }
  destruct H' as [Hp Ha].
  destruct (proj2 (pickBySimulation_first_max _ _ _) _ Hp)
    as (l1 & p & l2 & Epools & Eb & _).
  assert (Hin : In p pools).
  { rewrite Epools. apply in_or_app. right. left. reflexivity. }
  apply filter_In in Hin as [Hin Htvl]. apply NumFacts.leb_true in Htvl.
  exists p. split; [exact Hin|]. split; [exact Htvl|].
  split; [rewrite Ha; exact Eb|].
  rewrite Ha. unfold amt. destruct amountIn; reflexivity.
Qed.

Lemma bestBuyPool_pick (loaded : list Pool) (amountIn : option Q) (minTvlZig zigUsd : Q)
    (r : BestPool) :
  bestBuyPool loaded amountIn minTvlZig zigUsd = Some r ->
  exists p, In p loaded
    /\ minTvlZig <= tvlZig p
    /\ b_pick r = candidate true (amtUsed r) p
    /\ amtUsed r = match amountIn with
                   | Some a => a
                   | None => 100 / Num.max zigUsd 1e-9
                   end.
Proof.
  intro H. apply (best_pool_pick true SideBuy) in H.
  destruct H as (p & H1 & H2 & H3 & H4). exists p.
  split; [exact H1|]. split; [exact H2|]. split; [exact H3|].
  rewrite H4. destruct amountIn; reflexivity.
Qed.

Lemma bestSellPool_pick (loaded : list Pool) (amountIn : option Q) (minTvlZig zigUsd : Q)
    (r : BestPool) :
  bestSellPool loaded amountIn minTvlZig zigUsd = Some r ->
  exists p, In p loaded
    /\ minTvlZig <= tvlZig p
    /\ b_pick r = candidate false (amtUsed r) p.
Proof.
  intro H. apply (best_pool_pick false SideSell) in H.
  destruct H as (p & H1 & H2 & H3 & _). exists p. auto.
Qed.

Lemma first_by_In {A : Type} (before : A -> A -> bool) (rows : list A) (b : A) :
  Sql.first_by before rows = Some b -> In b rows.
Proof.
  unfold Sql.first_by.
  assert (G : forall acc,
             foldl (fun best t =>
                      match best with
                      | None => Some t
                      | Some b => if before t b then Some t else Some b
                      end) acc rows = Some b ->
             acc = Some b \/ In b rows).
  { induction rows as [|t rows IH]; intros acc H.
    - left. exact H.
    - cbn [foldl] in H. apply IH in H. destruct H as [H | H].
      + destruct acc as [b0|].
        * destruct (before t b0).
          -- injection H as <-. right. left. reflexivity.
          -- left. exact H.
        * injection H as <-. right. left. reflexivity.
      + right. right. exact H. }
  intro H. destruct (G None H) as [E | E]; [discriminate E | exact E].
Qed.

Lemma block_of_ok (fromIsZig : bool) (side : Side) (pools : list Pool) (minTvlZig zigUsd : Q)
    (r : BestPool) (p : Pool) :
  fromIsZig = match side with SideBuy => true | SideSell => false end ->
  In p pools -> minTvlZig <= tvlZig p ->
  b_pick r = candidate fromIsZig (amtUsed r) p ->
  block_ok pools minTvlZig (block_of side r zigUsd).
Proof.
  intros Hside Hin Htvl Hb. unfold block_ok, block_of, makePairBlock.
  rewrite Hb. unfold candidate.
  cbn [pb_pool pb_fee pb_side price_native_mid amount_in amount_out price_native_exec
       price_usd_exec price_impact c_pool c_sim c_fee].
  split; [exact Hin|]. split; [exact Htvl|]. split; [reflexivity|]. split; [reflexivity|].
  exists (amtUsed r). split; [reflexivity|].
  destruct (hasRes p).
  - cbv zeta. rewrite <- Hside. repeat split.
  - repeat split.
Qed.

Section Route.

Variable tokens : list Token.
Variable pools_of : Z -> list Pool.
Variable zigUsd : Q.

(** X21. In a route from one token to another, the native amount the first
    leg gives is the amount the second leg takes, when that amount is a
    finite number: the buy block's [amount_in] is the sell block's
    [amount_out].  When the sell block's [amount_out] is not a finite
    number (the simulation overflowed), or the sell pool has no reserves,
    so that its block has no [amount_out], the buy leg is quoted for the
    default 100 dollar amount instead.  Only such a route has two blocks;
    the first is the sell, the second the buy. *)
Theorem route_via_uzig_chains_legs
    (from to : option string) (amt : option Q) (minTvlZig : Q)
    (d : RouteData) (s b : PairBlock) :
  route tokens pools_of zigUsd from to amt minTvlZig = RouteOk d ->
  pairs d = [s; b] ->
  source d = via_uzig
  /\ pb_side s = SideSell /\ pb_side b = SideBuy
  /\ (forall z : Q, amount_out s = Some (Flt.Fin z) -> amount_in b = Some z)
  /\ (forall o : Flt.t, amount_out s = Some o -> Flt.isFinite o = false ->
        amount_in b = Some (100 / Num.max zigUsd 1e-9))
  /\ (amount_out s = None -> amount_in b = Some (100 / Num.max zigUsd 1e-9)).
Proof.
  unfold route. intros H Hp.
  destruct (Str.falsy from || Str.falsy to); [discriminate H|].
  destruct (resolveRef tokens from) as [[|tf]|]; [| |discriminate H];
    destruct (resolveRef tokens to) as [[|tt']|]; try discriminate H.
  - destruct (bestBuyPool _ _ _ _); injection H as <-; discriminate Hp.
  - destruct (bestSellPool _ _ _ _); injection H as <-; discriminate Hp.
  - cbv zeta in H.
    destruct (bestSellPool (pools_of (token_id tf)) amt minTvlZig zigUsd) as [a|] eqn:Ea.
    2:{ injection H as <-. discriminate Hp. }
    destruct (bestBuyPool (pools_of (token_id tt')) _ minTvlZig zigUsd) as [bb|] eqn:Eb.
    2:{ injection H as <-. discriminate Hp. }
    injection H as <-. cbn [pairs] in Hp. injection Hp as <- <-.
    apply bestBuyPool_pick in Eb as (p & _ & _ & _ & Hamt).
    unfold block_of, makePairBlock.
    cbn [source pb_side amount_out amount_in].
    split; [reflexivity|]. split; [reflexivity|]. split; [reflexivity|].
    rewrite Hamt. destruct (c_sim (b_pick a)) as [sim|].
    + split; [|split].
      * intros z [= Ez]. rewrite Ez. reflexivity.
      * intros o [= Eo] Hf. rewrite Eo. destruct o; try reflexivity. discriminate Hf.
      * intro Hn. discriminate Hn.
    + split; [|split].
      * intros z Hz. discriminate Hz.
      * intros o Ho. discriminate Ho.
      * intros _. reflexivity.
Qed.

(** X22. Every block of a route is the quote of one pool that was loaded
    for the token and passes the minimum locked value: its fee is the fee
    of the pool's type, its mid price the pool's price, and its amount out,
    execution price and impact are those of the constant-product simulation
    of the block's own [amount_in] on the pool's reserves, in the block's
    direction; for a pool without reserves they are null. *)
Theorem route_blocks_are_pool_simulations
    (from to : option string) (amt : option Q) (minTvlZig : Q)
    (d : RouteData) (blk : PairBlock) :
  route tokens pools_of zigUsd from to amt minTvlZig = RouteOk d ->
  In blk (pairs d) ->
  exists tok, In tok tokens /\ block_ok (pools_of (token_id tok)) minTvlZig blk.
Proof.
  unfold route. intros H Hin.
  destruct (Str.falsy from || Str.falsy to); [discriminate H|].
  assert (Hres : forall ref t, resolveRef tokens ref = Some (RefToken t) -> In t tokens).
  { intros ref t. unfold resolveRef. destruct (isUzigRef ref); [discriminate|].
    destruct (SwapService.resolveTokenId tokens _) as [t0|] eqn:E; [|discriminate].
    intros [= <-]. unfold SwapService.resolveTokenId in E.
    apply first_by_In in E.
    apply filter_In in E. exact (proj1 E). }
  destruct (resolveRef tokens from) as [[|tf]|] eqn:Ef; [| |discriminate H];
    destruct (resolveRef tokens to) as [[|tt']|] eqn:Et; try discriminate H.
  - destruct (bestBuyPool _ _ _ _) as [buy|] eqn:Eb; injection H as <-;
      cbn [pairs] in Hin; [|destruct Hin].
    destruct Hin as [<- | []].
    apply bestBuyPool_pick in Eb as (p & Hp & Htvl & Hb & _).
    exists tt'. split; [exact (Hres _ _ Et)|].
    exact (block_of_ok true SideBuy _ _ _ _ p eq_refl Hp Htvl Hb).
  - destruct (bestSellPool _ _ _ _) as [sell|] eqn:Es; injection H as <-;
      cbn [pairs] in Hin; [|destruct Hin].
    destruct Hin as [<- | []].
    apply bestSellPool_pick in Es as (p & Hp & Htvl & Hb).
    exists tf. split; [exact (Hres _ _ Ef)|].
    exact (block_of_ok false SideSell _ _ _ _ p eq_refl Hp Htvl Hb).
  - cbv zeta in H.
    destruct (bestSellPool (pools_of (token_id tf)) amt minTvlZig zigUsd) as [a|] eqn:Ea.
    2:{ injection H as <-. destruct Hin. }
    destruct (bestBuyPool (pools_of (token_id tt')) _ minTvlZig zigUsd) as [bb|] eqn:Eb.
    2:{ injection H as <-. destruct Hin. }
    injection H as <-. cbn [pairs] in Hin.
    destruct Hin as [<- | [<- | []]].
    + apply bestSellPool_pick in Ea as (p & Hp & Htvl & Hb).
      exists tf. split; [exact (Hres _ _ Ef)|].
      exact (block_of_ok false SideSell _ _ _ _ p eq_refl Hp Htvl Hb).
    + apply bestBuyPool_pick in Eb as (p & Hp & Htvl & Hb & _).
      exists tt'. split; [exact (Hres _ _ Et)|].
      exact (block_of_ok true SideBuy _ _ _ _ p eq_refl Hp Htvl Hb).
Qed.

End Route.

End RouteFacts.


Section RouteExamples.

#[local] Open Scope Q_scope.

Lemma route_via_uzig_chains_legs_witness :
  let tokens := [mkToken 1 "utoka" (Some "TOKA"%string) None (Some 6%Z);
                 mkToken 2 "utokb" (Some "TOKB"%string) None (Some 6%Z)] in
  let pools_of := fun id : Z =>
                    if (id =? 1)%Z
                    then [mkPool 11 "zig1aaa" (Some "xyk"%string) 0.2 50000 10000 20000]
                    else [mkPool 22 "zig1bbb" None 0.5 8000 4000 8000] in
  exists d s b,
    route tokens pools_of 0.08 (Some "TOKA"%string) (Some "utokb"%string) (Some 100%Q) 0 = RouteOk d
    /\ pairs d = [s; b]
    /\ source d = via_uzig
    /\ pb_side s = SideSell /\ pb_side b = SideBuy
    /\ (forall z : Q, amount_out s = Some (Flt.Fin z) -> amount_in b = Some z)
    /\ (forall o : Flt.t, amount_out s = Some o -> Flt.isFinite o = false ->
          amount_in b = Some (100 / Num.max 0.08 1e-9))
    /\ (amount_out s = None -> amount_in b = Some (100 / Num.max 0.08 1e-9)).
Proof.
  intros tokens pools_of. do 3 eexists.
  split; [vm_compute; reflexivity|]. split; [reflexivity|].
  apply (route_via_uzig_chains_legs tokens pools_of 0.08
           (Some "TOKA"%string) (Some "utokb"%string) (Some 100%Q) 0).
  - vm_compute. reflexivity.
  - reflexivity.
Defined.

(** An amount so large that the first leg's simulation overflows: the sell
    block's [amount_out] is an infinity and the buy leg is quoted for the
    default amount. *)
Lemma route_via_uzig_overflow_default :
  let tokens := [mkToken 1 "utoka" (Some "TOKA"%string) None (Some 6%Z);
                 mkToken 2 "utokb" (Some "TOKB"%string) None (Some 6%Z)] in
  let pools_of := fun id : Z =>
                    if (id =? 1)%Z
                    then [mkPool 11 "zig1aaa" (Some "xyk"%string) 0.2 50000 10000 20000]
                    else [mkPool 22 "zig1bbb" None 0.5 8000 4000 8000] in
  exists d s b,
    route tokens pools_of 0.08 (Some "TOKA"%string) (Some "utokb"%string)
      (Some (inject_Z (10 ^ 308))) 0 = RouteOk d
    /\ pairs d = [s; b]
    /\ amount_out s = Some Flt.PInf
    /\ amount_in b = Some (100 / Num.max 0.08 1e-9).
Proof.
  intros tokens pools_of. do 3 eexists.
  split; [vm_compute; reflexivity|]. split; [reflexivity|]. split; reflexivity.
Qed.

Lemma route_blocks_are_pool_simulations_witness :
  let tokens := [mkToken 1 "utoka" (Some "TOKA"%string) None (Some 6%Z);
                 mkToken 2 "utokb" (Some "TOKB"%string) None (Some 6%Z)] in
  let pools_of := fun id : Z =>
                    if (id =? 1)%Z
                    then [mkPool 11 "zig1aaa" (Some "xyk"%string) 0.2 50000 10000 20000;
                          mkPool 12 "zig1ccc" (Some "xyk_30"%string) 0.2 0 0 50]
                    else [mkPool 22 "zig1bbb" None 0.5 8000 4000 8000] in
  exists d blk,
    route tokens pools_of 0.08 (Some " ZIG "%string) (Some "tokb"%string) None 100 = RouteOk d
    /\ pairs d = [blk]
    /\ exists tok, In tok tokens /\ block_ok (pools_of (token_id tok)) 100 blk.
Proof.
  intros tokens pools_of. do 2 eexists.
  split; [vm_compute; reflexivity|]. split; [reflexivity|].
  eapply (route_blocks_are_pool_simulations tokens pools_of 0.08
            (Some " ZIG "%string) (Some "tokb"%string) None 100).
  - vm_compute. reflexivity.
  - left. reflexivity.
Defined.

End RouteExamples.


(** ** Timeframes *)

Section TimeframeFacts.

#[local] Open Scope string_scope.

Lemma own_property_In {V : Type} (obj : list (string * V)) (k : string) (v : V) :
  own_property obj k = Some v -> In (k, v) obj.
Proof.
  induction obj as [|[k' v'] obj IH]; [discriminate|].
  cbn [own_property]. destruct (String.eqb k' k) eqn:E.
  - apply String.eqb_eq in E. intros [= <-]. left. rewrite E. reflexivity.
  - intro H. right. exact (IH H).
Qed.

Lemma is_tf_unit_cases (u : ascii) :
  is_tf_unit u = true ->
  u = "m"%char \/ u = "h"%char \/ u = "d"%char \/ u = "w"%char \/ u = "M"%char.
Proof.
  unfold is_tf_unit. cbn [existsb]. intro H.
  repeat (apply orb_prop in H as [H | H];
          [apply Ascii.eqb_eq in H; rewrite H; tauto|]).
  discriminate H.
Qed.

Lemma tf_unit_cases (u : ascii) (per : Z) :
  own_property tf_unit (String u "") = Some per ->
  is_tf_unit u = true /\ (60 <= per)%Z.
Proof.
  intro H. apply own_property_In in H. cbn [tf_unit In] in H.
  repeat (destruct H as [H | H]; [injection H as <- <-; split; [reflexivity | lia]|]).
  destruct H.
Qed.

Lemma is_tf_unit_nondigit (u : ascii) : is_tf_unit u = true -> Str.is_digit u = false.
Proof.
  intro H. apply is_tf_unit_cases in H.
  repeat (destruct H as [-> | H]; [reflexivity|]). rewrite H. reflexivity.
Qed.

Lemma skip_digits_app (ds post : string) :
  all_digits ds = true -> nondigit_head post = true ->
  skip_digits (append ds post) = post.
Proof.
  intros Hd Hp. induction ds as [|c r IH].
  - destruct post as [|c r]; [reflexivity|].
    simpl in *. apply negb_true_iff in Hp. rewrite Hp. reflexivity.
  - simpl in *. apply andb_prop in Hd as [Hc Hr].
    rewrite Hc. exact (IH Hr).
Qed.

Lemma take_skip_digits (s : string) :
  append (Str.take_digits s) (skip_digits s) = s.
Proof.
  induction s as [|c r IH]; [reflexivity|].
  cbn [Str.take_digits skip_digits]. destruct (Str.is_digit c); [|reflexivity].
  change (String c (append (Str.take_digits r) (skip_digits r)) = String c r).
  rewrite IH. reflexivity.
Qed.

Lemma take_digits_all (s : string) : all_digits (Str.take_digits s) = true.
Proof.
  induction s as [|c r IH]; [reflexivity|].
  cbn [Str.take_digits]. destruct (Str.is_digit c) eqn:E; [|reflexivity].
  cbn [all_digits]. rewrite E, IH. reflexivity.
Qed.

Lemma exec_tf_app (ds : string) (u : ascii) :
  all_digits ds = true -> ds <> "" -> is_tf_unit u = true ->
  exec_tf (append ds (String u "")) = Some (ds, u).
Proof.
  intros Hd Hne Hu. unfold exec_tf.
  assert (Hp : nondigit_head (String u "") = true).
  { cbn [nondigit_head]. rewrite (is_tf_unit_nondigit u Hu). reflexivity. }
  rewrite (take_digits_app ds _ Hd Hp), (skip_digits_app ds _ Hd Hp).
  destruct ds as [|d ds']; [contradiction|]. rewrite Hu. reflexivity.
Qed.

Lemma exec_tf_inv (s ds : string) (u : ascii) :
  exec_tf s = Some (ds, u) ->
  s = append ds (String u "") /\ all_digits ds = true /\ ds <> ""
  /\ is_tf_unit u = true.
Proof.
  unfold exec_tf. intro H.
  pose proof (take_skip_digits s) as Hs. pose proof (take_digits_all s) as Ha.
  destruct (Str.take_digits s) as [|d ds'] eqn:Et; [discriminate H|].
  destruct (skip_digits s) as [|u' [|x y]] eqn:Es; try discriminate H.
  destruct (is_tf_unit u') eqn:Eu; [|discriminate H].
  injection H as <- <-. split; [symmetry; exact Hs|]. split; [exact Ha|].
  split; [discriminate | exact Eu].
Qed.

Lemma decimal_value_nonneg (ds : string) :
  all_digits ds = true -> (0 <= Str.decimal_value ds)%Z.
Proof.
  unfold Str.decimal_value.
  assert (G : forall acc, (0 <= acc)%Z -> all_digits ds = true ->
              (0 <= fold_left (fun acc c => (10 * acc + Str.digit_value c)%Z)
                     (list_ascii_of_string ds) acc)%Z).
  { induction ds as [|c r IH]; intros acc Hacc Hd.
    - exact Hacc.
    - cbn [all_digits] in Hd. apply andb_prop in Hd as [Hc Hr].
      cbn [list_ascii_of_string fold_left]. apply IH; [|exact Hr].
      unfold Str.is_digit in Hc. apply andb_prop in Hc as [Hc _].
      apply N.leb_le in Hc. unfold Str.digit_value. lia. }
  intro Hd. apply G; [lia | exact Hd].
Qed.

(** The table [map] holds nothing the pattern would not give. *)
Lemma tf_map_entry (s : string) (n : Z) :
  In (s, n) tf_map ->
  (0 < n)%Z
  /\ exists ds u per,
       exec_tf s = Some (ds, u)
       /\ own_property tf_unit (String u "") = Some per
       /\ n = (Str.decimal_value ds * per)%Z.
Proof.
  intro H. cbn [tf_map In] in H.
  repeat (destruct H as [H | H];
          [injection H as <- <-; split; [lia|];
           eexists _, _, _; split; [vm_compute; reflexivity|];
           split; vm_compute; reflexivity|]).
  destruct H.
Qed.

Lemma prototype_key_no_match (s : string) :
  existsb (String.eqb s) object_prototype_keys = true -> exec_tf s = None.
Proof.
  unfold object_prototype_keys. cbn [existsb]. intro H.
  repeat (apply orb_prop in H as [H | H];
          [apply String.eqb_eq in H; rewrite H; reflexivity|]).
  discriminate H.
Qed.

(** X23. A timeframe written as a count and a unit (m, h, d, w or M) is
    that count times the seconds of the unit, whether or not the table
    lists it: the fifteen entries of the table are all instances of the
    rule.  Stated for counts whose product stays within the integers a
    number holds exactly. *)
Theorem tfToSec_is_count_times_unit (ds : string) (u : ascii) (per : Z) :
  all_digits ds = true -> ds <> "" ->
  own_property tf_unit (String u "") = Some per ->
  (Str.decimal_value ds * per <= 2 ^ 53)%Z ->
  tfToSec (Some (append ds (String u ""))) = TfSec (Str.decimal_value ds * per).
Proof.
  intros Hd Hne Hper Hsmall.
  destruct (tf_unit_cases u per Hper) as [Hu Hge].
  pose proof (exec_tf_app ds u Hd Hne Hu) as Hex.
  remember (append ds (String u "")) as s eqn:Es.
  unfold tfToSec. destruct s as [|c r]; [discriminate Hex|].
  destruct (own_property tf_map (String c r)) as [n|] eqn:Em.
  - apply own_property_In in Em.
    destruct (tf_map_entry _ _ Em) as (Hn & ds' & u' & per' & Hex' & Hper' & ->).
    rewrite Hex in Hex'. injection Hex' as <- <-.
    rewrite Hper in Hper'. injection Hper' as <-.
    destruct (Z.eqb_spec (Str.decimal_value ds * per) 0) as [E | _]; [lia | reflexivity].
  - destruct (existsb (String.eqb (String c r)) object_prototype_keys) eqn:Ek.
    + rewrite (prototype_key_no_match _ Ek) in Hex. discriminate Hex.
    + rewrite Hex, Hper.
      destruct (Z.eqb_spec per 0) as [E | _]; [lia|].
      assert (Hlt : (Str.decimal_value ds < Str.Number_overflow)%Z).
      { assert (Hb : (2 ^ 53 < Str.Number_overflow)%Z) by (vm_compute; reflexivity).
        pose proof (decimal_value_nonneg ds Hd). nia. }
      apply Z.ltb_lt in Hlt. rewrite Hlt. reflexivity.
Qed.

Lemma tfToSec_is_count_times_unit_witness :
  tfToSec (Some "45m") = TfSec 2700 /\ tfToSec (Some "12h") = TfSec 43200.
Proof.
  split.
  - apply (tfToSec_is_count_times_unit "45" "m"%char 60).
    + reflexivity.
    + discriminate.
    + reflexivity.
    + vm_compute. discriminate.
  - apply (tfToSec_is_count_times_unit "12" "h"%char 3600).
    + reflexivity.
    + discriminate.
    + reflexivity.
    + vm_compute. discriminate.
Defined.

(** X24. When [tfToSec] returns a number of seconds it is positive, with one
    exception: a count of zero with a unit (such as 0m) gives a step of
    zero seconds.  Everything that is neither in the table nor a count and
    a unit gives 60. *)
Theorem tfToSec_positive_unless_zero_count (tf : option string) (n : Z) :
  tfToSec tf = TfSec n ->
  (0 < n)%Z
  \/ (n = 0%Z
      /\ exists ds u, tf = Some (append ds (String u ""))
           /\ ds <> "" /\ all_digits ds = true /\ is_tf_unit u = true
           /\ Str.decimal_value ds = 0%Z).
Proof.
  assert (P : forall s,
             match exec_tf s with
             | None => TfSec 60
             | Some (ds, u) =>
                 let per :=
                   match own_property tf_unit (String u EmptyString) with
                   | Some n => if (n =? 0)%Z then 60%Z else n
                   | None => 60%Z
                   end in
                 if (Str.decimal_value ds <? Str.Number_overflow)%Z
                 then TfSec (Str.decimal_value ds * per)
                 else TfInfinity
             end = TfSec n ->
             (0 < n)%Z
             \/ (n = 0%Z
                 /\ exists ds u, s = append ds (String u "")
                      /\ ds <> "" /\ all_digits ds = true /\ is_tf_unit u = true
                      /\ Str.decimal_value ds = 0%Z)).
  { intros s H. destruct (exec_tf s) as [[ds u]|] eqn:Ex.
    2:{ injection H as <-. left. lia. }
    destruct (exec_tf_inv s ds u Ex) as (Hs & Hd & Hne & Hu).
    cbv zeta in H.
    destruct (Str.decimal_value ds <? Str.Number_overflow)%Z; [|discriminate H].
    injection H as <-.
    pose proof (decimal_value_nonneg ds Hd) as H0.
    assert (Hper : (0 < match own_property tf_unit (String u "") with
                        | Some n => if (n =? 0)%Z then 60%Z else n
                        | None => 60%Z
                        end)%Z).
    { destruct (own_property tf_unit (String u "")) as [per|] eqn:Ep; [|lia].
      destruct (tf_unit_cases u per Ep) as [_ Hge].
      destruct (Z.eqb_spec per 0); lia. }
    destruct (Z.eq_dec (Str.decimal_value ds) 0) as [Ez | Ez].
    - right. rewrite Ez. split; [reflexivity|].
      exists ds, u. auto.
    - left. apply Z.mul_pos_pos; [lia | exact Hper]. }
  unfold tfToSec. destruct tf as [[|c r]|].
  - intro H. destruct (P "" H) as [H1 | (_ & ds & u & Hs & Hne & _)]; [left; exact H1|].
    destruct ds; [contradiction | discriminate Hs].
  - destruct (own_property tf_map (String c r)) as [m|] eqn:Em.
    + apply own_property_In in Em. destruct (tf_map_entry _ _ Em) as [Hm _].
      destruct (Z.eqb_spec m 0) as [E | _]; [lia|].
      intros [= <-]. left. exact Hm.
    + destruct (existsb (String.eqb (String c r)) object_prototype_keys);
        [discriminate|].
      intro H. destruct (P _ H) as [H1 | (Hn & ds & u & Hs & Hrest)]; [left; exact H1|].
      right. split; [exact Hn|]. exists ds, u. rewrite Hs. auto.
  - intro H. destruct (P "" H) as [H1 | (_ & ds & u & Hs & Hne & _)]; [left; exact H1|].
    destruct ds; [contradiction | discriminate Hs].
Qed.

Lemma tfToSec_positive_unless_zero_count_witness :
  ((0 < 0)%Z
   \/ (0%Z = 0%Z
       /\ exists ds u, Some "00h" = Some (append ds (String u ""))
            /\ ds <> "" /\ all_digits ds = true /\ is_tf_unit u = true
            /\ Str.decimal_value ds = 0%Z))
  /\ tfToSec (Some "00h") = TfSec 0.
Proof.
  split.
  - apply (tfToSec_positive_unless_zero_count (Some "00h") 0). reflexivity.
  - reflexivity.
Defined.

End TimeframeFacts.


(** ** Native-currency references *)

Section UzigRefFacts.

#[local] Open Scope string_scope.

Lemma toLowerCase_never (s t : string) :
  Str.toLowerCase t <> t -> String.eqb (Str.toLowerCase s) t = false.
Proof.
  intro H. apply String.eqb_neq. intro E. apply H.
  rewrite <- E. apply toLowerCase_idem.
Qed.

(** X25. The swap service's test for a native-currency reference is the
    token service's test applied to the trimmed reference: a reference
    counts as native exactly when, trimmed and lowercased, it is uzig or
    zig.  The capitalised entries of the alias set are never the ones that
    match, since the lookup is made with a lowercased string. *)
Theorem isUzigRef_is_isUzigToken_of_trimmed (s : string) :
  isUzigRef (Some s) = isUzigToken (TokString (trim s))
  /\ (isUzigRef (Some s) = true <->
      Str.toLowerCase (trim s) = "uzig" \/ Str.toLowerCase (trim s) = "zig").
Proof.
  assert (E : isUzigRef (Some s)
              = String.eqb (Str.toLowerCase (trim s)) "uzig"
                || String.eqb (Str.toLowerCase (trim s)) "zig").
  { unfold isUzigRef, UZIG_ALIASES. cbn [existsb].
    rewrite (toLowerCase_never (trim s) "uZIG") by discriminate.
    rewrite (toLowerCase_never (trim s) "UZIG") by discriminate.
    rewrite !orb_false_r.
    destruct s as [|c r].
    - reflexivity.
    - cbn [Str.falsy negb andb].
      destruct (String.eqb (Str.toLowerCase (trim (String c r))) "uzig");
        destruct (String.eqb (Str.toLowerCase (trim (String c r))) "zig"); reflexivity. }
  split.
  - rewrite E. reflexivity.
  - rewrite E. rewrite orb_true_iff, !String.eqb_eq. reflexivity.
Qed.

End UzigRefFacts.
